(** * Hawck input daemon (KBDDaemon.cpp): passthrough registry, hotplug
    callback and event loop, as a shallow embedding.

    The daemon is a C++ class whose methods mutate its members and call
    out to collaborators (keyboards, the uinput device, the socket to the
    macro daemon, syslog, the filesystem).  The embedding is a state and
    exception monad over a record of the members; every call to a
    collaborator is appended to an output trace, and every answer of a
    collaborator is read from an explicit environment record. *)

From stdpp Require Import gmap strings list fin_maps.
From Stdlib Require Import ZArith Ascii.

Set Warnings "-clear-no-such-hyp".

Local Open Scope Z_scope.

(** ** Data of the program *)

(** [struct stat], the three fields the daemon reads. *)
Record stat := mkStat { st_mode : Z; st_uid : Z; st_gid : Z }.

(** [FSEvent] of the filesystem watcher. *)
Record FSEvent := mkFSEvent { path : string; mask : Z; stbuf : stat }.

(** [struct input_event] of the kernel. *)
Record input_event := mkEvent {
  time_sec : Z; time_usec : Z; type : Z; code : Z; value : Z }.

(** [KBDAction], the message exchanged with the macro daemon. *)
Record KBDAction := mkAction { done : Z; ev : input_event }.

(** [KBDState] of a keyboard. *)
Inductive KBDState := OPEN | LOCKED | DISABLED.

#[global] Instance KBDState_eq_dec : EqDecision KBDState.
Proof. solve_decision. Defined.

(** Exceptions the daemon throws or catches. *)
Inductive Exn :=
| KeyboardError
| SocketError
| SystemError (what : string)
| CSVError (what : string).

(** syslog priorities used by the daemon. *)
Inductive Priority := LOG_INFO | LOG_WARNING | LOG_ERR | LOG_CRIT.

(** One constructor per syslog call site, with its arguments. *)
Inductive LogMsg :=
| MsgRemovingKeys (p : string)
| MsgLoadedKeys (p : string)
| MsgCsvParseError (rel_path what : string)
| MsgUnableToLoad (rel_path what : string)
| MsgInvalidPermissions (p perm_str : string)
| MsgKbdFileChange (p : string)
| MsgHotplugEvent (p : string)
| MsgNotCharDevice (p : string)
| MsgNoPermissions (p : string)
| MsgPluggedIn (k : nat)
| MsgReadError (k : nat)
| MsgUnlocking (k : nat)
| MsgUnableToUnlock (k : nat)
| MsgReconnecting
| MsgUnableToLock (k : nat).

(** Calls to the collaborators of the daemon, in the order they are made.
    A keyboard is named by the address of its [Keyboard] object. *)
Inductive Call :=
| Syslog (pr : Priority) (m : LogMsg)
| Cout (s : string)
| UdevEmit (e : input_event)
| UdevUpAll
| UdevFlush
| ComSend (a : KBDAction)
| ComRecv
| ComRecon
| KbdGet (k : nat)
| KbdLock (k : nat)
| KbdUnlock (k : nat)
| KbdDisable (k : nat)
| KbdReset (k : nat) (p : string)
| FswAdd (p : string)
| Usleep (us : Z)
| StatCall (p : string).

(** The members of [KBDDaemon] that the modelled methods touch.
    [keyboards] is the heap of [Keyboard] objects (address to state);
    [available_kbds] and [pulled_kbds] hold addresses, as the vectors of
    [Keyboard*] do.  [kbd] is the local [Keyboard *kbd] of [run], which is
    declared outside the loop and read by its catch block.  [out] is the
    trace of calls made so far. *)
Record KBDDaemon := mkDaemon {
  keyboards : gmap nat KBDState;
  available_kbds : list nat;
  pulled_kbds : list nat;
  key_sources : gmap string (list Z);
  passthrough_keys : gset Z;
  kbd : option nat;
  out : list Call
}.

Definition set_keyboards (f : gmap nat KBDState → gmap nat KBDState) (d : KBDDaemon) :=
  mkDaemon (f (keyboards d)) (available_kbds d) (pulled_kbds d)
           (key_sources d) (passthrough_keys d) (kbd d) (out d).

Definition set_available_kbds (f : list nat → list nat) (d : KBDDaemon) :=
  mkDaemon (keyboards d) (f (available_kbds d)) (pulled_kbds d)
           (key_sources d) (passthrough_keys d) (kbd d) (out d).

Definition set_pulled_kbds (f : list nat → list nat) (d : KBDDaemon) :=
  mkDaemon (keyboards d) (available_kbds d) (f (pulled_kbds d))
           (key_sources d) (passthrough_keys d) (kbd d) (out d).

Definition set_key_sources (f : gmap string (list Z) → gmap string (list Z)) (d : KBDDaemon) :=
  mkDaemon (keyboards d) (available_kbds d) (pulled_kbds d)
           (f (key_sources d)) (passthrough_keys d) (kbd d) (out d).

Definition set_passthrough_keys (f : gset Z → gset Z) (d : KBDDaemon) :=
  mkDaemon (keyboards d) (available_kbds d) (pulled_kbds d)
           (key_sources d) (f (passthrough_keys d)) (kbd d) (out d).

Definition set_kbd (k : option nat) (d : KBDDaemon) :=
  mkDaemon (keyboards d) (available_kbds d) (pulled_kbds d)
           (key_sources d) (passthrough_keys d) k (out d).

Definition set_out (f : list Call → list Call) (d : KBDDaemon) :=
  mkDaemon (keyboards d) (available_kbds d) (pulled_kbds d)
           (key_sources d) (passthrough_keys d) (kbd d) (f (out d)).

(** ** The monad: state, exceptions, undefined behaviour *)

(** Result of running a piece of the daemon: it returns, it throws, it
    has undefined behaviour (a dangling [Keyboard*], an index out of
    range, [erase(end())]), or it is still blocked in a call whose answer
    the environment does not script. *)
Inductive Res (A : Type) :=
| Ok (a : A)
| Throw (e : Exn)
| Undef
| Blocked.

Arguments Ok {A} a.
Arguments Throw {A} e.
Arguments Undef {A}.
Arguments Blocked {A}.

Definition M (A : Type) : Type := KBDDaemon → Res A * KBDDaemon.

Definition ret {A} (a : A) : M A := λ d, (Ok a, d).

Definition bind {A B} (m : M A) (k : A → M B) : M B :=
  λ d, match m d with
       | (Ok a, d') => k a d'
       | (Throw e, d') => (Throw e, d')
       | (Undef, d') => (Undef, d')
       | (Blocked, d') => (Blocked, d')
       end.

Definition throw {A} (e : Exn) : M A := λ d, (Throw e, d).

Definition undefined {A} : M A := λ d, (Undef, d).

Definition blocked {A} : M A := λ d, (Blocked, d).

Definition get : M KBDDaemon := λ d, (Ok d, d).

Definition modify (f : KBDDaemon → KBDDaemon) : M unit := λ d, (Ok tt, f d).

(** [try { m } catch (...) { h }]: [h e] is [Some handler] for the
    exceptions a catch clause matches and [None] for the others, which
    propagate.  Mutations made before the throw stay. *)
Definition try_catch {A} (m : M A) (h : Exn → option (M A)) : M A :=
  λ d, match m d with
       | (Throw e, d') =>
           match h e with
           | Some handler => handler d'
           | None => (Throw e, d')
           end
       | r => r
       end.

(** A call to a collaborator: recorded in the trace. *)
Definition call (c : Call) : M unit := modify (set_out (λ t, t ++ [c])).

Definition syslog (pr : Priority) (m : LogMsg) : M unit := call (Syslog pr m).

Declare Scope daemon_scope.
Delimit Scope daemon_scope with daemon.
Notation "x <- m ;; k" := (bind m (λ x, k))
  (at level 100, m at next level, k at level 200, right associativity) : daemon_scope.
Notation "m ;; k" := (bind m (λ _, k))
  (at level 100, k at level 200, right associativity) : daemon_scope.
Local Open Scope daemon_scope.

(** A range-for loop whose body has effects. *)
Fixpoint for_each {A} (l : list A) (body : A → M unit) : M unit :=
  match l with
  | [] => ret tt
  | x :: l' => body x ;; for_each l' body
  end.

(** ** std::stoi *)

Module Stoi.

Definition INT_MAX : Z := 2147483647.
Definition INT_MIN : Z := -2147483648.

Definition isspace (c : ascii) : bool :=
  let n := nat_of_ascii c in
  ((n =? 32) || ((9 <=? n) && (n <=? 13)))%nat.

Definition digit (c : ascii) : option Z :=
  let n := Z.of_nat (nat_of_ascii c) in
  if (48 <=? n) && (n <=? 57) then Some (n - 48) else None.

Fixpoint skip_spaces (s : string) : string :=
  match s with
  | String c r => if isspace c then skip_spaces r else s
  | EmptyString => s
  end.

(** Longest prefix of decimal digits; [None] when there is no digit. *)
Fixpoint digits (s : string) (acc : option Z) : option Z :=
  match s with
  | String c r =>
      match digit c with
      | Some v => digits r (Some (10 * default 0 acc + v))
      | None => acc
      end
  | EmptyString => acc
  end.

(** [std::stoi(s)] in base 10: leading white space is skipped, one sign
    is accepted, the longest run of digits is converted and what follows
    it is ignored.  [None] stands for the two exceptions it throws,
    [std::invalid_argument] (no digit) and [std::out_of_range]. *)
Definition stoi (s : string) : option Z :=
  let s1 := skip_spaces s in
  let '(neg, s2) :=
    match s1 with
    | String "-"%char r => (true, r)
    | String "+"%char r => (false, r)
    | _ => (false, s1)
    end in
  match digits s2 None with
  | None => None
  | Some n =>
      let v := if (neg : bool) then - n else n in
      if (INT_MIN <=? v) && (v <=? INT_MAX) then Some v else None
  end.

End Stoi.

(** ** Passthrough registry: [key_sources] and [passthrough_keys] *)

(** What the system answers while one file is loaded:
    [realpath(rel_path, nullptr)] ([None] is the null pointer), and the
    outcome of [CSV csv(path); csv.getColCells("key_code")], which is the
    cells of the column or the exception one of the two throws.  For a
    file that is turned down, the outcomes of the two helpers of
    [Permissions.hpp] that the daemon calls, whose bodies are not among
    the sources: [getgroup(gid)], the name of the group it finds or the
    exception it throws, and [fmtPermissions(stbuf)], the string it
    returns or the exception it throws. *)
Record FileSystem := mkFS {
  realpath : string → option string;
  csv_key_code : string → Exn + list string;
  getgroup : Z → Exn + string;
  fmtPermissions : stat → Exn + string
}.

(** [for (int code : *vec) passthrough_keys.erase(code);] *)
Definition erase_codes (vec : list Z) (keys : gset Z) : gset Z :=
  foldl (λ ks c, ks ∖ {[c]}) keys vec.

(** [for (int code : *vec) passthrough_keys.insert(code);] *)
Definition insert_codes (vec : list Z) (keys : gset Z) : gset Z :=
  foldl (λ ks c, {[c]} ∪ ks) keys vec.

(** [for (const auto &[_, vec] : key_sources) for (int code : *vec) ...insert(code)] *)
Definition readd_keys (sources : gmap string (list Z)) (keys : gset Z) : gset Z :=
  map_fold (λ _ vec ks, insert_codes vec ks) keys sources.

Definition unloadPassthrough (p : string) : M unit :=
  d <- get ;;
  match key_sources d !! p with
  | Some vec =>
      modify (set_passthrough_keys (erase_codes vec)) ;;
      modify (set_key_sources (delete p)) ;;
      syslog LOG_INFO (MsgRemovingKeys p) ;;
      d' <- get ;;
      modify (set_passthrough_keys (readd_keys (key_sources d')))
  | None => ret tt
  end.

Arguments unloadPassthrough : simpl never.

(** The loop over the cells of the column: [stoi] failures are skipped,
    negative numbers are dropped, the others are inserted in
    [passthrough_keys] and pushed on [cells_i]. *)
Fixpoint load_cells (cells : list string) (cells_i : list Z) : M (list Z) :=
  match cells with
  | [] => ret cells_i
  | code_s :: rest =>
      match Stoi.stoi code_s with
      | None => load_cells rest cells_i
      | Some i =>
          if 0 <=? i then
            modify (set_passthrough_keys (λ ks, {[i]} ∪ ks)) ;;
            load_cells rest (cells_i ++ [i])
          else load_cells rest cells_i
      end
  end.

Definition loadPassthrough (fs : FileSystem) (rel_path : string) : M unit :=
  try_catch
    (p <- match realpath fs rel_path with
          | None => throw (SystemError
                      ("Error in realpath() unable to get path for: " ++ rel_path))
          | Some rpath => ret rpath
          end ;;
     unloadPassthrough p ;;
     cells <- match csv_key_code fs p with
              | inl e => throw e
              | inr cells => ret cells
              end ;;
     cells_i <- load_cells cells [] ;;
     modify (set_key_sources (<[p := cells_i]>)) ;;
     call (FswAdd p) ;;
     syslog LOG_INFO (MsgLoadedKeys p))
    (λ e, match e with
          | CSVError what => Some (syslog LOG_ERR (MsgCsvParseError rel_path what))
          | SystemError what => Some (syslog LOG_ERR (MsgUnableToLoad rel_path what))
          | _ => None
          end).

Arguments loadPassthrough : simpl never.

(** [S_IRWXU | S_IRWXG | S_IRWXO], octal 0777. *)
Definition S_IRWXUGO : Z := 511.

(** Octal 0644. *)
Definition MODE_0644 : Z := 420.

(** [loadPassthrough(FSEvent *ev)]; [uid] is the answer of [getuid()].
    The two helpers are called outside any try block: what they throw
    leaves the function. *)
Definition loadPassthroughEv (fs : FileSystem) (uid : Z) (e : FSEvent) : M unit :=
  let perm := Z.land (st_mode (stbuf e)) S_IRWXUGO in
  if (perm =? MODE_0644) && (st_uid (stbuf e) =? uid) then
    loadPassthrough fs (path e)
  else
    _ <- match getgroup fs (st_uid (stbuf e)) with
         | inl x => throw x
         | inr grp => ret grp
         end ;;
    perm_str <- match fmtPermissions fs (stbuf e) with
                | inl x => throw x
                | inr str => ret str
                end ;;
    syslog LOG_ERR (MsgInvalidPermissions (path e) perm_str).

(** Modelled from the spec: the bodies of [getgroup] and
    [fmtPermissions] ([Permissions.cpp]) are not among the sources.  The
    spec has a file that fails the permission test logged and ignored,
    "not an error thrown to the caller": for such a file both helpers
    return, [fmtPermissions] with the string [perm_str]. *)
Definition helpers_return (fs : FileSystem) (e : FSEvent) (perm_str : string)
    : Prop :=
  (∃ grp, getgroup fs (st_uid (stbuf e)) = inr grp)
  ∧ fmtPermissions fs (stbuf e) = inr perm_str.

(** The exception that leaves [loadPassthrough(FSEvent *ev)] when one of the
    helpers throws: that of [getgroup], which is called first, else that
    of [fmtPermissions]. *)
Definition helper_throws (fs : FileSystem) (e : FSEvent) (x : Exn) : Prop :=
  getgroup fs (st_uid (stbuf e)) = inl x
  ∨ ((∃ grp, getgroup fs (st_uid (stbuf e)) = inr grp)
     ∧ fmtPermissions fs (stbuf e) = inl x).

Definition IN_MODIFY : Z := 2.
Definition IN_CREATE : Z := 256.
Definition IN_DELETE_SELF : Z := 1024.

(** The callback given to [keys_fsw.begin] in [run]. *)
Definition keys_fsw_callback (fs : FileSystem) (uid : Z) (e : FSEvent) : M bool :=
  syslog LOG_INFO (MsgKbdFileChange (path e)) ;;
  (if negb (Z.land (mask e) IN_DELETE_SELF =? 0) then
     unloadPassthrough (path e)
   else if negb (Z.land (mask e) (Z.lor IN_CREATE IN_MODIFY) =? 0) then
     loadPassthroughEv fs uid e
   else ret tt) ;;
  ret true.

(** The registry of a daemon that has loaded nothing. *)
Definition new_daemon : KBDDaemon :=
  mkDaemon ∅ [] [] ∅ ∅ None [].

(** Operations on the registry, each with the filesystem it runs against. *)
Inductive RegistryOp :=
| OpLoad (fs : FileSystem) (rel_path : string)
| OpLoadEv (fs : FileSystem) (uid : Z) (e : FSEvent)
| OpUnload (p : string)
| OpFsEvent (fs : FileSystem) (uid : Z) (e : FSEvent).

Definition run_op (op : RegistryOp) (d : KBDDaemon) : KBDDaemon :=
  match op with
  | OpLoad fs rel_path => (loadPassthrough fs rel_path d).2
  | OpLoadEv fs uid e => (loadPassthroughEv fs uid e d).2
  | OpUnload p => (unloadPassthrough p d).2
  | OpFsEvent fs uid e => (keys_fsw_callback fs uid e d).2
  end.

Definition run_ops (ops : list RegistryOp) (d : KBDDaemon) : KBDDaemon :=
  foldl (λ d op, run_op op d) d ops.

(** The union of the code sets of all live sources. *)
Definition sources_union (sources : gmap string (list Z)) : gset Z :=
  ⋃ ((λ kv, list_to_set kv.2) <$> map_to_list sources).

(** The invariant of the registry: the merged set is the union of the
    code sets of the live sources. *)
Definition registry_inv (d : KBDDaemon) : Prop :=
  passthrough_keys d = sources_union (key_sources d).

(** The codes that [load_cells] accepts, in order. *)
Definition accepted_codes (cells : list string) : list Z :=
  omap (λ code_s, match Stoi.stoi code_s with
                  | Some i => if 0 <=? i then Some i else None
                  | None => None
                  end) cells.

Ltac run_setters :=
  cbv [set_keyboards set_available_kbds set_pulled_kbds set_key_sources
       set_passthrough_keys set_kbd set_out];
  cbn [keyboards available_kbds pulled_kbds key_sources passthrough_keys kbd out
       fst snd].

Ltac run_monad :=
  cbv [bind ret get modify throw undefined blocked try_catch call syslog];
  run_setters.

(** Scenario files: [/keys/a.csv] holds the codes 10 and 11, every other
    file 11 and 12; every path is already canonical.  The files that are
    turned down in the scenarios are world-writable files of the daemon
    user, and the helpers answer for them. *)
Definition scenario_fs : FileSystem :=
  mkFS Some
       (λ p, if String.eqb p "/keys/a.csv" then inr ["10"; "11"]
             else inr ["11"; "12"])
       (λ _, inr "hawck-input")
       (λ _, inr "rw-rw-rw- hawck-input:hawck-input").

(** The same directory once the files no longer parse. *)
Definition broken_fs : FileSystem :=
  mkFS Some (λ _, inl (CSVError "unterminated quote"))
       (λ _, inr "hawck-input")
       (λ _, inr "rw-rw-rw- hawck-input:hawck-input").

(** The same directory on a system where no group has the number of the
    daemon user: [getgroup] throws. *)
Definition no_group_fs : FileSystem :=
  mkFS Some
       (λ p, if String.eqb p "/keys/a.csv" then inr ["10"; "11"]
             else inr ["11"; "12"])
       (λ _, inl (SystemError "no such group"))
       (λ _, inr "rw-rw-rw- hawck-input:hawck-input").

(** A directory in which nothing resolves. *)
Definition empty_fs : FileSystem :=
  mkFS (λ _, None) (λ _, inl (CSVError ""))
       (λ _, inr "hawck-input")
       (λ _, inr "rw-rw-rw- hawck-input:hawck-input").

Definition scenario_ops : list RegistryOp :=
  [OpLoad scenario_fs "/keys/a.csv"; OpLoad scenario_fs "/keys/b.csv"].


Definition a_csv_0666 : FSEvent :=
  mkFSEvent "/keys/a.csv" IN_MODIFY (mkStat 33206 973 973).

(** ** Keyboards *)

(** Modelled from the spec: [Keyboard.cpp] is not among the sources; the
    daemon only calls its methods.  A keyboard is OPEN, LOCKED or
    DISABLED; [lock] moves OPEN to LOCKED and is a no-op when LOCKED;
    [unlock] moves to OPEN; a read error moves to DISABLED; [reset] opens
    the new node; a DISABLED keyboard has its descriptor closed, so
    [lock], [unlock] and [get] fail on it.  Whether the kernel grants an
    operation is the [ok] argument.  A failure is a [KeyboardError].
    Using an address that holds no keyboard is undefined. *)
Definition kbd_getState (k : nat) : M KBDState :=
  d <- get ;;
  match keyboards d !! k with
  | Some st => ret st
  | None => undefined
  end.

Definition kbd_setState (k : nat) (st : KBDState) : M unit :=
  modify (set_keyboards (<[k := st]>)).

Definition kbd_lock (ok : bool) (k : nat) : M unit :=
  call (KbdLock k) ;;
  st <- kbd_getState k ;;
  match st with
  | LOCKED => ret tt
  | OPEN => if ok then kbd_setState k LOCKED else throw KeyboardError
  | DISABLED => throw KeyboardError
  end.

Definition kbd_unlock (ok : bool) (k : nat) : M unit :=
  call (KbdUnlock k) ;;
  st <- kbd_getState k ;;
  match st with
  | DISABLED => throw KeyboardError
  | _ => if ok then kbd_setState k OPEN else throw KeyboardError
  end.

Definition kbd_disable (k : nat) : M unit :=
  call (KbdDisable k) ;;
  _ <- kbd_getState k ;;
  kbd_setState k DISABLED.

Definition kbd_reset (ok : bool) (k : nat) (p : string) : M unit :=
  call (KbdReset k p) ;;
  _ <- kbd_getState k ;;
  if ok then kbd_setState k OPEN else throw KeyboardError.

Definition kbd_get (r : option input_event) (k : nat) : M input_event :=
  call (KbdGet k) ;;
  st <- kbd_getState k ;;
  match st, r with
  | DISABLED, _ | _, None => kbd_setState k DISABLED ;; throw KeyboardError
  | _, Some e => ret e
  end.

(** ** Hotplug callback *)

Definition FSW_MAX_WAIT_PERMISSIONS_US : Z := 5 * 1000000.

(** [S_IRWXG], octal 070. *)
Definition S_IRWXG : Z := 56.

(** [S_ISCHR(m)]: [(m & S_IFMT) == S_IFCHR], octal 0170000 and 0020000. *)
Definition S_ISCHR (m : Z) : bool := Z.land m 61440 =? 8192.

(** What the system answers during one hotplug event: the n-th [stat] of
    the node ([None] is -1), [kbd->isMe(path)], and whether [reset] and
    [lock] succeed on a keyboard. *)
Record HotplugEnv := mkHotplugEnv {
  stat_ret : nat → option stat;
  isMe_ret : nat → bool;
  reset_ok : nat → bool;
  hotplug_lock_ok : nat → bool
}.

(** The conjunct of the loop condition that reads the permissions:
    [!(4 & grp_perm && grp_perm & 2)] with [grp_perm = st_mode & S_IRWXG]. *)
Definition group_rw_missing (st : stat) : bool :=
  let grp_perm := Z.land (st_mode st) S_IRWXG in
  negb (negb (Z.land 4 grp_perm =? 0) && negb (Z.land grp_perm 2 =? 0)).

(** The condition of the do-while loop:
    [ret != -1 && !(4 & grp_perm && grp_perm & 2) && stbuf.st_gid != input_gid]. *)
Definition keep_waiting (input_gid : Z) (r : option stat) : bool :=
  match r with
  | Some st => group_rw_missing st && negb (st_gid st =? input_gid)
  | None => false
  end.

(** The do-while loop of the callback.  [n] counts the [stat] calls made
    so far in this callback and [wait_time] is the local of that name.
    The result is [None] when the callback returns from inside the loop
    and [Some n'] when the loop is left, after [n'] calls of [stat]. *)
Fixpoint wait_permissions (fuel : nat) (env : HotplugEnv) (input_gid : Z)
    (p : string) (n : nat) (wait_time : Z) : M (option nat) :=
  match fuel with
  | O => blocked
  | S fuel' =>
      let wait_inc_us := 100 in
      call (Usleep wait_inc_us) ;;
      call (StatCall p) ;;
      let r := stat_ret env n in
      if match r with Some st => negb (S_ISCHR (st_mode st)) | None => false end then
        syslog LOG_WARNING (MsgNotCharDevice p) ;;
        ret None
      else
        let wait_time := wait_time + wait_inc_us in
        if wait_time >? FSW_MAX_WAIT_PERMISSIONS_US then
          syslog LOG_ERR (MsgNoPermissions p) ;;
          ret None
        else if keep_waiting input_gid r then
          wait_permissions fuel' env input_gid p (S n) wait_time
        else ret (Some (S n))
  end.

(** The loop runs at most 50001 times: [wait_time] grows by 100 from 0
    and the callback returns once it exceeds 5000000. *)
Definition MAX_POLLS : nat := Z.to_nat 50001.

(** The for loop over [pulled_kbds]; [i] is the position of the iterator. *)
Fixpoint scan_pulled (env : HotplugEnv) (input_gid : Z) (p : string)
    (l : list nat) (i : nat) (n : nat) : M bool :=
  match l with
  | [] => ret true
  | k :: rest =>
      r <- wait_permissions MAX_POLLS env input_gid p n 0 ;;
      match r with
      | None => ret true
      | Some n' =>
          if isMe_ret env k then
            syslog LOG_INFO (MsgPluggedIn k) ;;
            kbd_reset (reset_ok env k) k p ;;
            kbd_lock (hotplug_lock_ok env k) k ;;
            modify (set_available_kbds (λ l, l ++ [k])) ;;
            modify (set_pulled_kbds (delete i)) ;;
            ret true
          else scan_pulled env input_gid p rest (S i) n'
      end
  end.

(** The callback given to [input_fsw.begin] in [run]. *)
Definition input_fsw_callback (env : HotplugEnv) (input_gid : Z) (e : FSEvent)
    : M bool :=
  if String.eqb (path e) "/dev/input" then ret true
  else
    syslog LOG_INFO (MsgHotplugEvent (path e)) ;;
    d <- get ;;
    scan_pulled env input_gid (path e) (pulled_kbds d) 0 0.

(** Hotplug scenario: keyboard 7 was pulled and its node reappears as a
    character device of mode 0600 owned by root with group [input]
    (gid 104): the group has neither read nor write permission. *)
Definition node_root_input_0600 : stat := mkStat 8576 0 104.

(** The same node owned by root:root with mode 0660. *)
Definition node_root_root_0660 : stat := mkStat 8624 0 0.

Definition pulled_daemon : KBDDaemon :=
  mkDaemon {[ 7%nat := DISABLED ]} [] [7%nat] ∅ ∅ None [].

Definition hotplug_env (st : option stat) : HotplugEnv :=
  mkHotplugEnv (λ _, st) (λ _, true) (λ _, true) (λ _, true).

Definition event9 : FSEvent :=
  mkFSEvent "/dev/input/event9" IN_CREATE node_root_input_0600.

(** ** Event loop *)

(** What the system answers during one turn of the loop of [run]:
    [kbdMultiplex(kbds, 64)] ([None] is -1), [kbd->get] ([None] is a
    [KeyboardError]), whether the kernel grants [lock] and [unlock] on a
    keyboard, whether [kbd_com.send] succeeds, and the outcomes of the
    successive [kbd_com.recv] calls ([None] is a [SocketError]). *)
Record LoopEnv := mkLoopEnv {
  kbdMultiplex_ret : option nat;
  get_ret : option input_event;
  lock_ok : nat → bool;
  unlock_ok : nat → bool;
  send_ok : bool;
  recv_rets : list (option KBDAction)
}.

Definition com_send (ok : bool) (action : KBDAction) : M unit :=
  call (ComSend action) ;;
  if ok then ret tt else throw SocketError.

(** [for (;; count++) { kbd_com.recv(&action, timeout); if (action.done)
    break; udev.emit(&action.ev); }].  When the scripted answers run out
    the loop is still inside [recv]. *)
Fixpoint recv_loop (rets : list (option KBDAction)) (count : nat) : M nat :=
  match rets with
  | [] => call ComRecv ;; blocked
  | r :: rets' =>
      call ComRecv ;;
      match r with
      | None => throw SocketError
      | Some action =>
          if negb (done action =? 0) then ret count
          else call (UdevEmit (ev action)) ;; recv_loop rets' (S count)
      end
  end.

(** The first try block of the loop.  The result is [Some e] when
    [had_key] is set, [e] being [action.ev]. *)
Definition read_key (env : LoopEnv) : M (option input_event) :=
  d <- get ;;
  let kbds := available_kbds d in
  match kbdMultiplex_ret env with
  | None => ret None
  | Some idx =>
      match kbds !! idx with
      | None => undefined
      | Some k =>
          modify (set_kbd (Some k)) ;;
          e <- kbd_get (get_ret env) k ;;
          st <- kbd_getState k ;;
          match st with
          | LOCKED => ret (Some e)
          | OPEN => kbd_lock (lock_ok env k) k ;; ret None
          | DISABLED => ret None
          end
      end
  end.

(** Its catch block, for [KeyboardError]. *)
Definition on_keyboard_error : M (option input_event) :=
  d <- get ;;
  match kbd d with
  | None => undefined
  | Some k =>
      syslog LOG_ERR (MsgReadError k) ;;
      kbd_disable k ;;
      d <- get ;;
      match list_find (λ x, x = k) (available_kbds d) with
      | Some (i, _) => modify (set_available_kbds (delete i))
      | None => undefined
      end ;;
      modify (set_pulled_kbds (λ l, l ++ [k])) ;;
      ret None
  end.

(** The second try block: the exchange with the macro daemon. *)
Definition peer_exchange (env : LoopEnv) (action : KBDAction) : M unit :=
  com_send (send_ok env) action ;;
  count <- recv_loop (recv_rets env) 0 ;;
  call UdevFlush ;;
  if (count =? 0)%nat then call (Cout "MacroD swallowed event") else ret tt.

(** Bodies of the two loops over [available_kbds] in the catch block. *)
Definition unlock_one (env : LoopEnv) (k : nat) : M unit :=
  try_catch
    (syslog LOG_INFO (MsgUnlocking k) ;;
     kbd_unlock (unlock_ok env k) k)
    (λ x, match x with
          | KeyboardError =>
              Some (syslog LOG_ERR (MsgUnableToUnlock k) ;; kbd_disable k)
          | _ => None
          end).

Definition lock_one (env : LoopEnv) (k : nat) : M unit :=
  try_catch
    (kbd_lock (lock_ok env k) k)
    (λ x, match x with
          | KeyboardError => Some (syslog LOG_ERR (MsgUnableToLock k))
          | _ => None
          end).

(** Its catch block, for [SocketError]. *)
Definition on_socket_error (env : LoopEnv) (orig_ev : input_event) : M unit :=
  call (Cout "Resetting connection ...") ;;
  call (UdevEmit orig_ev) ;;
  call UdevUpAll ;;
  call UdevFlush ;;
  call UdevUpAll ;;
  call UdevFlush ;;
  d <- get ;;
  for_each (available_kbds d) (unlock_one env) ;;
  syslog LOG_CRIT MsgReconnecting ;;
  call ComRecon ;;
  d <- get ;;
  for_each (available_kbds d) (lock_one env).

(** One turn of [for (;;)] in [run]. *)
Definition run_iteration (env : LoopEnv) : M unit :=
  key <- try_catch (read_key env)
           (λ x, match x with
                 | KeyboardError => Some on_keyboard_error
                 | _ => None
                 end) ;;
  match key with
  | None => ret tt
  | Some e =>
      d <- get ;;
      let is_passthrough := bool_decide (code e ∈ passthrough_keys d) in
      if is_passthrough then
        let orig_ev := e in
        try_catch (peer_exchange env (mkAction 0 e))
          (λ x, match x with
                | SocketError => Some (on_socket_error env orig_ev)
                | _ => None
                end)
      else
        call (UdevEmit e) ;;
        call UdevFlush
  end.

(** The loop of [run], for as many turns as there are scripted
    environments. *)
Definition run_loop (envs : list LoopEnv) : M unit :=
  for_each envs run_iteration.

(** Projections of a trace. *)
Definition emitted (t : list Call) : list input_event :=
  omap (λ c, match c with UdevEmit e => Some e | _ => None end) t.

Definition unlocked (t : list Call) : list nat :=
  omap (λ c, match c with KbdUnlock k => Some k | _ => None end) t.

Definition locked (t : list Call) : list nat :=
  omap (λ c, match c with KbdLock k => Some k | _ => None end) t.

Definition disabled (t : list Call) : list nat :=
  omap (λ c, match c with KbdDisable k => Some k | _ => None end) t.

Definition is_peer_call (c : Call) : bool :=
  match c with
  | ComSend _ | ComRecv | ComRecon => true
  | _ => false
  end.

Definition peer_calls (t : list Call) : list Call := List.filter is_peer_call t.

(** The calls made while the replies of the macro daemon are received:
    one [recv] and one [emit] per reply. *)
Definition reply_calls (replies : list KBDAction) : list Call :=
  List.flat_map (λ a, [ComRecv; UdevEmit (ev a)]) replies.

(** Event-loop scenario: one locked keyboard at address 1, and a
    registry holding code 30 from [/keys/a.csv]. *)
Definition typing_daemon : KBDDaemon :=
  mkDaemon {[ 1%nat := LOCKED ]} [1%nat] [] {[ "/keys/a.csv" := [30] ]} {[ 30 ]}
           None [].

(** [(EV_KEY, c, 1)]: key [c] pressed. *)
Definition key_press (c : Z) : input_event := mkEvent 0 0 1 c 1.

(** [(EV_SYN, SYN_REPORT, 0)]. *)
Definition syn_report : input_event := mkEvent 0 0 0 0 0.

(** A turn in which keyboard 0 of the snapshot delivers [r], every lock
    and unlock is granted unless [relock] says otherwise, and the peer
    answers [rets]. *)
Definition turn (r : option input_event) (sent relock : bool)
    (rets : list (option KBDAction)) : LoopEnv :=
  mkLoopEnv (Some 0%nat) r (λ _, relock) (λ _, true) sent rets.

(** Outcome of the two recovery loops on one keyboard, by its state
    before the loop and the answers of the kernel. *)
Definition unlock_fails (env : LoopEnv) (st : KBDState) (k : nat) : bool :=
  match st with
  | DISABLED => true
  | _ => negb (unlock_ok env k)
  end.

Definition after_unlock (env : LoopEnv) (st : KBDState) (k : nat) : KBDState :=
  if unlock_fails env st k then DISABLED else OPEN.

Definition unlock_calls (env : LoopEnv) (st : KBDState) (k : nat) : list Call :=
  [Syslog LOG_INFO (MsgUnlocking k); KbdUnlock k]
  ++ (if unlock_fails env st k
      then [Syslog LOG_ERR (MsgUnableToUnlock k); KbdDisable k] else []).

Definition lock_fails (env : LoopEnv) (st : KBDState) (k : nat) : bool :=
  match st with
  | LOCKED => false
  | OPEN => negb (lock_ok env k)
  | DISABLED => true
  end.

Definition after_lock (env : LoopEnv) (st : KBDState) (k : nat) : KBDState :=
  match st with
  | OPEN => if lock_ok env k then LOCKED else OPEN
  | _ => st
  end.

Definition lock_calls (env : LoopEnv) (st : KBDState) (k : nat) : list Call :=
  [KbdLock k]
  ++ (if lock_fails env st k then [Syslog LOG_ERR (MsgUnableToLock k)] else []).

(** The calls of a loop over keyboards whose body makes the calls
    [calls_of st k] on a keyboard in state [st] and leaves it in state
    [after st k]. *)
Fixpoint loop_calls (calls_of : KBDState → nat → list Call)
    (after : KBDState → nat → KBDState) (l : list nat)
    (h : gmap nat KBDState) : list Call :=
  match l with
  | [] => []
  | k :: l' =>
      match h !! k with
      | Some st => calls_of st k ++ loop_calls calls_of after l' (<[k := after st k]> h)
      | None => []
      end
  end.

(** The daemon apart from its keyboards and its trace. *)
Definition same_lists (d d' : KBDDaemon) : Prop :=
  available_kbds d' = available_kbds d
  ∧ pulled_kbds d' = pulled_kbds d
  ∧ key_sources d' = key_sources d
  ∧ passthrough_keys d' = passthrough_keys d.

(** The peer exchange ends in a [SocketError]: [send] fails, or [recv]
    fails after [replies] were received. *)
Definition exchange_fails (env : LoopEnv) (replies : list KBDAction) : Prop :=
  (send_ok env = false ∧ replies = [])
  ∨ (send_ok env = true
     ∧ Forall (λ a, done a = 0) replies
     ∧ ∃ rest, recv_rets env = (Some <$> replies) ++ None :: rest).

(** The calls of a failed exchange, up to the call that throws. *)
Definition failed_exchange_calls (env : LoopEnv) (e : input_event)
    (replies : list KBDAction) : list Call :=
  ComSend (mkAction 0 e)
  :: (if send_ok env then reply_calls replies ++ [ComRecv] else []).

(** The calls of the two loops of the catch block, keyboard by keyboard
    in the order of [available_kbds]: the unlock loop sees a keyboard in
    the state the daemon holds for it, the lock loop in the state the
    unlock loop left it in. *)
Definition recovery_unlock_calls (env : LoopEnv) (d : KBDDaemon) : list Call :=
  List.flat_map
    (λ k, from_option (λ st, unlock_calls env st k) [] (keyboards d !! k))
    (available_kbds d).

Definition recovery_lock_calls (env : LoopEnv) (d : KBDDaemon) : list Call :=
  List.flat_map
    (λ k, from_option (λ st, lock_calls env (after_unlock env st k) k) []
            (keyboards d !! k))
    (available_kbds d).

(** The only calls the unlock loop of the catch block makes. *)
Definition is_unlock_loop_call (c : Call) : Prop :=
  ∃ x, c = Syslog LOG_INFO (MsgUnlocking x) ∨ c = KbdUnlock x
       ∨ c = Syslog LOG_ERR (MsgUnableToUnlock x) ∨ c = KbdDisable x.

(** The only calls its lock loop makes. *)
Definition is_lock_loop_call (c : Call) : Prop :=
  ∃ x, c = KbdLock x ∨ c = Syslog LOG_ERR (MsgUnableToLock x).

Ltac run_kbd :=
  cbv [kbd_get kbd_getState kbd_setState kbd_lock kbd_unlock kbd_disable kbd_reset];
  run_monad.

(** ** Further code of [KBDDaemon.cpp] *)

(** [initPassthrough]; [addFrom] is the outcome of
    [keys_fsw.addFrom(data_dirs["keys"])], whose body is not among the
    sources: the vector of files it returns or the exception it throws.
    The call is outside any try block. *)
Definition initPassthrough (fs : FileSystem) (uid : Z)
    (addFrom : Exn + list FSEvent) : M unit :=
  files <- match addFrom with
           | inl x => throw x
           | inr files => ret files
           end ;;
  for_each files (loadPassthroughEv fs uid).

(** The test that [loadPassthrough] makes on an [FSEvent], as a proposition. *)
Definition permitted (uid : Z) (e : FSEvent) : Prop :=
  Z.land (st_mode (stbuf e)) 511 = 420 ∧ st_uid (stbuf e) = uid.

(** Every code of every source is a non-negative [int]. *)
Definition codes_in_range (sources : gmap string (list Z)) : Prop :=
  ∀ p vec c, sources !! p = Some vec → c ∈ vec → 0 ≤ c ≤ Stoi.INT_MAX.

(** The CSV reader fails with [CSVError] or [SystemError] only. *)
Definition csv_errors_caught (fs : FileSystem) : Prop :=
  ∀ p e, csv_key_code fs p = inl e →
    (∃ what, e = CSVError what) ∨ (∃ what, e = SystemError what).

(** Files of the keys directory at start-up: [a.csv] and [b.csv] are
    well-formed, [c.csv] is world-writable. *)
Definition startup_files : list FSEvent :=
  [mkFSEvent "/keys/a.csv" IN_CREATE (mkStat 33188 973 973);
   mkFSEvent "/keys/b.csv" IN_CREATE (mkStat 33188 973 973);
   mkFSEvent "/keys/c.csv" IN_CREATE (mkStat 33206 973 973)].

(** For every file of [files] that fails the permission test, the two
    helpers that format its log record return. *)
Definition helpers_answer (fs : FileSystem) (uid : Z) (files : list FSEvent)
    : Prop :=
  ∀ e, e ∈ files → permitted uid e ∨ ∃ perm_str, helpers_return fs e perm_str.

(** File [e] passes the permission test, resolves to [p] and parses to
    [cells]. *)
Definition loaded_by (fs : FileSystem) (uid : Z) (e : FSEvent) (p : string)
    (cells : list string) : Prop :=
  permitted uid e ∧ realpath fs (path e) = Some p ∧ csv_key_code fs p = inr cells.

(** Every source holds what the CSV reader of [fs] gives for its path. *)
Definition sources_from (fs : FileSystem) (sources : gmap string (list Z)) : Prop :=
  ∀ p v, sources !! p = Some v →
    ∃ cells, csv_key_code fs p = inr cells ∧ v = accepted_codes cells.

(** [keeps R m]: the states before and after [m] are related by [R],
    however [m] ends. *)
Definition keeps {A} (R : KBDDaemon → KBDDaemon → Prop) (m : M A) : Prop :=
  ∀ d r d', m d = (r, d') → R d d'.

(** The registry is the same. *)
Definition same_registry (d d' : KBDDaemon) : Prop :=
  key_sources d' = key_sources d ∧ passthrough_keys d' = passthrough_keys d.

(** The keyboards and the two lists of keyboards are the same. *)
Definition same_keyboards (d d' : KBDDaemon) : Prop :=
  keyboards d' = keyboards d
  ∧ available_kbds d' = available_kbds d
  ∧ pulled_kbds d' = pulled_kbds d.

(** What a turn may call while the allow-list is [K]: a message is sent
    to the macro daemon only with [done] clear and a code of [K]. *)
Definition allowed_call (K : gset Z) (c : Call) : Prop :=
  match c with
  | ComSend a => done a = 0 ∧ code (ev a) ∈ K
  | _ => True
  end.

(** From a state whose allow-list is [K], the allow-list stays [K] and
    the calls added to the trace are allowed ones. *)
Definition sends_within (K : gset Z) (d d' : KBDDaemon) : Prop :=
  passthrough_keys d = K →
  passthrough_keys d' = K
  ∧ ∃ calls, out d' = out d ++ calls ∧ Forall (allowed_call K) calls.

(** What reaches the daemon from its keyboards and from [/dev/input]: a
    turn of the loop of [run], or a call of the hotplug callback. *)
Inductive InputEvent :=
| Turn (env : LoopEnv)
| Hotplug (env : HotplugEnv) (input_gid : Z) (e : FSEvent).

Definition handle_input (x : InputEvent) (d : KBDDaemon) : KBDDaemon :=
  match x with
  | Turn env => (run_iteration env d).2
  | Hotplug env input_gid e => (input_fsw_callback env input_gid e d).2
  end.

Definition handle_inputs (xs : list InputEvent) (d : KBDDaemon) : KBDDaemon :=
  foldl (λ d x, handle_input x d) d xs.

(** The calls the registry makes: syslog records and watches. *)
Definition is_registry_call (c : Call) : Prop :=
  match c with
  | Syslog _ _ | FswAdd _ => True
  | _ => False
  end.

(** The keyboards are untouched and the calls added are registry calls. *)
Definition registry_only (d d' : KBDDaemon) : Prop :=
  same_keyboards d d'
  ∧ ∃ calls, out d' = out d ++ calls ∧ Forall is_registry_call calls.

(** A turn on [typing_daemon] in which keyboard 1 delivers a press of
    key 30 and the macro daemon answers [done]. *)
Definition swallow_turn : LoopEnv :=
  turn (Some (key_press 30)) true true [Some (mkAction 1 syn_report)].

(** Modelled from the spec: [Keyboard::isDisabled] is declared in
    [Keyboard.hpp], which is not among the sources; it tells whether the
    state of the keyboard is DISABLED. *)
Definition kbd_isDisabled (k : nat) : M bool :=
  st <- kbd_getState k ;;
  ret (bool_decide (st = DISABLED)).

(** The body of the loop of [updateAvailableKBDs]. *)
Definition push_if_enabled (k : nat) : M unit :=
  dis <- kbd_isDisabled k ;;
  if (dis : bool) then ret tt
  else modify (set_available_kbds (λ l, l ++ [k])).

(** [updateAvailableKBDs]; [kbds] is the member vector of that name. *)
Definition updateAvailableKBDs (kbds : list nat) : M unit :=
  modify (set_available_kbds (λ _, [])) ;;
  for_each kbds push_if_enabled.

(** The lists of active and of pending keyboards share no keyboard, hold
    none twice, and hold addresses of live [Keyboard] objects only. *)
Definition lists_ok (d : KBDDaemon) : Prop :=
  NoDup (available_kbds d ++ pulled_kbds d)
  ∧ ∀ x, x ∈ available_kbds d ++ pulled_kbds d → is_Some (keyboards d !! x).

Definition lists_ok_step (d d' : KBDDaemon) : Prop := lists_ok d → lists_ok d'.

(** The two lists are the same and no keyboard object goes away. *)
Definition lists_kept (d d' : KBDDaemon) : Prop :=
  available_kbds d' = available_kbds d
  ∧ pulled_kbds d' = pulled_kbds d
  ∧ ∀ x, is_Some (keyboards d !! x) → is_Some (keyboards d' !! x).

(** Everything that reaches the daemon while it runs. *)
Inductive DaemonEvent :=
| FromInput (x : InputEvent)
| FromKeysDir (op : RegistryOp).

Definition handle (x : DaemonEvent) (d : KBDDaemon) : KBDDaemon :=
  match x with
  | FromInput x => handle_input x d
  | FromKeysDir op => run_op op d
  end.

Definition handle_all (xs : list DaemonEvent) (d : KBDDaemon) : KBDDaemon :=
  foldl (λ d x, handle x d) d xs.

(** Three keyboards, the second of them disabled. *)
Definition three_keyboards : KBDDaemon :=
  mkDaemon {[ 1%nat := OPEN; 2%nat := DISABLED; 3%nat := LOCKED ]}
           [2%nat] [] ∅ ∅ None [].

(** ** [Lua::LuaError] (LuaUtils.hpp) *)

Module LuaError.

(** The loop of [fmtError]: [s] is what is left of [expl] from index
    [i], and [start] is the offset of the pointer [start] from [ptr]. *)
Fixpoint scan (s : list ascii) (i start : nat) : nat :=
  match s with
  | [] => start
  | c :: r =>
      if Ascii.eqb c "/" then scan r (S i) (S i)
      else if Ascii.eqb c ":" then start
      else scan r (S i) start
  end.

(** The string a [const char *] denotes when it points into the buffer
    of a [std::string] whose characters from there on are [s]: it ends at
    the first NUL. *)
Fixpoint c_str (s : list ascii) : list ascii :=
  match s with
  | [] => []
  | c :: r => if Ascii.eqb c "000" then [] else c :: c_str r
  end.

(** [fmtError()], with [expl] given as its characters. *)
Definition fmtError (expl : list ascii) : list ascii :=
  c_str (drop (scan expl 0 0) expl).

(** [what()]. *)
Definition what (expl : list ascii) : list ascii := fmtError expl.

(** No ['/'] comes before the first [':']. *)
Fixpoint no_dir (s : list ascii) : bool :=
  match s with
  | [] => true
  | c :: r =>
      if Ascii.eqb c "/" then false
      else if Ascii.eqb c ":" then true
      else no_dir r
  end.

End LuaError.

(** [throws_only P m]: an exception that escapes [m] satisfies [P]. *)
Definition throws_only {A} (P : Exn → Prop) (m : M A) : Prop :=
  ∀ d e d', m d = (Throw e, d') → P e.

(** The exceptions [loadPassthrough] has a catch clause for. *)
Definition caught_by_load (e : Exn) : Prop :=
  match e with
  | CSVError _ | SystemError _ => True
  | _ => False
  end.

(** No exception at all. *)
Definition never (e : Exn) : Prop := False.

(** What may leave the load of the file of event [e]: an exception that
    the load by path does not catch, or what a helper throws on a file
    that fails the permission test. *)
Definition escapes_load (fs : FileSystem) (uid : Z) (e : FSEvent) (x : Exn)
    : Prop :=
  ¬ caught_by_load x ∨ (¬ permitted uid e ∧ helper_throws fs e x).

(** Calls that put events in the buffer of the synthetic device. *)
Definition buffers (c : Call) : bool :=
  match c with
  | UdevEmit _ | UdevUpAll => true
  | _ => false
  end.

(** Nothing is left in the buffer after these calls: none of them puts
    an event in it after the last flush. *)
Definition flushed (calls : list Call) : Prop :=
  Forall (λ c, buffers c = false) calls
  ∨ ∃ pre post, calls = pre ++ UdevFlush :: post
                ∧ Forall (λ c, buffers c = false) post.

(** The calls added to the trace put nothing in the buffer. *)
Definition no_buffering (d d' : KBDDaemon) : Prop :=
  ∃ calls, out d' = out d ++ calls ∧ Forall (λ c, buffers c = false) calls.

(** The trace only grows. *)
Definition grows (d d' : KBDDaemon) : Prop := ∃ calls, out d' = out d ++ calls.

(** What [on_socket_error] does after the second flush. *)
Definition recovery_loops (env : LoopEnv) : M unit :=
  d <- get ;;
  for_each (available_kbds d) (unlock_one env) ;;
  syslog LOG_CRIT MsgReconnecting ;;
  call ComRecon ;;
  d <- get ;;
  for_each (available_kbds d) (lock_one env).

(** * Properties *)

Example stoi_42 : Stoi.stoi "42" = Some 42.
Proof. reflexivity. Qed.

Example stoi_neg : Stoi.stoi " -7x" = Some (-7).
Proof. reflexivity. Qed.

Example stoi_word : Stoi.stoi "KEY_A" = None.
Proof. reflexivity. Qed.

Example stoi_range : Stoi.stoi "4294967296" = None.
Proof. reflexivity. Qed.

(** ** Registry *)

Lemma elem_of_sources_union (sources : gmap string (list Z)) (c : Z) :
  c ∈ sources_union sources ↔ ∃ p vec, sources !! p = Some vec ∧ c ∈ vec.
Proof.
  unfold sources_union. rewrite elem_of_union_list. split.
  - intros (X & HX & Hc). apply list_elem_of_fmap in HX as ([p vec] & -> & Hin).
    apply elem_of_map_to_list in Hin. exists p, vec. split; [done|].
    simpl in Hc. by apply elem_of_list_to_set in Hc.
  - intros (p & vec & Hp & Hc). exists (list_to_set vec). split.
    + apply list_elem_of_fmap. exists (p, vec). split; [done|].
      by apply elem_of_map_to_list.
    + by apply elem_of_list_to_set.
Qed.

Lemma elem_of_erase_codes vec (keys : gset Z) c :
  c ∈ erase_codes vec keys ↔ c ∈ keys ∧ c ∉ vec.
Proof.
  unfold erase_codes. revert keys. induction vec as [|x vec IH]; intros keys; simpl.
  - set_solver.
  - rewrite IH. set_solver.
Qed.

Lemma elem_of_insert_codes vec (keys : gset Z) c :
  c ∈ insert_codes vec keys ↔ c ∈ keys ∨ c ∈ vec.
Proof.
  unfold insert_codes. revert keys. induction vec as [|x vec IH]; intros keys; simpl.
  - set_solver.
  - rewrite IH. set_solver.
Qed.

Lemma elem_of_readd_keys sources (keys : gset Z) c :
  c ∈ readd_keys sources keys ↔ c ∈ keys ∨ c ∈ sources_union sources.
Proof.
  rewrite elem_of_sources_union. unfold readd_keys.
  apply (map_fold_weak_ind (λ r m, c ∈ r ↔ c ∈ keys ∨ ∃ p vec, m !! p = Some vec ∧ c ∈ vec)).
  - split; [by left|]. intros [?|(p & vec & Hp & _)]; [done|].
    by rewrite lookup_empty in Hp.
  - intros p vec m r Hnone IH. rewrite elem_of_insert_codes, IH. split.
    + intros [[?|(q & w & Hq & Hc)]|Hc]; [by left| |].
      * right. exists q, w. split; [|done].
        rewrite lookup_insert_ne; [done|]. intros ->. congruence.
      * right. exists p, vec. by rewrite lookup_insert_eq.
    + intros [?|(q & w & Hq & Hc)]; [by left; left|].
      destruct (decide (p = q)) as [->|Hne].
      * rewrite lookup_insert_eq in Hq. right. congruence.
      * rewrite lookup_insert_ne in Hq by done. left. right. eauto.
Qed.

Lemma unloadPassthrough_absent p d :
  key_sources d !! p = None → unloadPassthrough p d = (Ok tt, d).
Proof. intros H. unfold unloadPassthrough. run_monad. by rewrite H. Qed.

Lemma unloadPassthrough_present p vec d :
  key_sources d !! p = Some vec →
  unloadPassthrough p d =
    (Ok tt,
     mkDaemon (keyboards d) (available_kbds d) (pulled_kbds d)
       (delete p (key_sources d))
       (readd_keys (delete p (key_sources d)) (erase_codes vec (passthrough_keys d)))
       (kbd d) (out d ++ [Syslog LOG_INFO (MsgRemovingKeys p)])).
Proof. intros H. unfold unloadPassthrough. run_monad. by rewrite H. Qed.

Lemma unloadPassthrough_ok p d : (unloadPassthrough p d).1 = Ok tt.
Proof.
  destruct (key_sources d !! p) as [vec|] eqn:H.
  - by rewrite (unloadPassthrough_present _ _ _ H).
  - by rewrite (unloadPassthrough_absent _ _ H).
Qed.

Lemma unloadPassthrough_sources p d :
  key_sources (unloadPassthrough p d).2 = delete p (key_sources d).
Proof.
  destruct (key_sources d !! p) as [vec|] eqn:H.
  - by rewrite (unloadPassthrough_present _ _ _ H).
  - rewrite (unloadPassthrough_absent _ _ H). simpl. by rewrite delete_id.
Qed.

Lemma elem_of_union_delete (sources : gmap string (list Z)) p vec c :
  sources !! p = Some vec →
  c ∈ sources_union sources ↔ c ∈ vec ∨ c ∈ sources_union (delete p sources).
Proof.
  intros Hp. rewrite !elem_of_sources_union. split.
  - intros (q & w & Hq & Hc). destruct (decide (p = q)) as [->|Hne].
    + left. congruence.
    + right. exists q, w. by rewrite lookup_delete_ne.
  - intros [Hc|(q & w & Hq & Hc)].
    + eauto.
    + exists q, w. split; [|done].
      destruct (decide (p = q)) as [->|Hne].
      * by rewrite lookup_delete_eq in Hq.
      * by rewrite lookup_delete_ne in Hq.
Qed.

Lemma unloadPassthrough_inv p d :
  registry_inv d → registry_inv (unloadPassthrough p d).2.
Proof.
  unfold registry_inv. intros Hinv.
  destruct (key_sources d !! p) as [vec|] eqn:H.
  - rewrite (unloadPassthrough_present _ _ _ H). simpl.
    apply set_eq. intros c.
    rewrite elem_of_readd_keys, elem_of_erase_codes, Hinv.
    rewrite (elem_of_union_delete _ _ _ c H). tauto.
  - by rewrite (unloadPassthrough_absent _ _ H).
Qed.

Lemma load_cells_run cells : ∀ cells_i d,
  load_cells cells cells_i d =
    (Ok (cells_i ++ accepted_codes cells),
     set_passthrough_keys (insert_codes (accepted_codes cells)) d).
Proof.
  induction cells as [|code_s rest IH]; intros cells_i d; simpl.
  - rewrite app_nil_r. by destruct d.
  - unfold accepted_codes. simpl. destruct (Stoi.stoi code_s) as [i|]; simpl.
    + destruct (0 <=? i); simpl.
      * run_monad. rewrite IH. rewrite <- app_assoc. by destruct d.
      * apply IH.
    + apply IH.
Qed.

(** The three ways [loadPassthrough] ends. *)
Lemma loadPassthrough_no_realpath fs rel_path d :
  realpath fs rel_path = None →
  loadPassthrough fs rel_path d =
    (Ok tt,
     set_out (λ t, t ++ [Syslog LOG_ERR (MsgUnableToLoad rel_path
        ("Error in realpath() unable to get path for: " ++ rel_path))]) d).
Proof. intros H. unfold loadPassthrough. run_monad. by rewrite H. Qed.

Lemma loadPassthrough_csv_throws fs rel_path p e d :
  realpath fs rel_path = Some p →
  csv_key_code fs p = inl e →
  loadPassthrough fs rel_path d =
    let d1 := (unloadPassthrough p d).2 in
    match e with
    | CSVError what =>
        (Ok tt, set_out (λ t, t ++ [Syslog LOG_ERR (MsgCsvParseError rel_path what)]) d1)
    | SystemError what =>
        (Ok tt, set_out (λ t, t ++ [Syslog LOG_ERR (MsgUnableToLoad rel_path what)]) d1)
    | _ => (Throw e, d1)
    end.
Proof.
  intros Hr Hc. unfold loadPassthrough. run_monad. rewrite Hr.
  pose proof (unloadPassthrough_ok p d) as Hok.
  destruct (unloadPassthrough p d) as [r d1]. simpl in *. subst r.
  rewrite Hc. by destruct e.
Qed.

Lemma loadPassthrough_cells fs rel_path p cells d :
  realpath fs rel_path = Some p →
  csv_key_code fs p = inr cells →
  loadPassthrough fs rel_path d =
    let d1 := (unloadPassthrough p d).2 in
    (Ok tt,
     mkDaemon (keyboards d1) (available_kbds d1) (pulled_kbds d1)
       (<[p := accepted_codes cells]> (key_sources d1))
       (insert_codes (accepted_codes cells) (passthrough_keys d1))
       (kbd d1)
       (out d1 ++ [FswAdd p; Syslog LOG_INFO (MsgLoadedKeys p)])).
Proof.
  intros Hr Hc. unfold loadPassthrough. run_monad. rewrite Hr.
  pose proof (unloadPassthrough_ok p d) as Hok.
  destruct (unloadPassthrough p d) as [r d1]. simpl in *. subst r.
  rewrite Hc, load_cells_run. run_monad. by rewrite <- app_assoc.
Qed.

Lemma loadPassthrough_inv fs rel_path d :
  registry_inv d → registry_inv (loadPassthrough fs rel_path d).2.
Proof.
  intros Hinv.
  destruct (realpath fs rel_path) as [p|] eqn:Hr.
  - pose proof (unloadPassthrough_inv p d Hinv) as Hinv1.
    pose proof (unloadPassthrough_sources p d) as Hsrc.
    destruct (csv_key_code fs p) as [e|cells] eqn:Hc.
    + rewrite (loadPassthrough_csv_throws _ _ _ _ _ Hr Hc). by destruct e.
    + rewrite (loadPassthrough_cells _ _ _ _ _ Hr Hc). simpl.
      unfold registry_inv in *. simpl. apply set_eq. intros c.
      rewrite elem_of_insert_codes, Hinv1.
      assert (Hnone : key_sources (unloadPassthrough p d).2 !! p = None)
        by (rewrite Hsrc; apply lookup_delete_eq).
      rewrite (elem_of_union_delete (<[p:=_]> _) p _ c (lookup_insert_eq _ _ _)).
      rewrite delete_insert_id by done. tauto.
  - by rewrite (loadPassthrough_no_realpath _ _ _ Hr).
Qed.

(** A file that fails the permission test: the outcome is that of the
    two helpers. *)
Lemma loadPassthroughEv_turned_down fs uid e d :
  (Z.land (st_mode (stbuf e)) S_IRWXUGO =? MODE_0644)
    && (st_uid (stbuf e) =? uid) = false →
  loadPassthroughEv fs uid e d
  = match getgroup fs (st_uid (stbuf e)), fmtPermissions fs (stbuf e) with
    | inl x, _ => (Throw x, d)
    | inr _, inl x => (Throw x, d)
    | inr _, inr perm_str =>
        (Ok tt, set_out (λ t, t ++ [Syslog LOG_ERR
                                      (MsgInvalidPermissions (path e) perm_str)]) d)
    end.
Proof.
  intros H. unfold loadPassthroughEv. rewrite H. run_monad.
  destruct (getgroup fs _); [done|]. by destruct (fmtPermissions fs _).
Qed.

(** The three ways [loadPassthrough(FSEvent *ev)] ends. *)
Lemma loadPassthroughEv_cases fs uid e d :
  loadPassthroughEv fs uid e d = loadPassthrough fs (path e) d
  ∨ (∃ x, loadPassthroughEv fs uid e d = (Throw x, d))
  ∨ (∃ perm_str,
       loadPassthroughEv fs uid e d
       = (Ok tt, set_out (λ t, t ++ [Syslog LOG_ERR
                                       (MsgInvalidPermissions (path e) perm_str)])
                   d)).
Proof.
  destruct ((Z.land (st_mode (stbuf e)) S_IRWXUGO =? MODE_0644)
            && (st_uid (stbuf e) =? uid)) eqn:Hp.
  - left. unfold loadPassthroughEv. by rewrite Hp.
  - right. rewrite (loadPassthroughEv_turned_down _ _ _ _ Hp).
    destruct (getgroup fs _); [eauto|]. destruct (fmtPermissions fs _); eauto.
Qed.

Lemma loadPassthroughEv_inv fs uid e d :
  registry_inv d → registry_inv (loadPassthroughEv fs uid e d).2.
Proof.
  intros Hinv.
  destruct ((Z.land (st_mode (stbuf e)) S_IRWXUGO =? MODE_0644)
            && (st_uid (stbuf e) =? uid)) eqn:Hp.
  - unfold loadPassthroughEv. rewrite Hp. by apply loadPassthrough_inv.
  - rewrite (loadPassthroughEv_turned_down _ _ _ _ Hp).
    destruct (getgroup fs _); [done|]. by destruct (fmtPermissions fs _).
Qed.

Lemma keys_fsw_callback_inv fs uid e d :
  registry_inv d → registry_inv (keys_fsw_callback fs uid e d).2.
Proof.
  intros Hinv. unfold keys_fsw_callback. run_monad.
  set (d0 := mkDaemon _ _ _ _ _ _ _). assert (Hinv0 : registry_inv d0) by done.
  destruct (negb _).
  - pose proof (unloadPassthrough_inv (path e) d0 Hinv0).
    by destruct (unloadPassthrough (path e) d0) as [[] ?].
  - destruct (negb _); [|done].
    pose proof (loadPassthroughEv_inv fs uid e d0 Hinv0).
    by destruct (loadPassthroughEv fs uid e d0) as [[] ?].
Qed.

Lemma run_op_inv op d : registry_inv d → registry_inv (run_op op d).
Proof.
  destruct op; simpl.
  - apply loadPassthrough_inv.
  - apply loadPassthroughEv_inv.
  - apply unloadPassthrough_inv.
  - apply keys_fsw_callback_inv.
Qed.

Lemma run_ops_inv ops : ∀ d, registry_inv d → registry_inv (run_ops ops d).
Proof.
  unfold run_ops. induction ops as [|op ops IH]; intros d Hinv; simpl; [done|].
  apply IH. by apply run_op_inv.
Qed.

Lemma new_daemon_inv : registry_inv new_daemon.
Proof. unfold registry_inv. simpl. unfold sources_union. by rewrite map_to_list_empty. Qed.

Lemma loadPassthrough_sources fs rel_path d :
  key_sources (loadPassthrough fs rel_path d).2 =
    match realpath fs rel_path with
    | None => key_sources d
    | Some p =>
        match csv_key_code fs p with
        | inl _ => delete p (key_sources d)
        | inr cells => <[p := accepted_codes cells]> (key_sources d)
        end
    end.
Proof.
  destruct (realpath fs rel_path) as [p|] eqn:Hr.
  - destruct (csv_key_code fs p) as [e|cells] eqn:Hc.
    + rewrite (loadPassthrough_csv_throws _ _ _ _ _ Hr Hc).
      destruct e; cbn; apply unloadPassthrough_sources.
    + rewrite (loadPassthrough_cells _ _ _ _ _ Hr Hc). cbn.
      by rewrite unloadPassthrough_sources, insert_delete_eq.
  - by rewrite (loadPassthrough_no_realpath _ _ _ Hr).
Qed.

Lemma loadPassthrough_twice fs rel_path d :
  registry_inv d →
  let d1 := (loadPassthrough fs rel_path d).2 in
  let d2 := (loadPassthrough fs rel_path d1).2 in
  key_sources d2 = key_sources d1 ∧ passthrough_keys d2 = passthrough_keys d1.
Proof.
  intros Hinv d1 d2.
  assert (Hsrc : key_sources d2 = key_sources d1).
  { unfold d2, d1. rewrite !loadPassthrough_sources.
    destruct (realpath fs rel_path) as [p|]; [|done].
    destruct (csv_key_code fs p).
    - apply delete_id, lookup_delete_eq.
    - apply insert_insert_eq. }
  split; [done|].
  pose proof (loadPassthrough_inv fs rel_path d Hinv) as Hinv1.
  pose proof (loadPassthrough_inv fs rel_path _ Hinv1) as Hinv2.
  fold d1 in Hinv1, Hinv2. fold d2 in Hinv2.
  unfold registry_inv in Hinv1, Hinv2. by rewrite Hinv1, Hinv2, Hsrc.
Qed.

(** C2. After every sequence of loads and unloads (by path, by filesystem
    event, or through the watcher callback) the merged set
    [passthrough_keys] is the union of the code sets of the live sources;
    and unloading a source [p] keeps every code that another live source
    [q] still lists. *)
Theorem registry_merged_is_union (ops : list RegistryOp) :
  let d := run_ops ops new_daemon in
  passthrough_keys d = sources_union (key_sources d)
  ∧ ∀ p q vec c,
      q ≠ p → key_sources d !! q = Some vec → c ∈ vec →
      c ∈ passthrough_keys (unloadPassthrough p d).2.
Proof.
  intros d.
  assert (Hinv : registry_inv d) by apply run_ops_inv, new_daemon_inv.
  split; [exact Hinv|].
  intros p q vec c Hne Hq Hc.
  rewrite (unloadPassthrough_inv p d Hinv), unloadPassthrough_sources.
  apply elem_of_sources_union. exists q, vec. by rewrite lookup_delete_ne.
Qed.

Lemma registry_merged_is_union_witness :
  11 ∈ passthrough_keys
         (unloadPassthrough "/keys/a.csv" (run_ops scenario_ops new_daemon)).2.
Proof.
  apply (proj2 (registry_merged_is_union scenario_ops)
           "/keys/a.csv" "/keys/b.csv" [11; 12] 11).
  - discriminate.
  - vm_compute. reflexivity.
  - set_solver.
Defined.

(** C9. Loading the same file twice in a row, against the same
    filesystem, leaves the sources map and the merged set as one load
    leaves them, from every state the registry can reach. *)
Theorem load_twice_same_registry (ops : list RegistryOp) (fs : FileSystem)
    (rel_path : string) :
  let d := run_ops ops new_daemon in
  let d1 := (loadPassthrough fs rel_path d).2 in
  let d2 := (loadPassthrough fs rel_path d1).2 in
  key_sources d2 = key_sources d1 ∧ passthrough_keys d2 = passthrough_keys d1.
Proof.
  intros d. apply loadPassthrough_twice. apply run_ops_inv, new_daemon_inv.
Qed.

(** C10. When [realpath] cannot resolve the path, [loadPassthrough]
    returns normally: the [SystemError] it throws is caught inside, one
    error record is logged, no source is unloaded and the merged set is
    unchanged. *)
Theorem load_unresolvable_is_noop (fs : FileSystem) (rel_path : string)
    (d : KBDDaemon) :
  realpath fs rel_path = None →
  ∃ what,
    loadPassthrough fs rel_path d =
      (Ok tt, set_out (λ t, t ++ [Syslog LOG_ERR (MsgUnableToLoad rel_path what)]) d)
    ∧ key_sources (loadPassthrough fs rel_path d).2 = key_sources d
    ∧ passthrough_keys (loadPassthrough fs rel_path d).2 = passthrough_keys d.
Proof.
  intros Hr. eexists. rewrite (loadPassthrough_no_realpath _ _ _ Hr). done.
Qed.

Lemma load_unresolvable_is_noop_witness :
  let d := run_ops scenario_ops new_daemon in
  ∃ what,
    loadPassthrough empty_fs "/keys/gone.csv" d =
      (Ok tt, set_out (λ t, t ++ [Syslog LOG_ERR
                                    (MsgUnableToLoad "/keys/gone.csv" what)]) d)
    ∧ key_sources (loadPassthrough empty_fs "/keys/gone.csv" d).2 = key_sources d
    ∧ passthrough_keys (loadPassthrough empty_fs "/keys/gone.csv" d).2
      = passthrough_keys d.
Proof.
  intros d.
  apply (load_unresolvable_is_noop empty_fs "/keys/gone.csv" d). reflexivity.
Defined.

(** C5, as the specification states it, fails: reloading a file that was
    loaded before and no longer parses removes its source.  Here
    [/keys/a.csv] and [/keys/b.csv] are loaded, then [/keys/a.csv] is
    loaded again and the CSV reader throws: code 10 leaves the merged set
    and the source of [/keys/a.csv] is gone. *)
Lemma failed_reload_changes_registry :
  let d := run_ops scenario_ops new_daemon in
  let d' := (loadPassthrough broken_fs "/keys/a.csv" d).2 in
  realpath broken_fs "/keys/a.csv" = Some "/keys/a.csv"
  ∧ csv_key_code broken_fs "/keys/a.csv" = inl (CSVError "unterminated quote")
  ∧ ¬ (key_sources d' = key_sources d ∧ passthrough_keys d' = passthrough_keys d).
Proof.
  intros d d'. split; [done|]. split; [done|].
  intros [Hsrc _].
  assert (H : key_sources d' !! "/keys/a.csv" = key_sources d !! "/keys/a.csv")
    by (by rewrite Hsrc).
  vm_compute in H. discriminate.
Qed.

(** C5, amended. When the CSV reader throws [CSVError], [loadPassthrough]
    returns normally with one error record logged, and the registry is
    what [unloadPassthrough] of the canonical path leaves: the sources map
    loses that path, the merged set stays the union of the remaining
    sources, and when the path had no source the registry is unchanged. *)
Theorem failed_load_is_unload (fs : FileSystem) (rel_path p what : string)
    (d : KBDDaemon) :
  realpath fs rel_path = Some p →
  csv_key_code fs p = inl (CSVError what) →
  let d' := (loadPassthrough fs rel_path d).2 in
  loadPassthrough fs rel_path d =
    (Ok tt, set_out (λ t, t ++ [Syslog LOG_ERR (MsgCsvParseError rel_path what)])
              (unloadPassthrough p d).2)
  ∧ key_sources d' = delete p (key_sources d)
  ∧ (registry_inv d → passthrough_keys d' = sources_union (delete p (key_sources d)))
  ∧ (key_sources d !! p = None →
     key_sources d' = key_sources d ∧ passthrough_keys d' = passthrough_keys d).
Proof.
  intros Hr Hc d'. unfold d'.
  rewrite (loadPassthrough_csv_throws _ _ _ _ _ Hr Hc). cbn.
  split; [done|]. split; [apply unloadPassthrough_sources|]. split.
  - intros Hinv. rewrite (unloadPassthrough_inv p d Hinv).
    by rewrite unloadPassthrough_sources.
  - intros Hnone. by rewrite (unloadPassthrough_absent _ _ Hnone).
Qed.

Lemma failed_load_is_unload_witness :
  let d := run_ops scenario_ops new_daemon in
  let d' := (loadPassthrough broken_fs "/keys/a.csv" d).2 in
  key_sources d' = delete "/keys/a.csv" (key_sources d).
Proof.
  intros d d'.
  apply (failed_load_is_unload broken_fs "/keys/a.csv" "/keys/a.csv"
           "unterminated quote" d); reflexivity.
Defined.

(** A helper that throws on a file that fails the permission test: the
    exception leaves [loadPassthrough(FSEvent *ev)], nothing is logged
    and the daemon is as before. *)
Lemma load_event_helper_throws fs uid e d x :
  ¬ (Z.land (st_mode (stbuf e)) 511 = 420 ∧ st_uid (stbuf e) = uid) →
  helper_throws fs e x →
  loadPassthroughEv fs uid e d = (Throw x, d).
Proof.
  intros Hno Hx. rewrite loadPassthroughEv_turned_down.
  - destruct Hx as [->|[[grp ->] ->]]; done.
  - unfold S_IRWXUGO, MODE_0644. apply andb_false_iff.
    destruct (Z.eqb_spec (Z.land (st_mode (stbuf e)) 511) 420);
      destruct (Z.eqb_spec (st_uid (stbuf e)) uid); tauto.
Qed.



(** ** Hotplug callback *)

(** The test of the group permission bits never holds: [grp_perm] keeps
    the bits 3 to 5 of the mode and the test reads bit 2. *)
Lemma group_rw_missing_always (st : stat) : group_rw_missing st = true.
Proof.
  unfold group_rw_missing, S_IRWXG.
  replace (Z.land 4 (Z.land (st_mode st) 56)) with 0; [done|].
  rewrite (Z.land_comm (st_mode st)), Z.land_assoc. by rewrite Z.land_0_l.
Qed.

(** So the loop goes on exactly while [stat] succeeds and the group of
    the node is not [input]. *)
Lemma keep_waiting_iff input_gid r :
  keep_waiting input_gid r = true ↔ ∃ st, r = Some st ∧ st_gid st ≠ input_gid.
Proof.
  unfold keep_waiting. destruct r as [st|].
  - rewrite group_rw_missing_always. cbn [andb].
    destruct (Z.eqb_spec (st_gid st) input_gid); cbn [negb]; split.
    + done.
    + intros (? & [= <-] & ?). done.
    + eauto.
    + done.
  - split; [done|]. by intros (? & ? & _).
Qed.

(** The fuel of the loop is never used up. *)
Lemma wait_permissions_not_blocked env input_gid p : ∀ fuel n wait_time d,
  wait_time ≤ FSW_MAX_WAIT_PERMISSIONS_US →
  FSW_MAX_WAIT_PERMISSIONS_US < wait_time + 100 * Z.of_nat fuel →
  (wait_permissions fuel env input_gid p n wait_time d).1 ≠ Blocked.
Proof.
  induction fuel as [|fuel IH]; intros n wait_time d Hle Hfuel; [lia|].
  cbn [wait_permissions]. run_monad.
  destruct (match stat_ret env n with Some _ => _ | None => _ end); [done|].
  destruct (Z.gtb_spec (wait_time + 100) FSW_MAX_WAIT_PERMISSIONS_US); [done|].
  destruct (keep_waiting input_gid (stat_ret env n)); [|done].
  apply IH; lia.
Qed.

(** When the node stays a character device whose group is not [input],
    the loop gives up: it returns from the callback with the error
    logged, after the wait time passed 5 s. *)
Lemma wait_permissions_timeout env input_gid p :
  (∀ n, ∃ st, stat_ret env n = Some st ∧ S_ISCHR (st_mode st) = true
              ∧ st_gid st ≠ input_gid) →
  ∀ fuel n wait_time d,
    wait_time ≤ FSW_MAX_WAIT_PERMISSIONS_US →
    FSW_MAX_WAIT_PERMISSIONS_US < wait_time + 100 * Z.of_nat fuel →
    ∃ d', wait_permissions fuel env input_gid p n wait_time d = (Ok None, d')
          ∧ keyboards d' = keyboards d
          ∧ available_kbds d' = available_kbds d
          ∧ pulled_kbds d' = pulled_kbds d
          ∧ last (out d') = Some (Syslog LOG_ERR (MsgNoPermissions p)).
Proof.
  intros Hstat.
  induction fuel as [|fuel IH]; intros n wait_time d Hle Hfuel; [lia|].
  cbn [wait_permissions]. run_monad.
  destruct (Hstat n) as (st & -> & Hchr & Hgid). rewrite Hchr. cbn [negb].
  destruct (Z.gtb_spec (wait_time + 100) FSW_MAX_WAIT_PERMISSIONS_US).
  - eexists. split; [done|]. cbn. by rewrite last_snoc.
  - assert (Hk : keep_waiting input_gid (Some st) = true)
      by (apply keep_waiting_iff; eauto).
    rewrite Hk.
    edestruct (IH (S n) (wait_time + 100)) as (d' & -> & ? & ? & ? & ?); [lia..|].
    eexists. split; [done|]. done.
Qed.

(** When the group of the node never becomes [input], the event times
    out: the error is logged and no keyboard is re-grabbed. *)
Lemma hotplug_timeout_drops_event env input_gid e k rest d :
  path e ≠ "/dev/input" →
  pulled_kbds d = k :: rest →
  (∀ n, ∃ st, stat_ret env n = Some st ∧ S_ISCHR (st_mode st) = true
              ∧ st_gid st ≠ input_gid) →
  ∃ d', input_fsw_callback env input_gid e d = (Ok true, d')
        ∧ keyboards d' = keyboards d
        ∧ available_kbds d' = available_kbds d
        ∧ pulled_kbds d' = pulled_kbds d
        ∧ last (out d') = Some (Syslog LOG_ERR (MsgNoPermissions (path e))).
Proof.
  intros Hpath Hpulled Hstat. unfold input_fsw_callback.
  destruct (String.eqb_spec (path e) "/dev/input"); [done|].
  run_monad. rewrite Hpulled. cbn [scan_pulled]. run_monad.
  edestruct (wait_permissions_timeout env input_gid (path e) Hstat MAX_POLLS 0%nat 0)
    as (d' & -> & ? & ? & ? & ?).
  - unfold FSW_MAX_WAIT_PERMISSIONS_US. lia.
  - by vm_compute.
  - eexists. split; [done|]. done.
Qed.

(** A character device whose group is [input] ends the wait at the first
    poll, whatever its permission bits are. *)
Lemma wait_permissions_group_input env input_gid p fuel n st d :
  stat_ret env n = Some st →
  S_ISCHR (st_mode st) = true →
  st_gid st = input_gid →
  wait_permissions (S fuel) env input_gid p n 0 d
  = (Ok (Some (S n)), set_out (λ t, t ++ [Usleep 100; StatCall p]) d).
Proof.
  intros Hstat Hchr Hgid. cbn [wait_permissions]. run_monad.
  rewrite Hstat, Hchr. cbn [negb].
  assert (Hk : keep_waiting input_gid (Some st) = false).
  { destruct (keep_waiting input_gid (Some st)) eqn:Hk; [|done].
    apply keep_waiting_iff in Hk as (? & [= <-] & ?). done. }
  rewrite Hk. cbn. by rewrite <- app_assoc.
Qed.

(** C6, where the code departs from it: the node is a character device
    owned by root:input with mode 0600, so the group can neither read nor
    write.  The callback polls once, leaves the loop, and re-grabs the
    keyboard: it is reset, locked, moved to the active list and removed
    from the pending list. *)
Lemma hotplug_regrab_without_group_rw :
  input_fsw_callback (hotplug_env (Some node_root_input_0600)) 104 event9
                     pulled_daemon
  = (Ok true,
     mkDaemon {[ 7%nat := LOCKED ]} [7%nat] [] ∅ ∅ None
       [Syslog LOG_INFO (MsgHotplugEvent "/dev/input/event9");
        Usleep 100; StatCall "/dev/input/event9";
        Syslog LOG_INFO (MsgPluggedIn 7);
        KbdReset 7 "/dev/input/event9"; KbdLock 7])
  ∧ Z.land (st_mode node_root_input_0600) S_IRWXG = 0.
Proof. split; [vm_compute|]; reflexivity. Qed.

(** The same when [stat] itself fails: the loop is left after one poll. *)
Lemma hotplug_regrab_when_stat_fails :
  input_fsw_callback (hotplug_env None) 104 event9 pulled_daemon
  = (Ok true,
     mkDaemon {[ 7%nat := LOCKED ]} [7%nat] [] ∅ ∅ None
       [Syslog LOG_INFO (MsgHotplugEvent "/dev/input/event9");
        Usleep 100; StatCall "/dev/input/event9";
        Syslog LOG_INFO (MsgPluggedIn 7);
        KbdReset 7 "/dev/input/event9"; KbdLock 7]).
Proof. vm_compute. reflexivity. Qed.

(** ** Event loop *)

(** An event read from a LOCKED keyboard is handed to the rest of the
    turn. *)
Lemma read_key_locked env d idx k e :
  kbdMultiplex_ret env = Some idx →
  available_kbds d !! idx = Some k →
  keyboards d !! k = Some LOCKED →
  get_ret env = Some e →
  try_catch (read_key env)
    (λ x, match x with
          | KeyboardError => Some on_keyboard_error
          | _ => None
          end) d
  = (Ok (Some e), set_out (λ t, t ++ [KbdGet k]) (set_kbd (Some k) d)).
Proof.
  intros Hmux Hidx Hst Hget. unfold read_key. run_monad.
  rewrite Hmux, Hidx. run_kbd. rewrite Hst, Hget. run_monad. by rewrite Hst.
Qed.

(** C8. An event read from a locked keyboard whose code is not in the
    merged passthrough set is emitted to the synthetic device and
    flushed, and the turn makes no call on the peer channel. *)
Theorem non_passthrough_emitted_directly (env : LoopEnv) (d : KBDDaemon)
    (idx k : nat) (e : input_event) :
  kbdMultiplex_ret env = Some idx →
  available_kbds d !! idx = Some k →
  keyboards d !! k = Some LOCKED →
  get_ret env = Some e →
  code e ∉ passthrough_keys d →
  ∃ d' calls,
    run_iteration env d = (Ok tt, d')
    ∧ out d' = out d ++ calls
    ∧ calls = [KbdGet k; UdevEmit e; UdevFlush]
    ∧ emitted calls = [e]
    ∧ peer_calls calls = [].
Proof.
  intros Hmux Hidx Hst Hget Hcode. unfold run_iteration.
  unfold bind at 1. rewrite (read_key_locked env d idx k e) by done.
  run_monad. rewrite bool_decide_eq_false_2 by done.
  eexists. exists [KbdGet k; UdevEmit e; UdevFlush].
  split; [done|]. split; [|done]. cbn. by rewrite <- !app_assoc.
Qed.

Lemma non_passthrough_emitted_directly_witness :
  ∃ d' calls,
    run_iteration (turn (Some (key_press 31)) true true []) typing_daemon = (Ok tt, d')
    ∧ out d' = out typing_daemon ++ calls
    ∧ calls = [KbdGet 1; UdevEmit (key_press 31); UdevFlush]
    ∧ emitted calls = [key_press 31]
    ∧ peer_calls calls = [].
Proof.
  apply (non_passthrough_emitted_directly
           (turn (Some (key_press 31)) true true []) typing_daemon 0 1 (key_press 31)).
  - reflexivity.
  - reflexivity.
  - reflexivity.
  - reflexivity.
  - simpl. set_solver.
Defined.

Lemma emitted_reply_calls replies : emitted (reply_calls replies) = ev <$> replies.
Proof. induction replies as [|a replies IH]; [done|]. cbn. by f_equal. Qed.

Lemma peer_calls_reply_calls replies :
  peer_calls (reply_calls replies) = replicate (length replies) ComRecv.
Proof. induction replies as [|a replies IH]; [done|]. cbn. by f_equal. Qed.

(** The receive loop when the macro daemon sends [replies] and then a
    message with [done] set. *)
Lemma recv_loop_done replies fin rest :
  Forall (λ a, done a = 0) replies →
  done fin ≠ 0 →
  ∀ count d,
    recv_loop ((Some <$> replies) ++ Some fin :: rest) count d
    = (Ok (count + length replies)%nat,
       set_out (λ t, t ++ reply_calls replies ++ [ComRecv]) d).
Proof.
  intros Hreplies Hfin.
  induction Hreplies as [|a replies Ha _ IH]; intros count d.
  - cbn. run_monad. destruct (Z.eqb_spec (done fin) 0); [done|]. cbn.
    by rewrite Nat.add_0_r.
  - cbn. run_monad. rewrite Ha. cbn. rewrite IH. run_monad.
    rewrite <- !app_assoc. cbn. do 3 f_equal. lia.
Qed.

(** The receive loop when [recv] throws after [replies]. *)
Lemma recv_loop_error replies rest :
  Forall (λ a, done a = 0) replies →
  ∀ count d,
    recv_loop ((Some <$> replies) ++ None :: rest) count d
    = (Throw SocketError, set_out (λ t, t ++ reply_calls replies ++ [ComRecv]) d).
Proof.
  intros Hreplies.
  induction Hreplies as [|a replies Ha _ IH]; intros count d.
  - done.
  - cbn. run_monad. rewrite Ha. cbn. rewrite IH. run_monad.
    by rewrite <- !app_assoc.
Qed.

(** C3. A passthrough event read from a locked keyboard is sent to the
    macro daemon.  When the macro daemon answers [replies] (zero or more
    messages without [done]) and then a message with [done], the events
    that reach the emitter in this turn are exactly those of [replies],
    in order, followed by one flush: none when [replies] is empty, and
    never the original event as such. *)
Theorem passthrough_replaced_by_replies (env : LoopEnv) (d : KBDDaemon)
    (idx k : nat) (e : input_event) (replies : list KBDAction)
    (fin : KBDAction) (rest : list (option KBDAction)) :
  kbdMultiplex_ret env = Some idx →
  available_kbds d !! idx = Some k →
  keyboards d !! k = Some LOCKED →
  get_ret env = Some e →
  code e ∈ passthrough_keys d →
  send_ok env = true →
  recv_rets env = (Some <$> replies) ++ Some fin :: rest →
  Forall (λ a, done a = 0) replies →
  done fin ≠ 0 →
  ∃ d' calls,
    run_iteration env d = (Ok tt, d')
    ∧ out d' = out d ++ calls
    ∧ calls = [KbdGet k; ComSend (mkAction 0 e)] ++ reply_calls replies
              ++ [ComRecv; UdevFlush]
              ++ (if replies is [] then [Cout "MacroD swallowed event"] else [])
    ∧ emitted calls = ev <$> replies
    ∧ (replies = [] → emitted calls = []).
Proof.
  intros Hmux Hidx Hst Hget Hcode Hsend Hrecv Hreplies Hfin.
  unfold run_iteration.
  unfold bind at 1. rewrite (read_key_locked env d idx k e) by done.
  run_monad. rewrite bool_decide_eq_true_2 by done.
  unfold peer_exchange, com_send. run_monad. rewrite Hsend, Hrecv.
  rewrite (recv_loop_done replies fin rest Hreplies Hfin). run_monad.
  assert (Hem : emitted ([KbdGet k; ComSend (mkAction 0 e)] ++ reply_calls replies
              ++ [ComRecv; UdevFlush]
              ++ (if replies is [] then [Cout "MacroD swallowed event"] else []))
            = ev <$> replies).
  { unfold emitted. rewrite !omap_app. fold (emitted (reply_calls replies)).
    rewrite emitted_reply_calls. destruct replies; cbn; by rewrite ?app_nil_r. }
  destruct replies as [|a replies]; cbn [length Nat.add Nat.eqb]; run_monad.
  - eexists. eexists. split; [done|]. split; [|done]. cbn. by rewrite <- !app_assoc.
  - eexists. eexists. split; [done|]. split; [|split; [done|]].
    + cbn. rewrite <- !app_assoc. cbn. by rewrite <- !app_assoc.
    + split; [exact Hem | done].
Qed.

(** Scenario 1: the macro daemon answers [done] at once. *)
Lemma passthrough_replaced_by_replies_witness :
  ∃ d' calls,
    run_iteration (turn (Some (key_press 30)) true true [Some (mkAction 1 syn_report)])
                  typing_daemon = (Ok tt, d')
    ∧ out d' = out typing_daemon ++ calls
    ∧ calls = [KbdGet 1; ComSend (mkAction 0 (key_press 30))] ++ reply_calls []
              ++ [ComRecv; UdevFlush] ++ [Cout "MacroD swallowed event"]
    ∧ emitted calls = []
    ∧ (@nil KBDAction = [] → emitted calls = []).
Proof.
  apply (passthrough_replaced_by_replies
           (turn (Some (key_press 30)) true true [Some (mkAction 1 syn_report)])
           typing_daemon 0 1 (key_press 30) [] (mkAction 1 syn_report) []).
  - reflexivity.
  - reflexivity.
  - reflexivity.
  - reflexivity.
  - simpl. set_solver.
  - reflexivity.
  - reflexivity.
  - constructor.
  - simpl. lia.
Defined.

(** Scenario 2: the macro daemon answers a press of key 57 and a report. *)
Example transform_scenario :
  run_iteration
    (turn (Some (key_press 30)) true true
       [Some (mkAction 0 (key_press 57)); Some (mkAction 0 syn_report);
        Some (mkAction 1 syn_report)])
    typing_daemon
  = (Ok tt,
     mkDaemon {[ 1%nat := LOCKED ]} [1%nat] [] {[ "/keys/a.csv" := [30] ]} {[ 30 ]}
       (Some 1%nat)
       [KbdGet 1; ComSend (mkAction 0 (key_press 30));
        ComRecv; UdevEmit (key_press 57); ComRecv; UdevEmit syn_report;
        ComRecv; UdevFlush]).
Proof. vm_compute. reflexivity. Qed.

Lemma NoDup_delete_not_elem (l : list nat) i k :
  NoDup l → l !! i = Some k → k ∉ delete i l.
Proof.
  intros Hnd Hi Hin. apply list_elem_of_lookup in Hin as [j Hj].
  destruct (decide (j < i)%nat) as [Hlt|Hge].
  - rewrite list_lookup_delete_lt in Hj by done.
    pose proof (NoDup_lookup _ _ _ _ Hnd Hj Hi). lia.
  - rewrite list_lookup_delete_ge in Hj by lia.
    pose proof (NoDup_lookup _ _ _ _ Hnd Hj Hi). lia.
Qed.

(** C7. When [kbd->get] fails with a read error, the turn disables that
    keyboard, erases its first occurrence from the active list (its only
    one when the list has no duplicates), appends it to the pending
    list, emits nothing, and ends normally: the loop goes on with the
    next turn. *)
Theorem read_error_moves_keyboard_to_pending (env : LoopEnv) (d : KBDDaemon)
    (idx k : nat) (st : KBDState) :
  kbdMultiplex_ret env = Some idx →
  available_kbds d !! idx = Some k →
  keyboards d !! k = Some st →
  get_ret env = None →
  ∃ d' i,
    run_iteration env d = (Ok tt, d')
    ∧ keyboards d' !! k = Some DISABLED
    ∧ available_kbds d !! i = Some k
    ∧ (∀ j, (j < i)%nat → available_kbds d !! j ≠ Some k)
    ∧ available_kbds d' = delete i (available_kbds d)
    ∧ (NoDup (available_kbds d) → k ∉ available_kbds d')
    ∧ pulled_kbds d' = pulled_kbds d ++ [k]
    ∧ out d' = out d ++ [KbdGet k; Syslog LOG_ERR (MsgReadError k); KbdDisable k]
    ∧ ∀ envs, run_loop (env :: envs) d = run_loop envs d'.
Proof.
  intros Hmux Hidx Hst Hget.
  assert (Hfind : is_Some (list_find (λ x, x = k) (available_kbds d))).
  { apply (list_find_elem_of _ _ k); [|done]. by eapply list_elem_of_lookup_2. }
  destruct Hfind as [[i x] Hfind].
  pose proof Hfind as Hfind'.
  apply list_find_Some in Hfind' as (Hi & -> & Hfirst).
  assert (Hrun : ∃ d', run_iteration env d = (Ok tt, d')
    ∧ keyboards d' = <[k := DISABLED]> (<[k := DISABLED]> (keyboards d))
    ∧ available_kbds d' = delete i (available_kbds d)
    ∧ pulled_kbds d' = pulled_kbds d ++ [k]
    ∧ out d' = out d ++ [KbdGet k; Syslog LOG_ERR (MsgReadError k); KbdDisable k]).
  { unfold run_iteration, read_key, on_keyboard_error. run_monad.
    rewrite Hmux, Hidx. run_kbd. rewrite Hst, Hget.
    destruct st; run_kbd; rewrite lookup_insert_eq; run_monad; rewrite Hfind; run_monad;
      (eexists; split; [done|]; cbn; by rewrite <- !app_assoc). }
  destruct Hrun as (d' & Hrun & Hkbds & Havail & Hpulled & Hout).
  exists d', i. split; [done|]. split; [by rewrite Hkbds, lookup_insert_eq|].
  split; [done|]. split.
  { intros j Hj Hjk. by apply (Hfirst j k). }
  split; [done|]. split.
  { intros Hnd. rewrite Havail. by apply NoDup_delete_not_elem. }
  split; [done|]. split; [done|].
  intros envs. unfold run_loop. cbn [for_each]. unfold bind at 1. by rewrite Hrun.
Qed.

Lemma read_error_moves_keyboard_to_pending_witness :
  ∃ d' i,
    run_iteration (turn None true true []) typing_daemon = (Ok tt, d')
    ∧ keyboards d' !! 1%nat = Some DISABLED
    ∧ available_kbds typing_daemon !! i = Some 1%nat
    ∧ (∀ j, (j < i)%nat → available_kbds typing_daemon !! j ≠ Some 1%nat)
    ∧ available_kbds d' = delete i (available_kbds typing_daemon)
    ∧ (NoDup (available_kbds typing_daemon) → 1%nat ∉ available_kbds d')
    ∧ pulled_kbds d' = pulled_kbds typing_daemon ++ [1%nat]
    ∧ out d' = out typing_daemon
               ++ [KbdGet 1; Syslog LOG_ERR (MsgReadError 1); KbdDisable 1]
    ∧ ∀ envs, run_loop (turn None true true [] :: envs) typing_daemon
              = run_loop envs d'.
Proof.
  apply (read_error_moves_keyboard_to_pending
           (turn None true true []) typing_daemon 0 1 LOCKED); reflexivity.
Defined.

(** *** Loops over the active keyboards *)

Section kbd_loop.
Variable body : nat → M unit.
Variable after : KBDState → nat → KBDState.
Variable calls_of : KBDState → nat → list Call.

Hypothesis after_idem : ∀ st k, after (after st k) k = after st k.

Hypothesis body_run : ∀ k st d,
  keyboards d !! k = Some st →
  body k d = (Ok tt, set_out (λ t, t ++ calls_of st k)
                       (set_keyboards (<[k := after st k]>) d)).

Lemma kbd_loop_run (l : list nat) : ∀ d,
  (∀ x, x ∈ l → is_Some (keyboards d !! x)) →
  ∃ d', for_each l body d = (Ok tt, d')
        ∧ out d' = out d ++ loop_calls calls_of after l (keyboards d)
        ∧ same_lists d d'
        ∧ kbd d' = kbd d
        ∧ ∀ x, keyboards d' !! x
               = (λ st, if decide (x ∈ l) then after st x else st)
                   <$> keyboards d !! x.
Proof.
  induction l as [|k l IH]; intros d Hlive.
  - exists d. cbn. rewrite app_nil_r. split; [done|]. split; [done|].
    split; [done|]. split; [done|]. intros x.
    destruct (keyboards d !! x); cbn; [|done].
    by rewrite decide_False by set_solver.
  - destruct (Hlive k) as [st Hst]; [set_solver|].
    cbn [for_each loop_calls]. unfold bind at 1.
    rewrite (body_run k st d Hst), Hst.
    set (d1 := set_out _ _).
    destruct (IH d1) as (d' & Hrun & Hout & Hsame & Hkbd & Hstates).
    { intros x Hx. unfold d1. run_setters.
      destruct (decide (x = k)) as [->|Hne].
      - rewrite lookup_insert_eq. eauto.
      - rewrite lookup_insert_ne by done. apply Hlive. set_solver. }
    exists d'. split; [done|]. split.
    { rewrite Hout. unfold d1. run_setters. by rewrite <- app_assoc. }
    split; [done|]. split; [done|].
    intros x. rewrite Hstates. unfold d1. run_setters.
    destruct (decide (x = k)) as [->|Hne].
    + rewrite lookup_insert_eq, Hst. cbn.
      rewrite (decide_True (P := k ∈ k :: l)) by set_solver.
      destruct (decide (k ∈ l)); by rewrite ?after_idem.
    + rewrite lookup_insert_ne by done.
      destruct (keyboards d !! x); cbn; [|done].
      destruct (decide (x ∈ l)).
      * by rewrite decide_True by set_solver.
      * by rewrite decide_False by set_solver.
Qed.

End kbd_loop.

Lemma loop_calls_omap {B} (after : KBDState → nat → KBDState)
    (calls_of : KBDState → nat → list Call)
    (proj : Call → option B) (g : KBDState → nat → list B) :
  (∀ st k, omap proj (calls_of st k) = g st k) →
  (∀ st k, g (after st k) k = g st k) →
  ∀ l h,
    (∀ x, x ∈ l → is_Some (h !! x)) →
    omap proj (loop_calls calls_of after l h)
    = List.flat_map (λ k, from_option (λ st, g st k) [] (h !! k)) l.
Proof.
  intros Hproj Hstable. induction l as [|k l IH]; intros h Hlive; [done|].
  destruct (Hlive k) as [st Hst]; [set_solver|].
  cbn [loop_calls List.flat_map]. rewrite Hst, omap_app, Hproj. cbn. f_equal.
  rewrite IH.
  - apply List.flat_map_ext. intros x.
    destruct (decide (x = k)) as [->|Hne].
    + rewrite lookup_insert_eq, Hst. cbn. apply Hstable.
    + by rewrite lookup_insert_ne.
  - intros x Hx. destruct (decide (x = k)) as [->|Hne].
    + rewrite lookup_insert_eq. eauto.
    + rewrite lookup_insert_ne by done. apply Hlive. set_solver.
Qed.

Lemma loop_calls_flat_map (calls_of : KBDState → nat → list Call)
    (after : KBDState → nat → KBDState) :
  (∀ st k, calls_of (after st k) k = calls_of st k) →
  ∀ l h,
    (∀ x, x ∈ l → is_Some (h !! x)) →
    loop_calls calls_of after l h
    = List.flat_map (λ k, from_option (λ st, calls_of st k) [] (h !! k)) l.
Proof.
  intros Hstable. induction l as [|k l IH]; intros h Hlive; [done|].
  destruct (Hlive k) as [st Hst]; [set_solver|].
  cbn [loop_calls List.flat_map]. rewrite Hst. cbn. f_equal.
  rewrite IH.
  - apply List.flat_map_ext. intros x.
    destruct (decide (x = k)) as [->|Hne].
    + rewrite lookup_insert_eq, Hst. cbn. apply Hstable.
    + by rewrite lookup_insert_ne.
  - intros x Hx. destruct (decide (x = k)) as [->|Hne].
    + rewrite lookup_insert_eq. eauto.
    + rewrite lookup_insert_ne by done. apply Hlive. set_solver.
Qed.

Lemma flat_map_ext_elem_of {A B} (f g : A → list B) (l : list A) :
  (∀ x, x ∈ l → f x = g x) → List.flat_map f l = List.flat_map g l.
Proof.
  induction l as [|a l IH]; intros H; [done|].
  cbn. rewrite (H a) by set_solver. f_equal. apply IH. intros x Hx.
  apply H. set_solver.
Qed.

Lemma unlock_calls_stable env st k :
  unlock_calls env (after_unlock env st k) k = unlock_calls env st k.
Proof.
  unfold unlock_calls, after_unlock, unlock_fails.
  by destruct st, (unlock_ok env k).
Qed.

Lemma lock_calls_stable env st k :
  lock_calls env (after_lock env st k) k = lock_calls env st k.
Proof.
  unfold lock_calls, after_lock, lock_fails.
  by destruct st, (lock_ok env k) eqn:H; cbn; rewrite ?H.
Qed.

Lemma unlock_one_run env k st d :
  keyboards d !! k = Some st →
  unlock_one env k d
  = (Ok tt, set_out (λ t, t ++ unlock_calls env st k)
              (set_keyboards (<[k := after_unlock env st k]>) d)).
Proof.
  intros Hst. unfold unlock_one, unlock_calls, after_unlock, unlock_fails.
  run_kbd. rewrite Hst.
  destruct st, (unlock_ok env k); run_kbd; rewrite ?Hst; run_monad;
    by rewrite <- ?app_assoc.
Qed.

Lemma lock_one_run env k st d :
  keyboards d !! k = Some st →
  lock_one env k d
  = (Ok tt, set_out (λ t, t ++ lock_calls env st k)
              (set_keyboards (<[k := after_lock env st k]>) d)).
Proof.
  intros Hst. unfold lock_one, lock_calls, after_lock, lock_fails.
  run_kbd. rewrite Hst.
  destruct st, (lock_ok env k); run_kbd; rewrite <- ?app_assoc;
    rewrite ?(insert_id _ _ _ Hst); done.
Qed.

Lemma after_unlock_idem env st k :
  after_unlock env (after_unlock env st k) k = after_unlock env st k.
Proof. unfold after_unlock, unlock_fails. by destruct st, (unlock_ok env k). Qed.

Lemma after_lock_idem env st k :
  after_lock env (after_lock env st k) k = after_lock env st k.
Proof. unfold after_lock. by destruct st, (lock_ok env k) eqn:H; rewrite ?H. Qed.

(** What the two recovery loops make of a keyboard: disabled when the
    unlock fails, locked again when both succeed, left open when only the
    lock fails. *)
Lemma after_relock_cases env st k :
  after_lock env (after_unlock env st k) k
  = if unlock_fails env st k then DISABLED
    else if lock_ok env k then LOCKED else OPEN.
Proof. unfold after_lock, after_unlock. by destruct (unlock_fails env st k). Qed.

Lemma flat_map_live_singleton (l : list nat) (h : gmap nat KBDState) :
  (∀ x, x ∈ l → is_Some (h !! x)) →
  List.flat_map (λ k, from_option (λ _, [k]) [] (h !! k)) l = l.
Proof.
  induction l as [|k l IH]; intros Hlive; [done|].
  destruct (Hlive k) as [st Hst]; [set_solver|].
  cbn. rewrite Hst. cbn. f_equal. apply IH. intros x Hx. apply Hlive. set_solver.
Qed.

Lemma flat_map_live_nil {B} (l : list nat) (h : gmap nat KBDState) :
  List.flat_map (λ k, from_option (λ _, @nil B) [] (h !! k)) l = [].
Proof. induction l as [|k l IH]; [done|]. cbn. rewrite IH. by destruct (h !! k). Qed.

(** The recovery block: what it calls, in order, and how it leaves the
    keyboards. *)
Lemma on_socket_error_run env e d :
  (∀ x, x ∈ available_kbds d → is_Some (keyboards d !! x)) →
  ∃ d' unlocks locks,
    on_socket_error env e d = (Ok tt, d')
    ∧ out d' = out d
        ++ [Cout "Resetting connection ..."; UdevEmit e;
            UdevUpAll; UdevFlush; UdevUpAll; UdevFlush]
        ++ unlocks ++ [Syslog LOG_CRIT MsgReconnecting; ComRecon] ++ locks
    ∧ (unlocked unlocks = available_kbds d ∧ locked unlocks = []
       ∧ emitted unlocks = []
       ∧ ∀ x, x ∈ disabled unlocks
              ↔ x ∈ available_kbds d
                ∧ ∃ st, keyboards d !! x = Some st ∧ unlock_fails env st x = true)
    ∧ (locked locks = available_kbds d ∧ unlocked locks = []
       ∧ disabled locks = [] ∧ emitted locks = [])
    ∧ same_lists d d'
    ∧ kbd d' = kbd d
    ∧ (∀ x st, x ∈ available_kbds d → keyboards d !! x = Some st →
        keyboards d' !! x = Some (after_lock env (after_unlock env st x) x))
    ∧ unlocks = recovery_unlock_calls env d
    ∧ locks = recovery_lock_calls env d.
Proof.
  intros Hlive. unfold on_socket_error. run_monad.
  set (d0 := mkDaemon _ _ _ _ _ _ _).
  destruct (kbd_loop_run (unlock_one env) (after_unlock env) (unlock_calls env)
              (after_unlock_idem env) (unlock_one_run env) (available_kbds d) d0)
    as (d1 & -> & Hout1 & (Hav1 & Hpu1 & Hks1 & Hpk1) & Hkbd1 & Hst1); [done|].
  run_monad. rewrite Hav1. unfold d0 at 1. cbn [available_kbds].
  set (d2 := mkDaemon _ _ _ _ _ _ _).
  assert (Hlive2 : ∀ x, x ∈ available_kbds d → is_Some (keyboards d2 !! x)).
  { intros x Hx. unfold d2. cbn [keyboards]. rewrite Hst1. unfold d0. cbn [keyboards].
    destruct (Hlive x Hx) as [st ->]. cbn. eauto. }
  destruct (kbd_loop_run (lock_one env) (after_lock env) (lock_calls env)
              (after_lock_idem env) (lock_one_run env) (available_kbds d) d2)
    as (d3 & -> & Hout3 & (Hav3 & Hpu3 & Hks3 & Hpk3) & Hkbd3 & Hst3); [done|].
  exists d3, (loop_calls (unlock_calls env) (after_unlock env) (available_kbds d)
               (keyboards d)),
    (loop_calls (lock_calls env) (after_lock env) (available_kbds d) (keyboards d2)).
  split; [done|]. split.
  { rewrite Hout3. unfold d2. cbn [out]. rewrite Hout1. unfold d0. cbn [out keyboards].
    rewrite <- !app_assoc. done. }
  split.
  { split.
    { unfold unlocked.
      rewrite (loop_calls_omap (after_unlock env) (unlock_calls env) _ (λ _ k, [k]))
        by (done || intros st k; unfold unlock_calls;
            rewrite omap_app; by destruct (unlock_fails env st k)).
      by apply flat_map_live_singleton. }
    split.
    { unfold locked.
      rewrite (loop_calls_omap (after_unlock env) (unlock_calls env) _ (λ _ _, []))
        by (done || intros st k; unfold unlock_calls;
            rewrite omap_app; by destruct (unlock_fails env st k)).
      apply flat_map_live_nil. }
    split.
    { unfold emitted.
      rewrite (loop_calls_omap (after_unlock env) (unlock_calls env) _ (λ _ _, []))
        by (done || intros st k; unfold unlock_calls;
            rewrite omap_app; by destruct (unlock_fails env st k)).
      apply flat_map_live_nil. }
    intros x. unfold disabled.
    rewrite (loop_calls_omap (after_unlock env) (unlock_calls env) _
               (λ st k, if unlock_fails env st k then [k] else [])).
    - rewrite list_elem_of_In, in_flat_map. split.
      + intros (y & Hy & Hx). apply list_elem_of_In in Hy.
        destruct (keyboards d !! y) as [st|] eqn:Hst; cbn in Hx; [|done].
        destruct (unlock_fails env st y) eqn:Hf; [|done].
        destruct Hx as [<-|[]]. eauto.
      + intros (Hx & st & Hst & Hf). exists x. rewrite <- list_elem_of_In.
        split; [done|]. rewrite Hst. cbn. rewrite Hf. by left.
    - intros st k. unfold unlock_calls. rewrite omap_app.
      by destruct (unlock_fails env st k).
    - intros st k. unfold after_unlock, unlock_fails.
      by destruct st, (unlock_ok env k).
    - done. }
  split.
  { split.
    { unfold locked.
      rewrite (loop_calls_omap (after_lock env) (lock_calls env) _ (λ _ k, [k]))
        by (done || intros st k; unfold lock_calls;
            rewrite omap_app; by destruct (lock_fails env st k)).
      by apply flat_map_live_singleton. }
    split.
    { unfold unlocked.
      rewrite (loop_calls_omap (after_lock env) (lock_calls env) _ (λ _ _, []))
        by (done || intros st k; unfold lock_calls;
            rewrite omap_app; by destruct (lock_fails env st k)).
      apply flat_map_live_nil. }
    split.
    { unfold disabled.
      rewrite (loop_calls_omap (after_lock env) (lock_calls env) _ (λ _ _, []))
        by (done || intros st k; unfold lock_calls;
            rewrite omap_app; by destruct (lock_fails env st k)).
      apply flat_map_live_nil. }
    unfold emitted.
    rewrite (loop_calls_omap (after_lock env) (lock_calls env) _ (λ _ _, []))
      by (done || intros st k; unfold lock_calls;
          rewrite omap_app; by destruct (lock_fails env st k)).
    apply flat_map_live_nil. }
  split.
  { unfold same_lists. rewrite Hav3, Hpu3, Hks3, Hpk3. unfold d2.
    cbn [available_kbds pulled_kbds key_sources passthrough_keys].
    rewrite Hpu1, Hks1, Hpk1. done. }
  split.
  { rewrite Hkbd3. unfold d2. cbn [kbd]. by rewrite Hkbd1. }
  split.
  { intros x st Hx Hst. rewrite Hst3. unfold d2. cbn [keyboards].
    rewrite Hst1. unfold d0. cbn [keyboards]. rewrite Hst. cbn.
    by rewrite !decide_True by done. }
  split.
  { unfold recovery_unlock_calls.
    by rewrite (loop_calls_flat_map _ _ (unlock_calls_stable env)). }
  unfold recovery_lock_calls.
  rewrite (loop_calls_flat_map _ _ (lock_calls_stable env)) by done.
  apply flat_map_ext_elem_of. intros x Hx. unfold d2. cbn [keyboards].
  rewrite Hst1. unfold d0. cbn [keyboards].
  destruct (keyboards d !! x); cbn; [|done]. by rewrite decide_True.
Qed.

Lemma peer_exchange_fails env e replies d :
  exchange_fails env replies →
  peer_exchange env (mkAction 0 e) d
  = (Throw SocketError, set_out (λ t, t ++ failed_exchange_calls env e replies) d).
Proof.
  unfold peer_exchange, com_send, failed_exchange_calls.
  intros [[Hsend ->]|(Hsend & Hreplies & rest & Hrecv)]; rewrite Hsend; run_monad.
  - done.
  - rewrite Hrecv, (recv_loop_error replies rest Hreplies). run_monad.
    by rewrite <- !app_assoc.
Qed.

(** The exchange throws nothing but [SocketError], and only in the two
    ways of [exchange_fails]. *)
Lemma recv_loop_throw_inv rets : ∀ count d x d',
  recv_loop rets count d = (Throw x, d') →
  x = SocketError
  ∧ ∃ replies rest, Forall (λ a, done a = 0) replies
                    ∧ rets = (Some <$> replies) ++ None :: rest.
Proof.
  induction rets as [|r rets IH]; intros count d x d'; cbn; run_monad; [done|].
  destruct r as [a|].
  - destruct (Z.eqb_spec (done a) 0) as [Ha|Ha]; cbn; [|done].
    intros H. apply IH in H as (-> & replies & rest & Hreplies & ->).
    split; [done|]. exists (a :: replies), rest. split; [by constructor | done].
  - intros [= <- _]. split; [done|]. by exists [], rets.
Qed.

Lemma peer_exchange_throw_inv env action d x d' :
  peer_exchange env action d = (Throw x, d') →
  x = SocketError ∧ ∃ replies, exchange_fails env replies.
Proof.
  unfold peer_exchange, com_send, exchange_fails. run_monad.
  destruct (send_ok env); run_monad.
  - destruct (recv_loop _ _ _) as [[count|y| |] d1] eqn:Hrecv; try done.
    + destruct (count =? 0)%nat; done.
    + intros [= <- _].
      apply recv_loop_throw_inv in Hrecv as (-> & replies & rest & ? & ?).
      split; [done|]. exists replies. right. eauto.
  - intros [= <- _]. split; [done|]. exists []. by left.
Qed.

Lemma run_loop_step env envs d d' :
  run_iteration env d = (Ok tt, d') →
  run_loop (env :: envs) d = run_loop envs d'.
Proof. intros H. unfold run_loop. cbn [for_each]. unfold bind at 1. by rewrite H. Qed.

(** C1, as the specification states it, fails in one step: a keyboard
    that cannot be locked again is reported and left as it is, it is not
    disabled.  Here [send] fails on a passthrough key, keyboard 1 is
    unlocked, and the kernel then refuses the lock: the keyboard ends
    OPEN and [disable] is never called on it. *)
Lemma relock_failure_does_not_disable :
  let env := turn (Some (key_press 30)) false false [] in
  run_iteration env typing_daemon
  = (Ok tt,
     mkDaemon {[ 1%nat := OPEN ]} [1%nat] [] {[ "/keys/a.csv" := [30] ]} {[ 30 ]}
       (Some 1%nat)
       [KbdGet 1; ComSend (mkAction 0 (key_press 30));
        Cout "Resetting connection ..."; UdevEmit (key_press 30);
        UdevUpAll; UdevFlush; UdevUpAll; UdevFlush;
        Syslog LOG_INFO (MsgUnlocking 1); KbdUnlock 1;
        Syslog LOG_CRIT MsgReconnecting; ComRecon;
        KbdLock 1; Syslog LOG_ERR (MsgUnableToLock 1)])
  ∧ lock_ok env 1 = false
  ∧ keyboards (run_iteration env typing_daemon).2 !! 1%nat ≠ Some DISABLED
  ∧ disabled (out (run_iteration env typing_daemon).2) = [].
Proof.
  intros env.
  assert (H : run_iteration env typing_daemon
  = (Ok tt,
     mkDaemon {[ 1%nat := OPEN ]} [1%nat] [] {[ "/keys/a.csv" := [30] ]} {[ 30 ]}
       (Some 1%nat)
       [KbdGet 1; ComSend (mkAction 0 (key_press 30));
        Cout "Resetting connection ..."; UdevEmit (key_press 30);
        UdevUpAll; UdevFlush; UdevUpAll; UdevFlush;
        Syslog LOG_INFO (MsgUnlocking 1); KbdUnlock 1;
        Syslog LOG_CRIT MsgReconnecting; ComRecon;
        KbdLock 1; Syslog LOG_ERR (MsgUnableToLock 1)]))
    by (vm_compute; reflexivity).
  rewrite H. split; [done|]. split; [done|]. split; [|done].
  cbn [snd keyboards]. by rewrite lookup_singleton_eq.
Qed.

Lemma unable_to_lock_logged env d x :
  Syslog LOG_ERR (MsgUnableToLock x) ∈ recovery_lock_calls env d
  ↔ x ∈ available_kbds d
    ∧ ∃ st, keyboards d !! x = Some st
            ∧ lock_fails env (after_unlock env st x) x = true.
Proof.
  unfold recovery_lock_calls. rewrite list_elem_of_In, in_flat_map. split.
  - intros (y & Hy & Hx). apply list_elem_of_In in Hy.
    destruct (keyboards d !! y) as [st|] eqn:Hst; cbn in Hx; [|done].
    unfold lock_calls in Hx. cbn in Hx. destruct Hx as [Hx|Hx]; [done|].
    destruct (lock_fails env (after_unlock env st y) y) eqn:Hf; [|done].
    destruct Hx as [[= <-]|[]]. eauto.
  - intros (Hx & st & Hst & Hf). exists x. rewrite <- list_elem_of_In.
    split; [done|]. rewrite Hst. cbn. unfold lock_calls. rewrite Hf.
    cbn. right. by left.
Qed.

Lemma recovery_unlock_calls_kinds env d :
  Forall is_unlock_loop_call (recovery_unlock_calls env d).
Proof.
  rewrite Forall_forall. intros c Hc. unfold recovery_unlock_calls in Hc.
  apply list_elem_of_In, in_flat_map in Hc as (k & _ & Hc).
  destruct (keyboards d !! k) as [st|]; cbn in Hc; [|done].
  exists k. destruct Hc as [<-|[<-|Hc]]; [tauto..|].
  destruct (unlock_fails env st k); cbn in Hc; [|done].
  destruct Hc as [<-|[<-|[]]]; tauto.
Qed.

Lemma recovery_lock_calls_kinds env d :
  Forall is_lock_loop_call (recovery_lock_calls env d).
Proof.
  rewrite Forall_forall. intros c Hc. unfold recovery_lock_calls in Hc.
  apply list_elem_of_In, in_flat_map in Hc as (k & _ & Hc).
  destruct (keyboards d !! k) as [st|]; cbn in Hc; [|done].
  exists k. destruct Hc as [<-|Hc]; [tauto|].
  destruct (lock_fails env (after_unlock env st k) k); cbn in Hc; [|done].
  destruct Hc as [<-|[]]; tauto.
Qed.

(** C1, amended.  When the exchange for a passthrough event ends in a
    [SocketError], the turn ends normally and the calls it makes after
    the failure are exactly these, in this order and with nothing in
    between: the original event is emitted, release-all and
    flush are called twice, every active keyboard is unlocked (one that
    cannot be unlocked is reported and disabled), the reconnection is
    logged and the peer channel is reconnected once, and every active
    keyboard is locked again.  A keyboard that cannot be locked again is
    reported in the log right after its lock call, those keyboards are
    the only ones reported, and no keyboard is disabled in this loop.
    The two loops make no other call than those of keyboards and their
    log records, and nothing else is emitted after the failure. *)
Theorem socket_error_recovery (env : LoopEnv) (d : KBDDaemon) (idx k : nat)
    (e : input_event) (replies : list KBDAction) :
  kbdMultiplex_ret env = Some idx →
  available_kbds d !! idx = Some k →
  keyboards d !! k = Some LOCKED →
  get_ret env = Some e →
  code e ∈ passthrough_keys d →
  (∀ x, x ∈ available_kbds d → is_Some (keyboards d !! x)) →
  exchange_fails env replies →
  let unlocks := recovery_unlock_calls env d in
  let locks := recovery_lock_calls env d in
  ∃ d',
    run_iteration env d = (Ok tt, d')
    ∧ out d' = out d ++ [KbdGet k] ++ failed_exchange_calls env e replies
        ++ [Cout "Resetting connection ..."; UdevEmit e;
            UdevUpAll; UdevFlush; UdevUpAll; UdevFlush]
        ++ unlocks ++ [Syslog LOG_CRIT MsgReconnecting; ComRecon] ++ locks
    ∧ (unlocked unlocks = available_kbds d ∧ locked unlocks = []
       ∧ emitted unlocks = []
       ∧ Forall is_unlock_loop_call unlocks
       ∧ ∀ x, x ∈ disabled unlocks
              ↔ x ∈ available_kbds d
                ∧ ∃ st, keyboards d !! x = Some st ∧ unlock_fails env st x = true)
    ∧ (locked locks = available_kbds d ∧ unlocked locks = []
       ∧ disabled locks = [] ∧ emitted locks = []
       ∧ Forall is_lock_loop_call locks
       ∧ ∀ x, Syslog LOG_ERR (MsgUnableToLock x) ∈ locks
              ↔ x ∈ available_kbds d
                ∧ ∃ st, keyboards d !! x = Some st
                        ∧ lock_fails env (after_unlock env st x) x = true)
    ∧ same_lists d d'
    ∧ (∀ x st, x ∈ available_kbds d → keyboards d !! x = Some st →
        keyboards d' !! x = Some (after_lock env (after_unlock env st x) x))
    ∧ ∀ envs, run_loop (env :: envs) d = run_loop envs d'.
Proof.
  intros Hmux Hidx Hst Hget Hcode Hlive Hfail unlocks locks.
  assert (Hrun : ∃ d0, out d0 = out d ++ [KbdGet k]
                                ++ failed_exchange_calls env e replies
             ∧ keyboards d0 = keyboards d
             ∧ available_kbds d0 = available_kbds d
             ∧ same_lists d d0
             ∧ run_iteration env d = on_socket_error env e d0).
  { unfold run_iteration.
    unfold bind at 1. rewrite (read_key_locked env d idx k e) by done.
    run_monad. rewrite bool_decide_eq_true_2 by done.
    rewrite (peer_exchange_fails env e replies _ Hfail). run_monad.
    eexists (mkDaemon _ _ _ _ _ _ _). split; [|done].
    cbn [out]. by rewrite <- !app_assoc. }
  destruct Hrun as (d0 & Hout0 & Hk0 & Ha0 & (_ & Hpu0 & Hks0 & Hpk0) & Hrun).
  destruct (on_socket_error_run env e d0)
    as (d' & unlocks' & locks' & Hrec & Hout & Hun & Hlk
        & (Hav & Hpu & Hks & Hpk) & _ & Hstates & Hun_eq & Hlk_eq).
  { by rewrite Ha0, Hk0. }
  assert (unlocks' = unlocks) as ->.
  { rewrite Hun_eq. unfold unlocks, recovery_unlock_calls. by rewrite Ha0, Hk0. }
  assert (locks' = locks) as ->.
  { rewrite Hlk_eq. unfold locks, recovery_lock_calls. by rewrite Ha0, Hk0. }
  rewrite Ha0 in Hun, Hlk, Hstates. rewrite Hk0 in Hun, Hstates.
  exists d'. split; [by rewrite Hrun|]. split.
  { rewrite Hout, Hout0. by rewrite <- !app_assoc. }
  split.
  { destruct Hun as (? & ? & ? & ?). repeat (split; [done|]).
    split; [apply recovery_unlock_calls_kinds | done]. }
  split.
  { destruct Hlk as (? & ? & ? & ?). repeat (split; [done|]).
    split; [apply recovery_lock_calls_kinds | apply unable_to_lock_logged]. }
  split.
  { unfold same_lists. by rewrite Hav, Hpu, Hks, Hpk, Ha0, Hpu0, Hks0, Hpk0. }
  split; [done|].
  intros envs. apply run_loop_step. by rewrite Hrun.
Qed.

Lemma socket_error_recovery_witness :
  let env := turn (Some (key_press 30)) true true
               [Some (mkAction 0 (key_press 57)); None] in
  let unlocks := recovery_unlock_calls env typing_daemon in
  let locks := recovery_lock_calls env typing_daemon in
  ∃ d',
    run_iteration env typing_daemon = (Ok tt, d')
    ∧ out d' = out typing_daemon ++ [KbdGet 1]
        ++ failed_exchange_calls env (key_press 30) [mkAction 0 (key_press 57)]
        ++ [Cout "Resetting connection ..."; UdevEmit (key_press 30);
            UdevUpAll; UdevFlush; UdevUpAll; UdevFlush]
        ++ unlocks ++ [Syslog LOG_CRIT MsgReconnecting; ComRecon] ++ locks
    ∧ (unlocked unlocks = available_kbds typing_daemon ∧ locked unlocks = []
       ∧ emitted unlocks = []
       ∧ Forall is_unlock_loop_call unlocks
       ∧ ∀ x, x ∈ disabled unlocks
              ↔ x ∈ available_kbds typing_daemon
                ∧ ∃ st, keyboards typing_daemon !! x = Some st
                        ∧ unlock_fails env st x = true)
    ∧ (locked locks = available_kbds typing_daemon ∧ unlocked locks = []
       ∧ disabled locks = [] ∧ emitted locks = []
       ∧ Forall is_lock_loop_call locks
       ∧ ∀ x, Syslog LOG_ERR (MsgUnableToLock x) ∈ locks
              ↔ x ∈ available_kbds typing_daemon
                ∧ ∃ st, keyboards typing_daemon !! x = Some st
                        ∧ lock_fails env (after_unlock env st x) x = true)
    ∧ same_lists typing_daemon d'
    ∧ (∀ x st, x ∈ available_kbds typing_daemon →
        keyboards typing_daemon !! x = Some st →
        keyboards d' !! x = Some (after_lock env (after_unlock env st x) x))
    ∧ ∀ envs, run_loop (env :: envs) typing_daemon = run_loop envs d'.
Proof.
  intros env.
  apply (socket_error_recovery env typing_daemon 0 1 (key_press 30)
           [mkAction 0 (key_press 57)]).
  - reflexivity.
  - reflexivity.
  - reflexivity.
  - reflexivity.
  - simpl. set_solver.
  - intros x Hx. simpl in Hx. apply list_elem_of_singleton in Hx as ->.
    exists LOCKED. reflexivity.
  - right. split; [reflexivity|]. split.
    + constructor; [reflexivity | constructor].
    + exists []. reflexivity.
Defined.

(** An event read from a keyboard that is still OPEN is thrown away:
    the keyboard is locked and nothing is emitted or sent. *)
Lemma event_before_lock_discarded env d idx k e :
  kbdMultiplex_ret env = Some idx →
  available_kbds d !! idx = Some k →
  keyboards d !! k = Some OPEN →
  get_ret env = Some e →
  lock_ok env k = true →
  ∃ d', run_iteration env d = (Ok tt, d')
        ∧ out d' = out d ++ [KbdGet k; KbdLock k]
        ∧ keyboards d' !! k = Some LOCKED.
Proof.
  intros Hmux Hidx Hst Hget Hlock. unfold run_iteration, read_key. run_monad.
  rewrite Hmux, Hidx. run_kbd. rewrite Hst, Hget. run_monad. rewrite Hst.
  run_monad. rewrite Hst, Hlock. run_monad.
  eexists. split; [done|]. cbn. rewrite <- !app_assoc.
  by rewrite lookup_insert_eq.
Qed.

(** * Further properties of the registry *)

Lemma stoi_in_range s v : Stoi.stoi s = Some v → Stoi.INT_MIN ≤ v ≤ Stoi.INT_MAX.
Proof.
  unfold Stoi.stoi.
  destruct (match Stoi.skip_spaces s with
            | String "-"%char r => (true, r)
            | String "+"%char r => (false, r)
            | _ => (false, Stoi.skip_spaces s)
            end) as [neg s2].
  destruct (Stoi.digits s2 None) as [n|]; [|done].
  destruct (Z.leb_spec Stoi.INT_MIN (if neg then - n else n)); [|done].
  destruct (Z.leb_spec (if neg then - n else n) Stoi.INT_MAX); [|done].
  cbn. intros [= <-]. done.
Qed.

Lemma accepted_codes_in_range cells c :
  c ∈ accepted_codes cells → 0 ≤ c ≤ Stoi.INT_MAX.
Proof.
  unfold accepted_codes. rewrite list_elem_of_omap.
  intros (code_s & _ & H).
  destruct (Stoi.stoi code_s) as [i|] eqn:Hs; [|done].
  destruct (Z.leb_spec 0 i); [|done]. injection H as <-.
  apply stoi_in_range in Hs. lia.
Qed.

Lemma codes_in_range_delete sources p :
  codes_in_range sources → codes_in_range (delete p sources).
Proof.
  intros H q vec c Hq. apply (H q vec c).
  destruct (decide (p = q)) as [->|Hne].
  - by rewrite lookup_delete_eq in Hq.
  - by rewrite lookup_delete_ne in Hq.
Qed.

Lemma loadPassthrough_codes_in_range fs rel_path d :
  codes_in_range (key_sources d) →
  codes_in_range (key_sources (loadPassthrough fs rel_path d).2).
Proof.
  intros H. rewrite loadPassthrough_sources.
  destruct (realpath fs rel_path) as [p|]; [|done].
  destruct (csv_key_code fs p) as [e|cells]; [by apply codes_in_range_delete|].
  intros q vec c Hq Hc. destruct (decide (p = q)) as [->|Hne].
  - rewrite lookup_insert_eq in Hq. injection Hq as <-.
    by apply (accepted_codes_in_range cells).
  - rewrite lookup_insert_ne in Hq by done. by apply (H q vec c).
Qed.

Lemma run_op_codes_in_range op d :
  codes_in_range (key_sources d) → codes_in_range (key_sources (run_op op d)).
Proof.
  intros H. destruct op as [fs rel|fs uid e|p|fs uid e]; cbn [run_op].
  - by apply loadPassthrough_codes_in_range.
  - destruct (loadPassthroughEv_cases fs uid e d) as [->|[[x ->]|[s ->]]];
      [|done..].
    by apply loadPassthrough_codes_in_range.
  - rewrite unloadPassthrough_sources. by apply codes_in_range_delete.
  - unfold keys_fsw_callback. run_monad.
    set (d0 := mkDaemon _ _ _ _ _ _ _).
    assert (H0 : codes_in_range (key_sources d0)) by done.
    destruct (negb _).
    + pose proof (unloadPassthrough_sources (path e) d0) as Hs.
      destruct (unloadPassthrough (path e) d0) as [[] d1]; cbn in *;
        rewrite Hs; by apply codes_in_range_delete.
    + destruct (negb _); [|done].
      assert (H1 : codes_in_range (key_sources (loadPassthroughEv fs uid e d0).2)).
      { destruct (loadPassthroughEv_cases fs uid e d0) as [->|[[x ->]|[s ->]]];
          [|done..].
        by apply loadPassthrough_codes_in_range. }
      by destruct (loadPassthroughEv fs uid e d0) as [[] d1].
Qed.

Lemma run_ops_codes_in_range ops : ∀ d,
  codes_in_range (key_sources d) → codes_in_range (key_sources (run_ops ops d)).
Proof.
  unfold run_ops. induction ops as [|op ops IH]; intros d H; cbn; [done|].
  apply IH. by apply run_op_codes_in_range.
Qed.

(** X1. Whatever files are loaded and unloaded, every code of the merged
    set is a non-negative [int]: a cell that [stoi] rejects, or that is
    negative, never enters the allow-list. *)
Theorem merged_codes_in_range (ops : list RegistryOp) (c : Z) :
  c ∈ passthrough_keys (run_ops ops new_daemon) → 0 ≤ c ≤ 2147483647.
Proof.
  intros Hc.
  rewrite (run_ops_inv ops new_daemon new_daemon_inv) in Hc.
  apply elem_of_sources_union in Hc as (p & vec & Hp & Hvec).
  eapply (run_ops_codes_in_range ops new_daemon); [|done..].
  intros q w x Hq. cbn in Hq. by rewrite lookup_empty in Hq.
Qed.

Lemma merged_codes_in_range_witness : 0 ≤ 10 ≤ 2147483647.
Proof.
  apply (merged_codes_in_range scenario_ops 10).
  rewrite (run_ops_inv scenario_ops new_daemon new_daemon_inv).
  apply elem_of_sources_union. exists "/keys/a.csv", [10; 11].
  split; [vm_compute; reflexivity | set_solver].
Defined.

(** X2. A successful load replaces the source of the canonical path: the
    merged set then holds the codes the file lists now and the codes of
    the other live sources, and nothing else.  A code that only the old
    version of the file listed is gone. *)
Theorem reload_replaces_source (ops : list RegistryOp) (fs : FileSystem)
    (rel_path p : string) (cells : list string) :
  realpath fs rel_path = Some p →
  csv_key_code fs p = inr cells →
  let d := run_ops ops new_daemon in
  let d' := (loadPassthrough fs rel_path d).2 in
  key_sources d' = <[p := accepted_codes cells]> (key_sources d)
  ∧ ∀ c, c ∈ passthrough_keys d'
         ↔ c ∈ accepted_codes cells
           ∨ ∃ q vec, q ≠ p ∧ key_sources d !! q = Some vec ∧ c ∈ vec.
Proof.
  intros Hr Hc d d'.
  assert (Hsrc : key_sources d' = <[p := accepted_codes cells]> (key_sources d))
    by (unfold d'; by rewrite loadPassthrough_sources, Hr, Hc).
  split; [done|]. intros c.
  assert (Hinv : registry_inv d') by apply loadPassthrough_inv, run_ops_inv, new_daemon_inv.
  rewrite Hinv, elem_of_sources_union, Hsrc. split.
  - intros (q & vec & Hq & Hvec). destruct (decide (p = q)) as [->|Hne].
    + rewrite lookup_insert_eq in Hq. injection Hq as <-. by left.
    + rewrite lookup_insert_ne in Hq by done. right. by exists q, vec.
  - intros [Hvec|(q & vec & Hne & Hq & Hvec)].
    + exists p, (accepted_codes cells). by rewrite lookup_insert_eq.
    + exists q, vec. by rewrite lookup_insert_ne.
Qed.

Lemma reload_replaces_source_witness :
  let d := run_ops scenario_ops new_daemon in
  let d' := (loadPassthrough scenario_fs "/keys/a.csv" d).2 in
  key_sources d' = <[ "/keys/a.csv" := accepted_codes ["10"; "11"] ]> (key_sources d)
  ∧ ∀ c, c ∈ passthrough_keys d'
         ↔ c ∈ accepted_codes ["10"; "11"]
           ∨ ∃ q vec, q ≠ "/keys/a.csv" ∧ key_sources d !! q = Some vec ∧ c ∈ vec.
Proof.
  apply (reload_replaces_source scenario_ops scenario_fs "/keys/a.csv" "/keys/a.csv"
           ["10"; "11"]); reflexivity.
Defined.

(** X3. Loading a file and then unloading its canonical path leaves the
    registry as unloading alone leaves it; when the path had no source
    before, the sources map and the merged set are back to what they
    were. *)
Theorem load_then_unload (ops : list RegistryOp) (fs : FileSystem)
    (rel_path p : string) :
  realpath fs rel_path = Some p →
  let d := run_ops ops new_daemon in
  let d1 := (loadPassthrough fs rel_path d).2 in
  let d2 := (unloadPassthrough p d1).2 in
  key_sources d2 = key_sources (unloadPassthrough p d).2
  ∧ passthrough_keys d2 = passthrough_keys (unloadPassthrough p d).2
  ∧ (key_sources d !! p = None →
     key_sources d2 = key_sources d ∧ passthrough_keys d2 = passthrough_keys d).
Proof.
  intros Hr d d1 d2.
  assert (Hinv : registry_inv d) by apply run_ops_inv, new_daemon_inv.
  assert (Hsrc : key_sources d2 = key_sources (unloadPassthrough p d).2).
  { unfold d2, d1. rewrite !unloadPassthrough_sources, loadPassthrough_sources, Hr.
    destruct (csv_key_code fs p).
    - apply delete_id, lookup_delete_eq.
    - apply delete_insert_eq. }
  assert (Hkeys : passthrough_keys d2 = passthrough_keys (unloadPassthrough p d).2).
  { pose proof (unloadPassthrough_inv p d1 (loadPassthrough_inv fs rel_path d Hinv)) as H2.
    pose proof (unloadPassthrough_inv p d Hinv) as H0.
    fold d2 in H2. unfold registry_inv in H0, H2. by rewrite H2, H0, Hsrc. }
  split; [done|]. split; [done|].
  intros Hnone. rewrite Hsrc, Hkeys. by rewrite (unloadPassthrough_absent _ _ Hnone).
Qed.

Lemma load_then_unload_witness :
  let d := run_ops [] new_daemon in
  let d1 := (loadPassthrough scenario_fs "/keys/a.csv" d).2 in
  let d2 := (unloadPassthrough "/keys/a.csv" d1).2 in
  key_sources d2 = key_sources (unloadPassthrough "/keys/a.csv" d).2
  ∧ passthrough_keys d2 = passthrough_keys (unloadPassthrough "/keys/a.csv" d).2
  ∧ (key_sources d !! "/keys/a.csv" = None →
     key_sources d2 = key_sources d ∧ passthrough_keys d2 = passthrough_keys d).
Proof.
  apply (load_then_unload [] scenario_fs "/keys/a.csv" "/keys/a.csv"). reflexivity.
Defined.

(** X4. Loads of two files with different canonical paths commute: the
    sources map and the merged set do not depend on which of the two
    filesystem events is handled first. *)
Theorem loads_commute (ops : list RegistryOp) (fs1 fs2 : FileSystem)
    (rel1 rel2 p q : string) :
  realpath fs1 rel1 = Some p →
  realpath fs2 rel2 = Some q →
  p ≠ q →
  let d := run_ops ops new_daemon in
  let d12 := (loadPassthrough fs2 rel2 (loadPassthrough fs1 rel1 d).2).2 in
  let d21 := (loadPassthrough fs1 rel1 (loadPassthrough fs2 rel2 d).2).2 in
  key_sources d12 = key_sources d21 ∧ passthrough_keys d12 = passthrough_keys d21.
Proof.
  intros Hp Hq Hne d d12 d21.
  assert (Hinv : registry_inv d) by apply run_ops_inv, new_daemon_inv.
  assert (Hsrc : key_sources d12 = key_sources d21).
  { unfold d12, d21. rewrite !loadPassthrough_sources, Hp, Hq.
    destruct (csv_key_code fs1 p), (csv_key_code fs2 q).
    - apply delete_delete.
    - by rewrite delete_insert_ne.
    - by rewrite delete_insert_ne.
    - by apply insert_insert_ne. }
  split; [done|].
  assert (H12 : registry_inv d12) by (by do 2 apply loadPassthrough_inv).
  assert (H21 : registry_inv d21) by (by do 2 apply loadPassthrough_inv).
  unfold registry_inv in H12, H21. by rewrite H12, H21, Hsrc.
Qed.

Lemma loads_commute_witness :
  let d := run_ops [] new_daemon in
  let d12 := (loadPassthrough scenario_fs "/keys/b.csv"
                (loadPassthrough scenario_fs "/keys/a.csv" d).2).2 in
  let d21 := (loadPassthrough scenario_fs "/keys/a.csv"
                (loadPassthrough scenario_fs "/keys/b.csv" d).2).2 in
  key_sources d12 = key_sources d21 ∧ passthrough_keys d12 = passthrough_keys d21.
Proof.
  apply (loads_commute [] scenario_fs scenario_fs "/keys/a.csv" "/keys/b.csv"
           "/keys/a.csv" "/keys/b.csv"); [reflexivity | reflexivity | discriminate].
Defined.

Lemma loadPassthroughEv_permitted fs uid e d :
  permitted uid e → loadPassthroughEv fs uid e d = loadPassthrough fs (path e) d.
Proof.
  intros [Hm Hu]. unfold loadPassthroughEv, S_IRWXUGO, MODE_0644.
  by rewrite Hm, Hu, !Z.eqb_refl.
Qed.

Lemma not_permitted_test uid e :
  ¬ permitted uid e →
  (Z.land (st_mode (stbuf e)) S_IRWXUGO =? MODE_0644)
    && (st_uid (stbuf e) =? uid) = false.
Proof.
  intros Hno. unfold S_IRWXUGO, MODE_0644.
  destruct (Z.eqb_spec (Z.land (st_mode (stbuf e)) 511) 420) as [Hm|Hm];
    destruct (Z.eqb_spec (st_uid (stbuf e)) uid) as [Hu|Hu]; cbn [andb]; try done.
  by destruct Hno.
Qed.

Lemma loadPassthroughEv_rejected fs uid e perm_str d :
  ¬ permitted uid e →
  helpers_return fs e perm_str →
  loadPassthroughEv fs uid e d
  = (Ok tt, set_out (λ t, t ++ [Syslog LOG_ERR
                                  (MsgInvalidPermissions (path e) perm_str)]) d).
Proof.
  intros Hno [[grp Hg] Hf].
  by rewrite (loadPassthroughEv_turned_down _ _ _ _ (not_permitted_test _ _ Hno)),
    Hg, Hf.
Qed.

Lemma loadPassthroughEv_helper_throws fs uid e x d :
  ¬ permitted uid e →
  helper_throws fs e x →
  loadPassthroughEv fs uid e d = (Throw x, d).
Proof.
  intros Hno Hx.
  rewrite (loadPassthroughEv_turned_down _ _ _ _ (not_permitted_test _ _ Hno)).
  by destruct Hx as [->|[[grp ->] ->]].
Qed.

(** One file of the initial scan. *)
Lemma loadPassthroughEv_scan fs uid e d :
  csv_errors_caught fs →
  permitted uid e ∨ (∃ perm_str, helpers_return fs e perm_str) →
  registry_inv d →
  sources_from fs (key_sources d) →
  ∃ d', loadPassthroughEv fs uid e d = (Ok tt, d')
        ∧ registry_inv d'
        ∧ sources_from fs (key_sources d')
        ∧ ((key_sources d' = key_sources d ∧ ∀ p cells, ¬ loaded_by fs uid e p cells)
           ∨ ∃ p cells, loaded_by fs uid e p cells
                        ∧ key_sources d' = <[p := accepted_codes cells]> (key_sources d)).
Proof.
  intros Hcaught Hans Hinv Hfrom.
  destruct (decide (permitted uid e)) as [Hperm|Hperm].
  2: { destruct Hans as [?|[perm_str Hret]]; [done|].
       rewrite (loadPassthroughEv_rejected _ _ _ _ _ Hperm Hret). eexists.
       split; [done|]. split; [exact Hinv|]. split; [exact Hfrom|].
       left. split; [reflexivity|].
       intros p cells [? _]. done. }
  pose proof (loadPassthrough_inv fs (path e) d Hinv) as Hinv'.
  pose proof (loadPassthrough_sources fs (path e) d) as Hsrc.
  rewrite (loadPassthroughEv_permitted _ _ _ _ Hperm).
  destruct (realpath fs (path e)) as [p|] eqn:Hr.
  - destruct (csv_key_code fs p) as [x|cells] eqn:Hc.
    + assert (Hnone : key_sources d !! p = None).
      { destruct (key_sources d !! p) as [v|] eqn:Hp; [|done].
        destruct (Hfrom p v Hp) as (cells & Hcells & _). congruence. }
      rewrite delete_id in Hsrc by done.
      assert (Hok : (loadPassthrough fs (path e) d).1 = Ok tt).
      { rewrite (loadPassthrough_csv_throws _ _ _ _ _ Hr Hc).
        destruct (Hcaught p x Hc) as [[what ->]|[what ->]]; done. }
      destruct (loadPassthrough fs (path e) d) as [r d']. cbn in *. subst r.
      exists d'. split; [done|]. split; [done|]. rewrite Hsrc.
      split; [done|]. left. split; [done|].
      intros q cells (_ & Hq & Hcells). congruence.
    + assert (Hok : (loadPassthrough fs (path e) d).1 = Ok tt)
        by (by rewrite (loadPassthrough_cells _ _ _ _ _ Hr Hc)).
      destruct (loadPassthrough fs (path e) d) as [r d']. cbn in *. subst r.
      exists d'. split; [done|]. split; [done|]. rewrite Hsrc. split.
      * intros q v Hq. destruct (decide (p = q)) as [->|Hne].
        -- rewrite lookup_insert_eq in Hq. injection Hq as <-. eauto.
        -- rewrite lookup_insert_ne in Hq by done. by apply Hfrom.
      * right. exists p, cells. done.
  - rewrite (loadPassthrough_no_realpath _ _ _ Hr). eexists.
    split; [done|]. split; [exact Hinv|]. split; [exact Hfrom|].
    left. split; [reflexivity|].
    intros q cells (_ & Hq & _). congruence.
Qed.

Lemma initPassthrough_files fs uid files d :
  initPassthrough fs uid (inr files) d
  = for_each files (loadPassthroughEv fs uid) d.
Proof. reflexivity. Qed.

(** The whole scan. *)
Lemma initPassthrough_scan fs uid : ∀ files d,
  csv_errors_caught fs →
  helpers_answer fs uid files →
  registry_inv d →
  sources_from fs (key_sources d) →
  ∃ d', initPassthrough fs uid (inr files) d = (Ok tt, d')
        ∧ registry_inv d'
        ∧ sources_from fs (key_sources d')
        ∧ ∀ p v, key_sources d' !! p = Some v
                 ↔ key_sources d !! p = Some v
                   ∨ ∃ e cells, e ∈ files ∧ loaded_by fs uid e p cells
                                ∧ v = accepted_codes cells.
Proof.
  intros files d Hcaught Hans Hinv Hfrom. rewrite initPassthrough_files.
  revert d Hcaught Hans Hinv Hfrom.
  induction files as [|e files IH]; intros d Hcaught Hans Hinv Hfrom.
  - exists d. split; [done|]. split; [done|]. split; [done|]. intros p v.
    split; [by left|]. intros [?|(e & cells & He & _)]; [done|].
    by apply elem_of_nil in He.
  - assert (Hans' : helpers_answer fs uid files).
    { intros e' He'. apply Hans. set_solver. }
    destruct (loadPassthroughEv_scan fs uid e d Hcaught) as
      (d1 & Hrun1 & Hinv1 & Hfrom1 & Hsrc1); [apply Hans; set_solver|done..|].
    destruct (IH d1 Hcaught Hans' Hinv1 Hfrom1)
      as (d' & Hrun & Hinv' & Hfrom' & Hsrc').
    exists d'. cbn [for_each]. unfold bind at 1. rewrite Hrun1.
    split; [done|]. split; [done|]. split; [done|].
    intros p v. rewrite Hsrc'. split.
    + intros [Hp|(e' & cells & He' & Hl & ->)].
      * destruct Hsrc1 as [[Heq _]|(p0 & cells0 & Hl0 & Heq)]; rewrite Heq in Hp;
          [by left|].
        destruct (decide (p0 = p)) as [->|Hne].
        -- rewrite lookup_insert_eq in Hp. injection Hp as <-.
           right. exists e, cells0. split; [set_solver | done].
        -- rewrite lookup_insert_ne in Hp by done. by left.
      * right. exists e', cells. split; [set_solver | done].
    + intros [Hp|(e' & cells & He' & Hl & ->)].
      * destruct Hsrc1 as [[Heq _]|(p0 & cells0 & Hl0 & Heq)]; rewrite Heq;
          [by left|].
        left. destruct (decide (p0 = p)) as [->|Hne].
        -- rewrite lookup_insert_eq.
           destruct (Hfrom p v Hp) as (cells & Hcells & ->).
           destruct Hl0 as (_ & _ & Hc0). congruence.
        -- by rewrite lookup_insert_ne.
      * apply elem_of_cons in He' as [->|He'].
        -- left. destruct Hsrc1 as [[_ Hno]|(p0 & cells0 & Hl0 & Heq)].
           ++ by destruct (Hno p cells).
           ++ destruct Hl as (_ & Hr & Hc), Hl0 as (_ & Hr0 & Hc0).
              assert (p0 = p) as -> by congruence.
              rewrite Heq, lookup_insert_eq. congruence.
        -- right. exists e', cells. done.
Qed.

Lemma for_each_app {A} (body : A → M unit) (l1 l2 : list A) d d1 :
  for_each l1 body d = (Ok tt, d1) →
  for_each (l1 ++ l2) body d = for_each l2 body d1.
Proof.
  revert d. induction l1 as [|a l1 IH]; intros d; cbn [for_each app].
  - by intros [= <-].
  - unfold bind. destruct (body a d) as [[[]| | |] d0]; try done.
    apply IH.
Qed.

(** X5. [initPassthrough] on an empty registry, once the watcher has
    returned the files of the directory, when the CSV reader fails with
    the two errors the daemon catches only.  When the helpers
    that format the log record of a file that is turned down return for
    every such file, the scan returns and the registry holds exactly the
    files that have mode 0644, belong to the daemon, resolve and parse:
    one source per canonical path, and a merged set made of their
    accepted codes; a file that fails any of the tests is skipped and
    does not stop the scan.  When a helper throws on a file, the scan
    ends there with that exception, and the registry holds exactly the
    files before it that pass the tests: the files after it are not
    loaded. *)
Theorem initial_scan_registry (fs : FileSystem) (uid : Z) (files : list FSEvent) :
  csv_errors_caught fs →
  helpers_answer fs uid files →
  (∃ d', initPassthrough fs uid (inr files) new_daemon = (Ok tt, d')
         ∧ (∀ p v, key_sources d' !! p = Some v
                   ↔ ∃ e cells, e ∈ files ∧ loaded_by fs uid e p cells
                                ∧ v = accepted_codes cells)
         ∧ (∀ c, c ∈ passthrough_keys d'
                 ↔ ∃ e p cells, e ∈ files ∧ loaded_by fs uid e p cells
                                ∧ c ∈ accepted_codes cells))
  ∧ ∀ e x rest,
      ¬ permitted uid e →
      helper_throws fs e x →
      ∃ d', initPassthrough fs uid (inr (files ++ e :: rest)) new_daemon
            = (Throw x, d')
            ∧ (∀ p v, key_sources d' !! p = Some v
                      ↔ ∃ e cells, e ∈ files ∧ loaded_by fs uid e p cells
                                   ∧ v = accepted_codes cells)
            ∧ (∀ c, c ∈ passthrough_keys d'
                    ↔ ∃ e p cells, e ∈ files ∧ loaded_by fs uid e p cells
                                   ∧ c ∈ accepted_codes cells).
Proof.
  intros Hcaught Hans.
  destruct (initPassthrough_scan fs uid files new_daemon Hcaught Hans
              new_daemon_inv)
    as (d' & Hrun & Hinv & _ & Hsrc).
  { intros p v Hp. cbn in Hp. by rewrite lookup_empty in Hp. }
  assert (Hsrc' : ∀ p v, key_sources d' !! p = Some v
                  ↔ ∃ e cells, e ∈ files ∧ loaded_by fs uid e p cells
                               ∧ v = accepted_codes cells).
  { intros p v. rewrite Hsrc. split; [|by right].
    intros [Hp|?]; [|done]. cbn in Hp. by rewrite lookup_empty in Hp. }
  assert (Hkeys : ∀ c, c ∈ passthrough_keys d'
                ↔ ∃ e p cells, e ∈ files ∧ loaded_by fs uid e p cells
                               ∧ c ∈ accepted_codes cells).
  { intros c. rewrite Hinv, elem_of_sources_union. split.
    - intros (p & v & Hp & Hc). apply Hsrc' in Hp as (e & cells & He & Hl & ->).
      by exists e, p, cells.
    - intros (e & p & cells & He & Hl & Hc). exists p, (accepted_codes cells).
      split; [|done]. apply Hsrc'. by exists e, cells. }
  split.
  { exists d'. done. }
  intros e x rest Hno Hx. exists d'. split; [|done].
  rewrite initPassthrough_files in *. rewrite (for_each_app _ _ _ _ _ Hrun).
  cbn [for_each]. unfold bind at 1.
  by rewrite (loadPassthroughEv_helper_throws _ _ _ _ _ Hno Hx).
Qed.

Lemma scenario_fs_errors_caught : csv_errors_caught scenario_fs.
Proof.
  intros p e H. unfold scenario_fs in H. cbn in H.
  by destruct (String.eqb p "/keys/a.csv").
Qed.

Lemma initial_scan_registry_witness :
  (∃ d', initPassthrough scenario_fs 973 (inr startup_files) new_daemon
         = (Ok tt, d')
         ∧ (∀ p v, key_sources d' !! p = Some v
                   ↔ ∃ e cells, e ∈ startup_files
                                ∧ loaded_by scenario_fs 973 e p cells
                                ∧ v = accepted_codes cells)
         ∧ (∀ c, c ∈ passthrough_keys d'
                 ↔ ∃ e p cells, e ∈ startup_files
                                ∧ loaded_by scenario_fs 973 e p cells
                                ∧ c ∈ accepted_codes cells))
  ∧ ∃ d', initPassthrough no_group_fs 973 (inr startup_files) new_daemon
          = (Throw (SystemError "no such group"), d')
          ∧ (∀ p v, key_sources d' !! p = Some v
                    ↔ ∃ e cells, e ∈ take 2 startup_files
                                 ∧ loaded_by no_group_fs 973 e p cells
                                 ∧ v = accepted_codes cells)
          ∧ (∀ c, c ∈ passthrough_keys d'
                  ↔ ∃ e p cells, e ∈ take 2 startup_files
                                 ∧ loaded_by no_group_fs 973 e p cells
                                 ∧ c ∈ accepted_codes cells).
Proof.
  split.
  - apply (initial_scan_registry scenario_fs 973 startup_files).
    + intros p e H. unfold scenario_fs in H. cbn in H.
      by destruct (String.eqb p "/keys/a.csv").
    + intros e _. right. exists "rw-rw-rw- hawck-input:hawck-input".
      split; [by exists "hawck-input" | reflexivity].
  - apply (proj2 (initial_scan_registry no_group_fs 973 (take 2 startup_files)
                    ltac:(intros p e H; unfold no_group_fs in H; cbn in H;
                          by destruct (String.eqb p "/keys/a.csv"))
                    ltac:(intros e He; left; cbn in He;
                          apply elem_of_cons in He as [->|He];
                          [split; reflexivity|];
                          apply list_elem_of_singleton in He as ->;
                          split; reflexivity))
             (mkFSEvent "/keys/c.csv" IN_CREATE (mkStat 33206 973 973))
             (SystemError "no such group") []).
    + intros [H _]. vm_compute in H. discriminate.
    + left. reflexivity.
Defined.

(** * Frame properties *)

Section keeps_rules.
Context (R : KBDDaemon → KBDDaemon → Prop) `{!PreOrder R}.

Lemma keeps_ret {A} (a : A) : keeps R (ret a).
Proof. intros d r d' [= _ <-]. reflexivity. Qed.

Lemma keeps_throw {A} (e : Exn) : keeps R (@throw A e).
Proof. intros d r d' [= _ <-]. reflexivity. Qed.

Lemma keeps_undefined {A} : keeps R (@undefined A).
Proof. intros d r d' [= _ <-]. reflexivity. Qed.

Lemma keeps_blocked {A} : keeps R (@blocked A).
Proof. intros d r d' [= _ <-]. reflexivity. Qed.

Lemma keeps_get : keeps R get.
Proof. intros d r d' [= _ <-]. reflexivity. Qed.

Lemma keeps_modify (f : KBDDaemon → KBDDaemon) :
  (∀ d, R d (f d)) → keeps R (modify f).
Proof. intros Hf d r d' [= _ <-]. apply Hf. Qed.

Lemma keeps_bind {A B} (m : M A) (k : A → M B) :
  keeps R m → (∀ a, keeps R (k a)) → keeps R (bind m k).
Proof.
  intros Hm Hk d r d'. unfold bind.
  destruct (m d) as [[a|e| |] d1] eqn:Hrun; intros H.
  - transitivity d1; [by eapply Hm | by eapply Hk].
  - injection H as _ <-. by eapply Hm.
  - injection H as _ <-. by eapply Hm.
  - injection H as _ <-. by eapply Hm.
Qed.

(** The continuation may use that the state it reads is the current one. *)
Lemma keeps_bind_get {B} (k : KBDDaemon → M B) :
  (∀ s r d', k s s = (r, d') → R s d') → keeps R (bind get k).
Proof. intros Hk d r d' H. by apply (Hk d r d'). Qed.

Lemma keeps_try_catch {A} (m : M A) (h : Exn → option (M A)) :
  keeps R m → (∀ e handler, h e = Some handler → keeps R handler) →
  keeps R (try_catch m h).
Proof.
  intros Hm Hh d r d'. unfold try_catch.
  destruct (m d) as [[a|e| |] d1] eqn:Hrun; intros H;
    try (injection H as _ <-; by eapply Hm).
  destruct (h e) as [handler|] eqn:He.
  - transitivity d1; [by eapply Hm | by eapply Hh].
  - injection H as _ <-. by eapply Hm.
Qed.

Lemma keeps_for_each {A} (l : list A) (body : A → M unit) :
  (∀ x, keeps R (body x)) → keeps R (for_each l body).
Proof.
  intros Hbody. induction l as [|x l IH]; cbn [for_each].
  - apply keeps_ret.
  - apply keeps_bind; [apply Hbody | intros _; apply IH].
Qed.
End keeps_rules.

Ltac keeps_step close :=
  lazymatch goal with
  | |- keeps ?R (ret _) => apply (keeps_ret R)
  | |- keeps ?R (throw _) => apply (keeps_throw R)
  | |- keeps ?R undefined => apply (keeps_undefined R)
  | |- keeps ?R blocked => apply (keeps_blocked R)
  | |- keeps ?R get => apply (keeps_get R)
  | |- keeps ?R (bind _ _) => apply (keeps_bind R); [|intros ?]
  | |- keeps ?R (try_catch _ _) => apply (keeps_try_catch R); [|intros [] ? [= <-]]
  | |- keeps ?R (for_each _ _) => apply (keeps_for_each R); intros ?
  | |- keeps ?R (modify _) => apply (keeps_modify R); intros ?; close
  | |- keeps _ (match ?x with _ => _ end) => destruct x
  end.

Ltac keeps_auto close :=
  cbv [call syslog com_send kbd_get kbd_getState kbd_setState kbd_lock kbd_unlock
       kbd_disable kbd_reset];
  repeat keeps_step close.

#[local] Instance same_registry_preorder : PreOrder same_registry.
Proof.
  split.
  - by intros d.
  - intros d1 d2 d3 [H1 H2] [H3 H4]. split; congruence.
Qed.

#[local] Instance same_keyboards_preorder : PreOrder same_keyboards.
Proof.
  split.
  - by intros d.
  - intros d1 d2 d3 (H1 & H2 & H3) (H4 & H5 & H6). repeat split; congruence.
Qed.

#[local] Instance sends_within_preorder K : PreOrder (sends_within K).
Proof.
  split.
  - intros d HK. split; [done|]. exists []. by rewrite app_nil_r.
  - intros d1 d2 d3 H12 H23 HK.
    destruct (H12 HK) as (HK2 & calls1 & Hout1 & Hall1).
    destruct (H23 HK2) as (HK3 & calls2 & Hout2 & Hall2).
    split; [done|]. exists (calls1 ++ calls2).
    split; [by rewrite Hout2, Hout1, app_assoc | by apply Forall_app].
Qed.

(** ** The event loop and the registry *)

Lemma wait_permissions_same_registry env input_gid p : ∀ fuel n wait_time,
  keeps same_registry (wait_permissions fuel env input_gid p n wait_time).
Proof.
  induction fuel as [|fuel IH]; intros n wait_time; cbn [wait_permissions];
    keeps_auto ltac:(done). apply IH.
Qed.

Lemma scan_pulled_same_registry env input_gid p : ∀ l i n,
  keeps same_registry (scan_pulled env input_gid p l i n).
Proof.
  induction l as [|k l IH]; intros i n; cbn [scan_pulled];
    keeps_auto ltac:(done).
  - apply wait_permissions_same_registry.
  - apply IH.
Qed.

Lemma input_fsw_callback_same_registry env input_gid e :
  keeps same_registry (input_fsw_callback env input_gid e).
Proof.
  unfold input_fsw_callback. keeps_auto ltac:(done).
  apply scan_pulled_same_registry.
Qed.

Lemma recv_loop_same_registry rets : ∀ count,
  keeps same_registry (recv_loop rets count).
Proof.
  induction rets as [|r rets IH]; intros count; cbn [recv_loop];
    keeps_auto ltac:(done). apply IH.
Qed.

Lemma run_iteration_same_registry env : keeps same_registry (run_iteration env).
Proof.
  unfold run_iteration, read_key, on_keyboard_error, peer_exchange,
    on_socket_error, unlock_one, lock_one.
  keeps_auto ltac:(done); apply recv_loop_same_registry.
Qed.

(** X6. The event loop and the hotplug callback never change the
    registry: after any sequence of turns and hotplug events, however
    each of them ends, the sources map and the merged set are what they
    were.  The allow-list changes through the passthrough files only. *)
Theorem inputs_never_change_registry (xs : list InputEvent) (d : KBDDaemon) :
  key_sources (handle_inputs xs d) = key_sources d
  ∧ passthrough_keys (handle_inputs xs d) = passthrough_keys d.
Proof.
  change (same_registry d (handle_inputs xs d)).
  unfold handle_inputs. revert d. induction xs as [|x xs IH]; intros d; cbn.
  - reflexivity.
  - transitivity (handle_input x d); [|apply IH].
    destruct x as [env|env input_gid e]; cbn.
    + destruct (run_iteration env d) as [r d'] eqn:H.
      by apply (run_iteration_same_registry env d r d').
    + destruct (input_fsw_callback env input_gid e d) as [r d'] eqn:H.
      by apply (input_fsw_callback_same_registry env input_gid e d r d').
Qed.

#[local] Instance registry_only_preorder : PreOrder registry_only.
Proof.
  split.
  - intros d. split; [reflexivity|]. exists []. by rewrite app_nil_r.
  - intros d1 d2 d3 [H1 (c1 & Ho1 & Hf1)] [H2 (c2 & Ho2 & Hf2)].
    split; [by transitivity d2|]. exists (c1 ++ c2).
    split; [by rewrite Ho2, Ho1, app_assoc | by apply Forall_app].
Qed.

Ltac registry_only_close :=
  split; [done|];
  first [ by (exists []; rewrite app_nil_r)
        | (eexists [_]; split; [reflexivity | by repeat constructor]) ].

Lemma unloadPassthrough_registry_only p : keeps registry_only (unloadPassthrough p).
Proof.
  unfold unloadPassthrough. keeps_auto ltac:(registry_only_close).
Qed.

Lemma load_cells_registry_only cells : ∀ cells_i,
  keeps registry_only (load_cells cells cells_i).
Proof.
  induction cells as [|code_s cells IH]; intros cells_i; cbn [load_cells];
    keeps_auto ltac:(registry_only_close); apply IH.
Qed.

Lemma loadPassthrough_registry_only fs rel_path :
  keeps registry_only (loadPassthrough fs rel_path).
Proof.
  unfold loadPassthrough. keeps_auto ltac:(registry_only_close).
  - apply unloadPassthrough_registry_only.
  - apply load_cells_registry_only.
Qed.

Lemma loadPassthroughEv_registry_only fs uid e :
  keeps registry_only (loadPassthroughEv fs uid e).
Proof.
  unfold loadPassthroughEv. keeps_auto ltac:(registry_only_close).
  apply loadPassthrough_registry_only.
Qed.

Lemma keys_fsw_callback_registry_only fs uid e :
  keeps registry_only (keys_fsw_callback fs uid e).
Proof.
  unfold keys_fsw_callback. keeps_auto ltac:(registry_only_close).
  - apply unloadPassthrough_registry_only.
  - apply loadPassthroughEv_registry_only.
Qed.

Lemma run_op_registry_only op d : registry_only d (run_op op d).
Proof.
  destruct op as [fs rel|fs uid e|p|fs uid e]; cbn [run_op].
  - destruct (loadPassthrough fs rel d) as [r d'] eqn:H.
    by apply (loadPassthrough_registry_only fs rel d r d').
  - destruct (loadPassthroughEv fs uid e d) as [r d'] eqn:H.
    by apply (loadPassthroughEv_registry_only fs uid e d r d').
  - destruct (unloadPassthrough p d) as [r d'] eqn:H.
    by apply (unloadPassthrough_registry_only p d r d').
  - destruct (keys_fsw_callback fs uid e d) as [r d'] eqn:H.
    by apply (keys_fsw_callback_registry_only fs uid e d r d').
Qed.

(** X7. Loading and unloading passthrough files never touches a keyboard
    or the lists of active and pending keyboards, and calls nothing but
    syslog and the file watcher: no event is emitted or sent to the macro
    daemon while the registry is updated. *)
Theorem registry_ops_touch_nothing_else (ops : list RegistryOp) (d : KBDDaemon) :
  keyboards (run_ops ops d) = keyboards d
  ∧ available_kbds (run_ops ops d) = available_kbds d
  ∧ pulled_kbds (run_ops ops d) = pulled_kbds d
  ∧ ∃ calls, out (run_ops ops d) = out d ++ calls
             ∧ Forall is_registry_call calls
             ∧ emitted calls = [] ∧ peer_calls calls = [].
Proof.
  assert (H : registry_only d (run_ops ops d)).
  { unfold run_ops. revert d. induction ops as [|op ops IH]; intros d; cbn.
    - reflexivity.
    - transitivity (run_op op d); [apply run_op_registry_only | apply IH]. }
  destruct H as [(Hk & Ha & Hp) (calls & Hout & Hcalls)].
  split; [done|]. split; [done|]. split; [done|].
  exists calls. split; [done|]. split; [done|].
  clear Hout. induction Hcalls as [|c calls Hc _ [IH1 IH2]]; [done|].
  destruct c; try done.
Qed.

(** ** The allow-list gates the peer channel *)

Ltac sends_within_close :=
  let HK := fresh "HK" in
  intros HK; split; [exact HK|];
  first [ by (exists []; rewrite app_nil_r)
        | (eexists [_]; split; [reflexivity | by repeat constructor]) ].

Lemma recv_loop_sends_within K rets : ∀ count,
  keeps (sends_within K) (recv_loop rets count).
Proof.
  induction rets as [|r rets IH]; intros count; cbn [recv_loop];
    keeps_auto ltac:(sends_within_close). apply IH.
Qed.

Lemma read_sends_within K env :
  keeps (sends_within K)
    (try_catch (read_key env)
       (λ x, match x with
             | KeyboardError => Some on_keyboard_error
             | _ => None
             end)).
Proof.
  unfold read_key, on_keyboard_error. keeps_auto ltac:(sends_within_close).
Qed.

Lemma on_socket_error_sends_within K env e :
  keeps (sends_within K) (on_socket_error env e).
Proof.
  unfold on_socket_error, unlock_one, lock_one.
  keeps_auto ltac:(sends_within_close).
Qed.

Lemma run_iteration_sends_within env d :
  keeps (sends_within (passthrough_keys d)) (run_iteration env).
Proof.
  set (K := passthrough_keys d). unfold run_iteration.
  apply (keeps_bind (sends_within K)); [apply read_sends_within|].
  intros [e|]; [|apply (keeps_ret (sends_within K))].
  apply (keeps_bind_get (sends_within K)). intros s r d' Hrun HK.
  cbv zeta in Hrun.
  destruct (bool_decide_reflect (code e ∈ passthrough_keys s)) as [Hin|Hout].
  - assert (HinK : code e ∈ K) by (by rewrite <- HK).
    revert HK. eapply (keeps_try_catch (sends_within K)); [| |exact Hrun].
    + unfold peer_exchange, com_send.
      apply (keeps_bind (sends_within K)).
      * apply (keeps_bind (sends_within K)).
        -- unfold call. apply (keeps_modify (sends_within K)). intros d0 HK0.
           split; [done|]. exists [ComSend (mkAction 0 e)]. split; [done|].
           constructor; [|constructor]. split; done.
        -- intros _. keeps_auto ltac:(sends_within_close).
      * intros _. keeps_auto ltac:(sends_within_close).
        apply recv_loop_sends_within.
    + intros [] handler [= <-]. apply on_socket_error_sends_within.
  - revert HK. revert Hrun. generalize s r d'.
    change (keeps (sends_within K) (call (UdevEmit e) ;; call UdevFlush)).
    keeps_auto ltac:(sends_within_close).
Qed.

(** X8. However a turn of the loop ends, it sends a message to the macro
    daemon only for an event whose code was in the merged passthrough
    set when the turn began, and with [done] clear.  No event outside the
    allow-list crosses to the scripting side. *)
Theorem only_allowed_codes_are_sent (env : LoopEnv) (d : KBDDaemon) :
  ∃ calls,
    out (run_iteration env d).2 = out d ++ calls
    ∧ ∀ a, ComSend a ∈ calls → done a = 0 ∧ code (ev a) ∈ passthrough_keys d.
Proof.
  destruct (run_iteration env d) as [r d'] eqn:Hrun.
  destruct (run_iteration_sends_within env d d r d' Hrun eq_refl)
    as (_ & calls & Hout & Hcalls).
  exists calls. split; [done|]. intros a Ha.
  rewrite Forall_forall in Hcalls. apply (Hcalls (ComSend a) Ha).
Qed.

Lemma only_allowed_codes_are_sent_witness :
  ∃ calls,
    out (run_iteration swallow_turn typing_daemon).2 = out typing_daemon ++ calls
    ∧ ∀ a, ComSend a ∈ calls
           → done a = 0 ∧ code (ev a) ∈ passthrough_keys typing_daemon.
Proof. apply (only_allowed_codes_are_sent swallow_turn typing_daemon). Defined.

(** ** The lists of keyboards *)

Lemma push_if_enabled_run k st d :
  keyboards d !! k = Some st →
  push_if_enabled k d
  = (Ok tt, if decide (st = DISABLED) then d
            else set_available_kbds (λ l, l ++ [k]) d).
Proof.
  intros Hst. unfold push_if_enabled, kbd_isDisabled. run_kbd. rewrite Hst.
  run_monad. destruct (decide (st = DISABLED)) as [->|Hne].
  - by rewrite bool_decide_eq_true_2.
  - by rewrite bool_decide_eq_false_2.
Qed.

Lemma updateAvailableKBDs_loop (h : gmap nat KBDState) : ∀ kbds d,
  keyboards d = h →
  (∀ k, k ∈ kbds → is_Some (h !! k)) →
  for_each kbds push_if_enabled d
  = (Ok tt, set_available_kbds
              (λ l, l ++ filter (λ k, h !! k ≠ Some DISABLED) kbds) d).
Proof.
  induction kbds as [|k kbds IH]; intros d Hh Hlive.
  - cbn [for_each]. rewrite filter_nil. unfold set_available_kbds, ret.
    rewrite app_nil_r. by destruct d.
  - destruct (Hlive k) as [st Hst]; [set_solver|].
    cbn [for_each]. unfold bind at 1.
    rewrite (push_if_enabled_run k st) by (by rewrite Hh).
    rewrite filter_cons.
    destruct (decide (st = DISABLED)) as [->|Hne].
    + rewrite decide_False by (intros H; by apply H).
      rewrite IH; [done|done|]. intros x Hx. apply Hlive. set_solver.
    + rewrite decide_True by congruence.
      rewrite IH; [|done|].
      * run_setters. by rewrite <- app_assoc.
      * intros x Hx. apply Hlive. set_solver.
Qed.

(** X9. [updateAvailableKBDs] throws away the old active list and makes
    it the keyboards of [kbds] that are not disabled, in the order of
    [kbds]; nothing else changes.  When [kbds] holds no keyboard twice
    and no keyboard is pending, the lists of the daemon are well formed
    afterwards. *)
Theorem updateAvailableKBDs_keeps_enabled (kbds : list nat) (d : KBDDaemon) :
  (∀ k, k ∈ kbds → is_Some (keyboards d !! k)) →
  ∃ d', updateAvailableKBDs kbds d = (Ok tt, d')
        ∧ available_kbds d' = filter (λ k, keyboards d !! k ≠ Some DISABLED) kbds
        ∧ (∀ k, k ∈ available_kbds d'
                ↔ k ∈ kbds ∧ keyboards d !! k ≠ Some DISABLED)
        ∧ keyboards d' = keyboards d ∧ pulled_kbds d' = pulled_kbds d
        ∧ out d' = out d
        ∧ (NoDup kbds → pulled_kbds d = [] → lists_ok d').
Proof.
  intros Hlive. unfold updateAvailableKBDs. run_monad.
  rewrite (updateAvailableKBDs_loop (keyboards d)) by done.
  eexists. split; [done|]. run_setters. cbn [app].
  split; [done|]. split; [intros k; rewrite list_elem_of_filter; tauto|].
  split; [done|]. split; [done|]. split; [done|].
  intros Hnd Hnil. unfold lists_ok. cbn. rewrite Hnil, app_nil_r. split.
  - by apply NoDup_filter.
  - intros x Hx. apply list_elem_of_filter in Hx as [_ Hx]. by apply Hlive.
Qed.

Lemma updateAvailableKBDs_keeps_enabled_witness :
  ∃ d', updateAvailableKBDs [1; 2; 3]%nat three_keyboards = (Ok tt, d')
        ∧ available_kbds d'
          = filter (λ k, keyboards three_keyboards !! k ≠ Some DISABLED) [1; 2; 3]%nat
        ∧ (∀ k, k ∈ available_kbds d'
                ↔ k ∈ [1; 2; 3]%nat ∧ keyboards three_keyboards !! k ≠ Some DISABLED)
        ∧ keyboards d' = keyboards three_keyboards
        ∧ pulled_kbds d' = pulled_kbds three_keyboards
        ∧ out d' = out three_keyboards
        ∧ (NoDup [1; 2; 3]%nat → pulled_kbds three_keyboards = [] → lists_ok d').
Proof.
  apply (updateAvailableKBDs_keeps_enabled [1; 2; 3]%nat three_keyboards).
  intros k Hk. apply elem_of_cons in Hk as [->|Hk]; [by exists OPEN|].
  apply elem_of_cons in Hk as [->|Hk]; [by exists DISABLED|].
  apply list_elem_of_singleton in Hk as ->. by exists LOCKED.
Defined.

#[local] Instance lists_kept_preorder : PreOrder lists_kept.
Proof.
  split.
  - by intros d.
  - intros d1 d2 d3 (H1 & H2 & H3) (H4 & H5 & H6).
    split; [congruence|]. split; [congruence|]. intros x Hx. by apply H6, H3.
Qed.

#[local] Instance lists_ok_step_preorder : PreOrder lists_ok_step.
Proof.
  split.
  - by intros d H.
  - intros d1 d2 d3 H12 H23 H. by apply H23, H12.
Qed.

Lemma lists_kept_ok d d' : lists_kept d d' → lists_ok d → lists_ok d'.
Proof.
  intros (Ha & Hp & Hlive) [Hnd Hl]. unfold lists_ok. rewrite Ha, Hp.
  split; [done|]. intros x Hx. by apply Hlive, Hl.
Qed.

Lemma keeps_lists_kept_ok {A} (m : M A) : keeps lists_kept m → keeps lists_ok_step m.
Proof.
  intros H d r d' Hrun Hok. apply (lists_kept_ok d d'); [|done].
  by apply (H d r d').
Qed.

(** Moving one keyboard from a list to the end of the other. *)
Lemma lists_ok_move (d d' : KBDDaemon) (from to from' to' : list nat) i k :
  from !! i = Some k →
  from' = delete i from →
  to' = to ++ [k] →
  (available_kbds d ++ pulled_kbds d ≡ₚ from ++ to) →
  (available_kbds d' ++ pulled_kbds d' ≡ₚ from' ++ to') →
  (∀ x, is_Some (keyboards d !! x) → is_Some (keyboards d' !! x)) →
  lists_ok d → lists_ok d'.
Proof.
  intros Hi -> -> Hperm Hperm' Hlive [Hnd Hl].
  assert (Hsame : available_kbds d' ++ pulled_kbds d'
                  ≡ₚ available_kbds d ++ pulled_kbds d).
  { rewrite Hperm', Hperm. transitivity (k :: delete i from ++ to).
    - rewrite app_assoc. symmetry. apply Permutation_cons_append.
    - change (k :: delete i from ++ to) with ((k :: delete i from) ++ to).
      by rewrite <- (delete_Permutation from i k Hi). }
  unfold lists_ok. split; [by rewrite Hsame|].
  intros x Hx. rewrite Hsame in Hx. by apply Hlive, Hl.
Qed.

Ltac lists_kept_close :=
  split; [done|]; split; [done|];
  let x := fresh "x" in let Hx := fresh "Hx" in
  intros x Hx; cbn;
  first [ exact Hx | apply lookup_insert_is_Some'; by right ].

Lemma on_keyboard_error_lists_ok : keeps lists_ok_step on_keyboard_error.
Proof.
  unfold on_keyboard_error.
  apply (keeps_bind (lists_ok_step)); [apply (keeps_get lists_ok_step)|].
  intros d0. destruct (kbd d0) as [k|]; [|apply (keeps_undefined lists_ok_step)].
  apply (keeps_bind lists_ok_step).
  { apply keeps_lists_kept_ok. keeps_auto ltac:(lists_kept_close). }
  intros _. apply (keeps_bind lists_ok_step).
  { apply keeps_lists_kept_ok. keeps_auto ltac:(lists_kept_close). }
  intros _. apply (keeps_bind_get lists_ok_step). intros s r d'.
  destruct (list_find (λ x, x = k) (available_kbds s)) as [[i x]|] eqn:Hfind;
    run_monad; intros [= _ <-]; [|done].
  apply list_find_Some in Hfind as (Hi & -> & _).
  intros Hok.
  refine (lists_ok_move s _ (available_kbds s) (pulled_kbds s) _ _ i k Hi
            eq_refl eq_refl _ _ _ Hok); cbn; done.
Qed.

Lemma recv_loop_lists_kept rets : ∀ count, keeps lists_kept (recv_loop rets count).
Proof.
  induction rets as [|r rets IH]; intros count; cbn [recv_loop];
    keeps_auto ltac:(lists_kept_close). apply IH.
Qed.

Lemma run_iteration_lists_ok env : keeps lists_ok_step (run_iteration env).
Proof.
  unfold run_iteration. apply (keeps_bind lists_ok_step).
  - apply (keeps_try_catch lists_ok_step).
    + apply keeps_lists_kept_ok. unfold read_key.
      keeps_auto ltac:(lists_kept_close).
    + intros [] handler [= <-]. apply on_keyboard_error_lists_ok.
  - intros key. apply keeps_lists_kept_ok.
    unfold peer_exchange, on_socket_error, unlock_one, lock_one.
    keeps_auto ltac:(lists_kept_close). apply recv_loop_lists_kept.
Qed.

(** ** The hotplug callback *)

Lemma bind_inv {A B} (m : M A) (k : A → M B) d r d' :
  bind m k d = (r, d') →
  (∃ a d1, m d = (Ok a, d1) ∧ k a d1 = (r, d'))
  ∨ (∃ r1, m d = (r1, d') ∧ ∀ a, r1 ≠ Ok a).
Proof.
  unfold bind. destruct (m d) as [[a|e| |] d1]; intros H.
  - left. by exists a, d1.
  - right. injection H as _ <-. by exists (Throw e).
  - right. injection H as _ <-. by exists Undef.
  - right. injection H as _ <-. by exists Blocked.
Qed.

Lemma wait_permissions_lists_kept env input_gid p : ∀ fuel n wait_time,
  keeps lists_kept (wait_permissions fuel env input_gid p n wait_time).
Proof.
  induction fuel as [|fuel IH]; intros n wait_time; cbn [wait_permissions];
    keeps_auto ltac:(lists_kept_close). apply IH.
Qed.

Lemma kbd_reset_lists_kept ok k p : keeps lists_kept (kbd_reset ok k p).
Proof. keeps_auto ltac:(lists_kept_close). Qed.

Lemma kbd_lock_lists_kept ok k : keeps lists_kept (kbd_lock ok k).
Proof. keeps_auto ltac:(lists_kept_close). Qed.

Lemma kbd_lock_Ok ok k d u d' :
  kbd_lock ok k d = (Ok u, d') → keyboards d' !! k = Some LOCKED.
Proof.
  unfold kbd_lock. run_kbd.
  destruct (keyboards d !! k) as [[]|] eqn:Hst; try done.
  - destruct ok; [|done]. intros [= _ <-]. cbn. apply lookup_insert_eq.
  - intros [= _ <-]. done.
Qed.

(** The scan of the pending list: the two lists change only when the
    first pending keyboard that answers [isMe] is reset and locked. *)
Lemma scan_pulled_moves env input_gid p : ∀ l i n d r d',
  drop i (pulled_kbds d) = l →
  scan_pulled env input_gid p l i n d = (r, d') →
  (∀ x, is_Some (keyboards d !! x) → is_Some (keyboards d' !! x))
  ∧ ((available_kbds d' = available_kbds d ∧ pulled_kbds d' = pulled_kbds d)
     ∨ (r = Ok true
        ∧ ∃ j k, (i ≤ j)%nat
            ∧ pulled_kbds d !! j = Some k
            ∧ isMe_ret env k = true
            ∧ (∀ j' k', (i ≤ j' < j)%nat → pulled_kbds d !! j' = Some k' →
                 isMe_ret env k' = false)
            ∧ available_kbds d' = available_kbds d ++ [k]
            ∧ pulled_kbds d' = delete j (pulled_kbds d)
            ∧ keyboards d' !! k = Some LOCKED)).
Proof.
  induction l as [|k l IH]; intros i n d r d' Hdrop Hrun.
  { injection Hrun as <- <-. split; [done|]. by left. }
  cbn [scan_pulled] in Hrun.
  apply bind_inv in Hrun as [(w & d1 & Hwait & Hrest)|(r1 & Hwait & _)].
  2: { destruct (wait_permissions_lists_kept _ _ _ _ _ _ _ _ _ Hwait)
         as (Ha & Hp & Hl). split; [done|]. by left. }
  destruct (wait_permissions_lists_kept _ _ _ _ _ _ _ _ _ Hwait) as (Ha1 & Hp1 & Hl1).
  destruct w as [n'|].
  2: { injection Hrest as <- <-. split; [done|]. by left. }
  assert (Hk : pulled_kbds d !! i = Some k).
  { rewrite <- (Nat.add_0_r i), <- lookup_drop, Hdrop. done. }
  destruct (isMe_ret env k) eqn:Hme.
  - unfold syslog, call in Hrest. unfold bind at 1 in Hrest.
    unfold modify at 1 in Hrest.
    set (d2 := set_out _ d1) in Hrest.
    assert (Ha2 : available_kbds d2 = available_kbds d1) by done.
    assert (Hp2 : pulled_kbds d2 = pulled_kbds d1) by done.
    apply bind_inv in Hrest as [(u & d3 & Hreset & Hrest)|(r1 & Hreset & _)].
    2: { destruct (kbd_reset_lists_kept _ _ _ _ _ _ Hreset) as (Ha & Hp & Hl).
         split; [intros x Hx; by apply Hl, Hl1|]. left. split; congruence. }
    destruct (kbd_reset_lists_kept _ _ _ _ _ _ Hreset) as (Ha3 & Hp3 & Hl3).
    apply bind_inv in Hrest as [(v & d4 & Hlock & Hrest)|(r1 & Hlock & _)].
    2: { destruct (kbd_lock_lists_kept _ _ _ _ _ Hlock) as (Ha & Hp & Hl).
         split; [intros x Hx; by apply Hl, Hl3, Hl1|]. left. split; congruence. }
    destruct (kbd_lock_lists_kept _ _ _ _ _ Hlock) as (Ha4 & Hp4 & Hl4).
    apply kbd_lock_Ok in Hlock.
    revert Hrest. run_monad. intros [= <- <-]. cbn.
    split; [intros x Hx; by apply Hl4, Hl3, Hl1|]. right. split; [done|].
    exists i, k. split; [done|]. split; [done|]. split; [done|].
    split; [intros j' k' Hj'; lia|].
    split; [by rewrite Ha4, Ha3, <- Ha1|]. split; [|done].
    by rewrite Hp4, Hp3, <- Hp1.
  - assert (Hdrop1 : drop (S i) (pulled_kbds d1) = l).
    { rewrite Hp1. rewrite <- (Nat.add_1_r i), <- drop_drop, Hdrop. done. }
    destruct (IH (S i) n' d1 r d' Hdrop1 Hrest) as [Hl' Hcases].
    split; [intros x Hx; by apply Hl', Hl1|].
    destruct Hcases as [[Ha' Hp']|(-> & j & k' & Hj & Hjk & Hme' & Hfirst & Ha' & Hp' & Hst)].
    + left. split; congruence.
    + right. split; [done|]. exists j, k'. rewrite Hp1 in Hjk, Hfirst, Hp'.
      split; [lia|]. split; [done|]. split; [done|]. split.
      * intros j' k'' Hj' Hk''. destruct (decide (j' = i)) as [->|Hne].
        -- congruence.
        -- apply (Hfirst j' k''); [lia | done].
      * split; [congruence|]. done.
Qed.

Lemma input_fsw_callback_moves env input_gid e d r d' :
  input_fsw_callback env input_gid e d = (r, d') →
  (∀ x, is_Some (keyboards d !! x) → is_Some (keyboards d' !! x))
  ∧ ((available_kbds d' = available_kbds d ∧ pulled_kbds d' = pulled_kbds d)
     ∨ (r = Ok true
        ∧ ∃ j k, pulled_kbds d !! j = Some k
            ∧ isMe_ret env k = true
            ∧ (∀ j' k', (j' < j)%nat → pulled_kbds d !! j' = Some k' →
                 isMe_ret env k' = false)
            ∧ available_kbds d' = available_kbds d ++ [k]
            ∧ pulled_kbds d' = delete j (pulled_kbds d)
            ∧ keyboards d' !! k = Some LOCKED)).
Proof.
  unfold input_fsw_callback. destruct (String.eqb (path e) "/dev/input").
  { intros [= <- <-]. split; [done|]. by left. }
  run_monad. set (d0 := mkDaemon _ _ _ _ _ _ _). intros Hrun.
  destruct (scan_pulled_moves env input_gid (path e) (pulled_kbds d) 0 0 d0 r d'
              eq_refl Hrun) as [Hl Hcases].
  split; [done|].
  destruct Hcases as [?|(-> & j & k & _ & Hjk & Hme & Hfirst & Ha & Hp & Hst)];
    [by left|].
  right. split; [done|]. exists j, k. repeat (split; [done|]).
  split; [|done]. intros j' k' Hj'. apply Hfirst. lia.
Qed.

(** X10. A hotplug event changes the lists of keyboards in one way only:
    the first pending keyboard that recognises the node is reset, locked
    and moved to the end of the active list, and then the callback
    returns [true].  However else the callback ends (time-out, a node
    that is no character device, no match, a failed reset or lock), both
    lists are what they were. *)
Theorem hotplug_moves_first_match (env : HotplugEnv) (input_gid : Z)
    (e : FSEvent) (d : KBDDaemon) :
  let r := (input_fsw_callback env input_gid e d).1 in
  let d' := (input_fsw_callback env input_gid e d).2 in
  (available_kbds d' = available_kbds d ∧ pulled_kbds d' = pulled_kbds d)
  ∨ (r = Ok true
     ∧ ∃ j k, pulled_kbds d !! j = Some k
         ∧ isMe_ret env k = true
         ∧ (∀ j' k', (j' < j)%nat → pulled_kbds d !! j' = Some k' →
              isMe_ret env k' = false)
         ∧ available_kbds d' = available_kbds d ++ [k]
         ∧ pulled_kbds d' = delete j (pulled_kbds d)
         ∧ keyboards d' !! k = Some LOCKED).
Proof.
  intros r d'. unfold r, d'.
  destruct (input_fsw_callback env input_gid e d) as [r0 d0] eqn:Hrun.
  apply (input_fsw_callback_moves env input_gid e d r0 d0 Hrun).
Qed.

Lemma input_fsw_callback_lists_ok env input_gid e d :
  lists_ok d → lists_ok (input_fsw_callback env input_gid e d).2.
Proof.
  intros Hok.
  destruct (input_fsw_callback env input_gid e d) as [r d'] eqn:Hrun.
  destruct (input_fsw_callback_moves env input_gid e d r d' Hrun) as [Hl Hcases].
  cbn. destruct Hcases as [[Ha Hp]|(_ & j & k & Hjk & _ & _ & Ha & Hp & _)].
  - by apply (lists_kept_ok d d').
  - refine (lists_ok_move d d' (pulled_kbds d) (available_kbds d) _ _ j k Hjk
              eq_refl eq_refl _ _ Hl Hok).
    + apply Permutation_app_comm.
    + rewrite Ha, Hp. apply Permutation_app_comm.
Qed.

(** X11. The lists of keyboards stay well formed while the daemon runs:
    after any interleaving of turns of the loop, hotplug events and
    passthrough file operations, however each of them ends, no keyboard
    is both active and pending or listed twice, and every listed
    keyboard is a live object. *)
Theorem keyboard_lists_stay_well_formed (xs : list DaemonEvent) (d : KBDDaemon) :
  lists_ok d → lists_ok (handle_all xs d).
Proof.
  unfold handle_all. revert d. induction xs as [|x xs IH]; intros d Hok; [done|].
  cbn. apply IH. destruct x as [[env|env input_gid e]|op]; cbn.
  - destruct (run_iteration env d) as [r d'] eqn:Hrun.
    by apply (run_iteration_lists_ok env d r d' Hrun).
  - by apply input_fsw_callback_lists_ok.
  - destruct (run_op_registry_only op d) as [(Hk & Ha & Hp) _].
    apply (lists_kept_ok d); [|done]. split; [done|]. split; [done|].
    intros x Hx. by rewrite Hk.
Qed.

Lemma keyboard_lists_stay_well_formed_witness :
  lists_ok (handle_all [FromInput (Turn (turn None true true []));
                        FromInput (Hotplug (hotplug_env (Some node_root_input_0600))
                                     104 event9);
                        FromKeysDir (OpUnload "/keys/a.csv")] typing_daemon).
Proof.
  apply (keyboard_lists_stay_well_formed _ typing_daemon).
  split.
  - cbn. apply NoDup_singleton.
  - intros x Hx. cbn in Hx. apply list_elem_of_singleton in Hx as ->.
    by exists LOCKED.
Defined.

(** ** Further properties of a turn *)

(** X12. A keyboard that is not LOCKED never gets an event through: when
    the keyboard picked by the multiplexer is OPEN or DISABLED, the turn
    ends normally, whatever [get] and [lock] answer, and it emits
    nothing and makes no call on the peer channel. *)
Theorem unlocked_keyboard_is_silent (env : LoopEnv) (d : KBDDaemon)
    (idx k : nat) (st : KBDState) :
  kbdMultiplex_ret env = Some idx →
  available_kbds d !! idx = Some k →
  keyboards d !! k = Some st →
  st ≠ LOCKED →
  ∃ d' calls,
    run_iteration env d = (Ok tt, d')
    ∧ out d' = out d ++ calls
    ∧ emitted calls = []
    ∧ peer_calls calls = [].
Proof.
  intros Hmux Hidx Hst Hne.
  assert (Hfind : is_Some (list_find (λ x, x = k) (available_kbds d))).
  { apply (list_find_elem_of _ _ k); [|done]. by eapply list_elem_of_lookup_2. }
  destruct Hfind as [[i x] Hfind].
  unfold run_iteration, read_key, on_keyboard_error. run_monad.
  rewrite Hmux, Hidx. run_kbd. rewrite Hst.
  destruct st; [|done|].
  - destruct (get_ret env) as [e|]; run_kbd.
    + rewrite Hst. run_monad. rewrite Hst. destruct (lock_ok env k); run_kbd.
      * eexists. exists [KbdGet k; KbdLock k]. split; [done|].
        cbn. by rewrite <- !app_assoc.
      * rewrite Hst. run_monad. rewrite Hfind. run_monad. eexists.
        exists [KbdGet k; KbdLock k; Syslog LOG_ERR (MsgReadError k); KbdDisable k].
        split; [done|]. cbn. by rewrite <- !app_assoc.
    + rewrite lookup_insert_eq. run_monad. rewrite Hfind. run_monad. eexists.
      exists [KbdGet k; Syslog LOG_ERR (MsgReadError k); KbdDisable k].
      split; [done|]. cbn. by rewrite <- !app_assoc.
  - destruct (get_ret env); run_monad; rewrite lookup_insert_eq; run_monad;
      rewrite Hfind; run_monad; eexists;
      exists [KbdGet k; Syslog LOG_ERR (MsgReadError k); KbdDisable k];
      (split; [done|]); cbn; by rewrite <- !app_assoc.
Qed.

Lemma unlocked_keyboard_is_silent_witness :
  ∃ d' calls,
    run_iteration (turn (Some (key_press 30)) true true []) three_keyboards
    = (Ok tt, d')
    ∧ out d' = out three_keyboards ++ calls
    ∧ emitted calls = []
    ∧ peer_calls calls = [].
Proof.
  apply (unlocked_keyboard_is_silent (turn (Some (key_press 30)) true true [])
           three_keyboards 0 2 DISABLED); [reflexivity..|discriminate].
Defined.

(** X13. When the keyboard that delivered an event is still OPEN and the
    kernel refuses the lock, the turn handles it as a read error: the
    keyboard is disabled, erased from the active list and appended to
    the pending list, and the event is thrown away. *)
Theorem failed_grab_moves_keyboard_to_pending (env : LoopEnv) (d : KBDDaemon)
    (idx k : nat) (e : input_event) :
  kbdMultiplex_ret env = Some idx →
  available_kbds d !! idx = Some k →
  keyboards d !! k = Some OPEN →
  get_ret env = Some e →
  lock_ok env k = false →
  ∃ d' i,
    run_iteration env d = (Ok tt, d')
    ∧ keyboards d' !! k = Some DISABLED
    ∧ available_kbds d !! i = Some k
    ∧ available_kbds d' = delete i (available_kbds d)
    ∧ pulled_kbds d' = pulled_kbds d ++ [k]
    ∧ out d' = out d ++ [KbdGet k; KbdLock k;
                         Syslog LOG_ERR (MsgReadError k); KbdDisable k].
Proof.
  intros Hmux Hidx Hst Hget Hlock.
  assert (Hfind : is_Some (list_find (λ x, x = k) (available_kbds d))).
  { apply (list_find_elem_of _ _ k); [|done]. by eapply list_elem_of_lookup_2. }
  destruct Hfind as [[i x] Hfind].
  pose proof Hfind as Hfind'. apply list_find_Some in Hfind' as (Hi & -> & _).
  unfold run_iteration, read_key, on_keyboard_error. run_monad.
  rewrite Hmux, Hidx. run_kbd. rewrite Hst, Hget. run_monad. rewrite Hst.
  run_monad. rewrite Hst, Hlock. run_monad. rewrite Hst. run_monad.
  rewrite Hfind. run_monad.
  eexists. exists i. split; [done|]. cbn. rewrite lookup_insert_eq.
  by rewrite <- !app_assoc.
Qed.

Lemma failed_grab_moves_keyboard_to_pending_witness :
  ∃ d' i,
    run_iteration (mkLoopEnv (Some 0%nat) (Some (key_press 30)) (λ _, false)
                     (λ _, true) true [])
      (mkDaemon {[ 1%nat := OPEN ]} [1%nat] [] ∅ ∅ None [])
    = (Ok tt, d')
    ∧ keyboards d' !! 1%nat = Some DISABLED
    ∧ [1%nat] !! i = Some 1%nat
    ∧ available_kbds d' = delete i [1%nat]
    ∧ pulled_kbds d' = [] ++ [1%nat]
    ∧ out d' = [] ++ [KbdGet 1; KbdLock 1;
                      Syslog LOG_ERR (MsgReadError 1); KbdDisable 1].
Proof.
  apply (failed_grab_moves_keyboard_to_pending
           (mkLoopEnv (Some 0%nat) (Some (key_press 30)) (λ _, false)
              (λ _, true) true [])
           (mkDaemon {[ 1%nat := OPEN ]} [1%nat] [] ∅ ∅ None [])
           0 1 (key_press 30)); reflexivity.
Defined.

Lemma emitted_failed_exchange_calls env e replies :
  exchange_fails env replies →
  emitted (failed_exchange_calls env e replies) = ev <$> replies.
Proof.
  unfold failed_exchange_calls.
  intros [[-> ->]|(-> & _ & _)]; [done|].
  cbn. unfold emitted. rewrite omap_app. fold (emitted (reply_calls replies)).
  rewrite emitted_reply_calls. cbn. by rewrite app_nil_r.
Qed.

(** X14. When the exchange with the macro daemon breaks after some
    replies were received, the emitter gets those replies and then the
    original event, in this order, and nothing else: the partial output
    of the macro is not withdrawn. *)
Theorem failed_exchange_emits_replies_then_original (env : LoopEnv)
    (d : KBDDaemon) (idx k : nat) (e : input_event) (replies : list KBDAction) :
  kbdMultiplex_ret env = Some idx →
  available_kbds d !! idx = Some k →
  keyboards d !! k = Some LOCKED →
  get_ret env = Some e →
  code e ∈ passthrough_keys d →
  (∀ x, x ∈ available_kbds d → is_Some (keyboards d !! x)) →
  exchange_fails env replies →
  ∃ d' calls,
    run_iteration env d = (Ok tt, d')
    ∧ out d' = out d ++ calls
    ∧ emitted calls = (ev <$> replies) ++ [e].
Proof.
  intros Hmux Hidx Hst Hget Hcode Hlive Hfail. unfold run_iteration.
  unfold bind at 1. rewrite (read_key_locked env d idx k e) by done.
  run_monad. rewrite bool_decide_eq_true_2 by done.
  rewrite (peer_exchange_fails env e replies _ Hfail). run_monad.
  set (d0 := mkDaemon _ _ _ _ _ _ _).
  destruct (on_socket_error_run env e d0)
    as (d' & unlocks & locks & -> & Hout & (_ & _ & Hun & _) & (_ & _ & _ & Hlk)
        & _); [done|].
  exists d'. eexists. split; [done|]. split.
  - rewrite Hout. unfold d0. cbn [out]. rewrite <- !app_assoc. reflexivity.
  - unfold emitted. rewrite !omap_app. fold (emitted unlocks) (emitted locks).
    fold (emitted (failed_exchange_calls env e replies)).
    rewrite Hun, Hlk, (emitted_failed_exchange_calls env e replies Hfail).
    cbn. by rewrite ?app_nil_r.
Qed.

Lemma failed_exchange_emits_replies_then_original_witness :
  let env := turn (Some (key_press 30)) true true
               [Some (mkAction 0 (key_press 57)); None] in
  ∃ d' calls,
    run_iteration env typing_daemon = (Ok tt, d')
    ∧ out d' = out typing_daemon ++ calls
    ∧ emitted calls = (ev <$> [mkAction 0 (key_press 57)]) ++ [key_press 30].
Proof.
  intros env.
  apply (failed_exchange_emits_replies_then_original env typing_daemon 0 1
           (key_press 30) [mkAction 0 (key_press 57)]).
  - reflexivity.
  - reflexivity.
  - reflexivity.
  - reflexivity.
  - simpl. set_solver.
  - intros x Hx. simpl in Hx. apply list_elem_of_singleton in Hx as ->.
    exists LOCKED. reflexivity.
  - right. split; [reflexivity|]. split.
    + constructor; [reflexivity | constructor].
    + exists []. reflexivity.
Defined.

(** The polls of the wait loop. *)
Lemma wait_permissions_bounded env input_gid p : ∀ fuel n wait_time d,
  wait_time ≤ FSW_MAX_WAIT_PERMISSIONS_US →
  FSW_MAX_WAIT_PERMISSIONS_US < wait_time + 100 * Z.of_nat fuel →
  ∃ r d' polls log,
    wait_permissions fuel env input_gid p n wait_time d = (Ok r, d')
    ∧ (1 ≤ polls ≤ fuel)%nat
    ∧ out d' = out d ++ mjoin (replicate polls [Usleep 100; StatCall p]) ++ log
    ∧ ((r = Some (n + polls)%nat ∧ log = [])
       ∨ (r = None ∧ (log = [Syslog LOG_WARNING (MsgNotCharDevice p)]
                      ∨ log = [Syslog LOG_ERR (MsgNoPermissions p)]))).
Proof.
  induction fuel as [|fuel IH]; intros n wait_time d Hle Hfuel; [lia|].
  cbn [wait_permissions]. run_monad.
  destruct (match stat_ret env n with Some _ => _ | None => _ end).
  { eexists _, _, 1%nat, _. split; [done|]. split; [lia|]. split.
    - cbn. rewrite <- !app_assoc. reflexivity.
    - right. split; [done|]. by left. }
  destruct (Z.gtb_spec (wait_time + 100) FSW_MAX_WAIT_PERMISSIONS_US).
  { eexists _, _, 1%nat, _. split; [done|]. split; [lia|]. split.
    - cbn. rewrite <- !app_assoc. reflexivity.
    - right. split; [done|]. by right. }
  destruct (keep_waiting input_gid (stat_ret env n)).
  - edestruct (IH (S n) (wait_time + 100)) as (r & d' & polls & log & -> & Hp & Hout & Hr);
      [lia..|].
    exists r, d', (S polls), log. split; [done|]. split; [lia|]. split.
    + rewrite Hout. cbn. by rewrite <- !app_assoc.
    + destruct Hr as [[-> ->]|Hr]; [|by right].
      left. split; [|done]. f_equal. lia.
  - eexists _, _, 1%nat, []. split; [done|]. split; [lia|]. split.
    + cbn. rewrite <- !app_assoc. reflexivity.
    + left. split; [|done]. f_equal. lia.
Qed.

(** X15. The wait for the permissions of a node always ends: it polls
    at least once and at most 50001 times, 100 µs apart, so it sleeps
    for 5.0001 s at most, and it ends either with the loop left or with
    the callback given up after one log record. *)
Theorem hotplug_wait_is_bounded (env : HotplugEnv) (input_gid : Z) (p : string)
    (n : nat) (d : KBDDaemon) :
  ∃ r d' polls log,
    wait_permissions MAX_POLLS env input_gid p n 0 d = (Ok r, d')
    ∧ 1 ≤ Z.of_nat polls ≤ 50001
    ∧ 100 * Z.of_nat polls ≤ FSW_MAX_WAIT_PERMISSIONS_US + 100
    ∧ out d' = out d ++ mjoin (replicate polls [Usleep 100; StatCall p]) ++ log
    ∧ ((r = Some (n + polls)%nat ∧ log = [])
       ∨ (r = None ∧ (log = [Syslog LOG_WARNING (MsgNotCharDevice p)]
                      ∨ log = [Syslog LOG_ERR (MsgNoPermissions p)]))).
Proof.
  destruct (wait_permissions_bounded env input_gid p MAX_POLLS n 0 d)
    as (r & d' & polls & log & Hrun & Hp & Hout & Hr).
  - by vm_compute.
  - by vm_compute.
  - exists r, d', polls, log. split; [done|].
    assert (Z.of_nat MAX_POLLS = 50001) by (by vm_compute).
    unfold FSW_MAX_WAIT_PERMISSIONS_US. split; [lia|]. split; [lia|]. done.
Qed.

(** * [Lua::LuaError::fmtError] *)

Example fmtError_lua_message :
  LuaError.fmtError (String.list_ascii_of_string "/long/winding/path/file.lua:12: attempt/to: x")
  = String.list_ascii_of_string "file.lua:12: attempt/to: x".
Proof. reflexivity. Qed.

Lemma scan_no_colon (dir r : list ascii) : ∀ i start,
  ":"%char ∉ dir →
  LuaError.scan (dir ++ "/"%char :: r) i start
  = LuaError.scan r (S (i + length dir)) (S (i + length dir)).
Proof.
  induction dir as [|c dir IH]; intros i start Hdir; cbn.
  - by rewrite Nat.add_0_r.
  - destruct (Ascii.eqb_spec c "/").
    + rewrite IH by set_solver. do 2 f_equal; lia.
    + destruct (Ascii.eqb_spec c ":"); [set_solver|].
      rewrite IH by set_solver. do 2 f_equal; lia.
Qed.

Lemma scan_no_dir (s : list ascii) : ∀ i start,
  LuaError.no_dir s = true → LuaError.scan s i start = start.
Proof.
  induction s as [|c s IH]; intros i start; cbn; [done|].
  destruct (Ascii.eqb c "/"); [done|]. destruct (Ascii.eqb c ":"); [done|].
  apply IH.
Qed.

Lemma no_dir_base (base tail : list ascii) :
  "/"%char ∉ base →
  (tail = [] ∨ ∃ msg, tail = ":"%char :: msg) →
  LuaError.no_dir (base ++ tail) = true.
Proof.
  intros Hbase Htail. induction base as [|c base IH]; cbn.
  - destruct Htail as [->|[msg ->]]; done.
  - destruct (Ascii.eqb_spec c "/"); [set_solver|].
    destruct (Ascii.eqb c ":"); [done|]. apply IH. set_solver.
Qed.

(** X16. [fmtError] strips the directory of a Lua error message: for a
    message made of a directory without [':'], a ['/'], a file name
    without ['/'], and then nothing or a [':'] and any text, it returns
    the file name and what follows it (read as a C string).  Slashes
    and colons after the first [':'] are left alone. *)
Theorem fmtError_strips_directory (dir base tail : list ascii) :
  ":"%char ∉ dir →
  "/"%char ∉ base →
  (tail = [] ∨ ∃ msg, tail = ":"%char :: msg) →
  LuaError.fmtError (dir ++ "/"%char :: base ++ tail)
  = LuaError.c_str (base ++ tail).
Proof.
  intros Hdir Hbase Htail. unfold LuaError.fmtError.
  rewrite scan_no_colon by done.
  rewrite scan_no_dir by (by apply no_dir_base).
  f_equal. cbn.
  change ("/"%char :: base ++ tail) with (["/"%char] ++ base ++ tail).
  rewrite app_assoc, drop_app_length'; [done|].
  rewrite length_app. cbn. lia.
Qed.

Lemma fmtError_strips_directory_witness :
  LuaError.fmtError (String.list_ascii_of_string "/usr/share/hawck" ++ "/"%char
                       :: String.list_ascii_of_string "init.lua"
                       ++ String.list_ascii_of_string ": unexpected symbol")
  = LuaError.c_str (String.list_ascii_of_string "init.lua"
                      ++ String.list_ascii_of_string ": unexpected symbol").
Proof.
  apply (fmtError_strips_directory (String.list_ascii_of_string "/usr/share/hawck")
           (String.list_ascii_of_string "init.lua")
           (String.list_ascii_of_string ": unexpected symbol")).
  - vm_compute. set_solver.
  - vm_compute. set_solver.
  - right. eexists. reflexivity.
Defined.

(** What the loop leaves after [start] has no directory part. *)
Lemma scan_leaves_no_dir (s : list ascii) : ∀ pre seg,
  Forall (λ c, c ≠ "/"%char ∧ c ≠ ":"%char) seg →
  LuaError.no_dir
    (drop (LuaError.scan s (length pre + length seg) (length pre))
       (pre ++ seg ++ s)) = true.
Proof.
  induction s as [|c s IH]; intros pre seg Hseg; cbn [LuaError.scan].
  - rewrite app_nil_r, drop_app_length. clear -Hseg.
    induction Hseg as [|c seg [H1 H2] _ IH]; [done|]. cbn.
    destruct (Ascii.eqb_spec c "/"); [done|].
    destruct (Ascii.eqb_spec c ":"); done.
  - destruct (Ascii.eqb_spec c "/") as [->|Hslash].
    + specialize (IH (pre ++ seg ++ ["/"%char]) [] ltac:(constructor)).
      rewrite !length_app in IH. cbn in IH.
      replace (length pre + (length seg + 1) + 0)%nat
        with (S (length pre + length seg)) in IH by lia.
      replace (length pre + (length seg + 1))%nat
        with (S (length pre + length seg)) in IH by lia.
      rewrite <- !app_assoc in IH. exact IH.
    + destruct (Ascii.eqb_spec c ":") as [->|Hcolon].
      * rewrite drop_app_length. clear -Hseg.
        induction Hseg as [|c seg [H1 H2] _ IH]; [done|]. cbn.
        destruct (Ascii.eqb_spec c "/"); [done|].
        destruct (Ascii.eqb_spec c ":"); done.
      * specialize (IH pre (seg ++ [c])).
        rewrite length_app in IH. cbn in IH.
        replace (length pre + (length seg + 1))%nat
          with (S (length pre + length seg)) in IH by lia.
        rewrite <- !app_assoc in IH. apply IH.
        apply Forall_app. split; [done|]. by repeat constructor.
Qed.

Lemma no_dir_c_str (s : list ascii) :
  LuaError.no_dir s = true → LuaError.no_dir (LuaError.c_str s) = true.
Proof.
  induction s as [|c s IH]; cbn; [done|].
  destruct (Ascii.eqb c "000"); [done|]. cbn.
  destruct (Ascii.eqb c "/"); [done|]. destruct (Ascii.eqb c ":"); [done|].
  apply IH.
Qed.

Lemma c_str_idem (s : list ascii) :
  LuaError.c_str (LuaError.c_str s) = LuaError.c_str s.
Proof.
  induction s as [|c s IH]; cbn; [done|].
  destruct (Ascii.eqb c "000") eqn:H; [done|]. cbn. by rewrite H, IH.
Qed.

(** X17. What [fmtError] returns never has a ['/'] before its first
    [':'], it is a part of the message that ends where the message ends
    or at a NUL, and formatting it again changes nothing. *)
Theorem fmtError_idempotent (expl : list ascii) :
  LuaError.no_dir (LuaError.fmtError expl) = true
  ∧ (∃ n, LuaError.fmtError expl = LuaError.c_str (drop n expl))
  ∧ LuaError.fmtError (LuaError.fmtError expl) = LuaError.fmtError expl.
Proof.
  assert (Hno : LuaError.no_dir (LuaError.fmtError expl) = true).
  { unfold LuaError.fmtError. apply no_dir_c_str.
    apply (scan_leaves_no_dir expl [] []). constructor. }
  split; [done|]. split; [by eexists|].
  unfold LuaError.fmtError at 1. rewrite scan_no_dir by done.
  rewrite drop_0. unfold LuaError.fmtError. apply c_str_idem.
Qed.

(** * Exceptions that escape *)

Section throws_rules.
Context (P : Exn → Prop).

Lemma throws_only_ret {A} (a : A) : throws_only P (ret a).
Proof. by intros d e d'. Qed.

Lemma throws_only_get : throws_only P get.
Proof. by intros d e d'. Qed.

Lemma throws_only_modify f : throws_only P (modify f).
Proof. by intros d e d'. Qed.

Lemma throws_only_undefined {A} : throws_only P (@undefined A).
Proof. by intros d e d'. Qed.

Lemma throws_only_blocked {A} : throws_only P (@blocked A).
Proof. by intros d e d'. Qed.

Lemma throws_only_throw {A} e : P e → throws_only P (@throw A e).
Proof. intros He d e' d' [= <- _]. done. Qed.

Lemma throws_only_bind {A B} (m : M A) (k : A → M B) :
  throws_only P m → (∀ a, throws_only P (k a)) → throws_only P (bind m k).
Proof.
  intros Hm Hk d e d'. unfold bind.
  destruct (m d) as [[a|x| |] d1] eqn:Hrun; intros H; try done.
  - by eapply Hk.
  - injection H as <- _. by eapply Hm.
Qed.

Lemma throws_only_try_catch {A} (Q : Exn → Prop) (m : M A) h :
  throws_only Q m →
  (∀ e, Q e → match h e with
              | Some handler => throws_only P handler
              | None => P e
              end) →
  throws_only P (try_catch m h).
Proof.
  intros Hm Hh d e d'. unfold try_catch.
  destruct (m d) as [[a|x| |] d1] eqn:Hrun; intros H; try done.
  specialize (Hh x (Hm _ _ _ Hrun)).
  destruct (h x) as [handler|].
  - by eapply Hh.
  - by injection H as <- _.
Qed.

Lemma throws_only_for_each {A} (l : list A) (body : A → M unit) :
  (∀ x, throws_only P (body x)) → throws_only P (for_each l body).
Proof.
  intros Hbody. induction l as [|x l IH]; cbn [for_each].
  - apply throws_only_ret.
  - apply throws_only_bind; [apply Hbody | intros _; apply IH].
Qed.
End throws_rules.

Ltac throws_step close :=
  lazymatch goal with
  | |- throws_only ?P (ret _) => apply (throws_only_ret P)
  | |- throws_only ?P get => apply (throws_only_get P)
  | |- throws_only ?P (modify _) => apply (throws_only_modify P)
  | |- throws_only ?P undefined => apply (throws_only_undefined P)
  | |- throws_only ?P blocked => apply (throws_only_blocked P)
  | |- throws_only ?P (throw _) => apply (throws_only_throw P); close
  | |- throws_only ?P (bind _ _) => apply (throws_only_bind P); [|intros ?]
  | |- throws_only ?P (for_each _ _) => apply (throws_only_for_each P); intros ?
  | |- throws_only _ (match ?x with _ => _ end) => destruct x
  end.

Ltac throws_auto close :=
  cbv [call syslog com_send kbd_get kbd_getState kbd_setState kbd_lock kbd_unlock
       kbd_disable kbd_reset];
  repeat throws_step close.

Lemma read_key_throws env : throws_only (λ e, e = KeyboardError) (read_key env).
Proof. unfold read_key. throws_auto ltac:(reflexivity). Qed.

Lemma on_keyboard_error_throws : throws_only never on_keyboard_error.
Proof. unfold on_keyboard_error. throws_auto ltac:(fail). Qed.

Lemma recv_loop_throws rets : ∀ count,
  throws_only (λ e, e = SocketError) (recv_loop rets count).
Proof.
  induction rets as [|r rets IH]; intros count; cbn [recv_loop];
    throws_auto ltac:(reflexivity). apply IH.
Qed.

Lemma peer_exchange_throws env action :
  throws_only (λ e, e = SocketError) (peer_exchange env action).
Proof.
  unfold peer_exchange. throws_auto ltac:(reflexivity). apply recv_loop_throws.
Qed.

Lemma on_socket_error_throws env e : throws_only never (on_socket_error env e).
Proof.
  unfold on_socket_error. throws_auto ltac:(fail).
  - unfold unlock_one.
    apply (throws_only_try_catch never (λ e, e = KeyboardError)).
    + throws_auto ltac:(reflexivity).
    + intros ? ->. throws_auto ltac:(fail).
  - unfold lock_one.
    apply (throws_only_try_catch never (λ e, e = KeyboardError)).
    + throws_auto ltac:(reflexivity).
    + intros ? ->. throws_auto ltac:(fail).
Qed.

Lemma run_iteration_throws env : throws_only never (run_iteration env).
Proof.
  unfold run_iteration. apply (throws_only_bind never).
  - apply (throws_only_try_catch never (λ e, e = KeyboardError)).
    + apply read_key_throws.
    + intros ? ->. apply on_keyboard_error_throws.
  - intros [e|]; [|apply (throws_only_ret never)].
    apply (throws_only_bind never); [apply (throws_only_get never)|]. intros s.
    cbv zeta. destruct (bool_decide _).
    + apply (throws_only_try_catch never (λ e, e = SocketError)).
      * apply peer_exchange_throws.
      * intros ? ->. apply on_socket_error_throws.
    + throws_auto ltac:(fail).
Qed.

(** X18. No [KeyboardError] and no [SocketError] escapes the loop of
    [run]: every call that can throw one is inside a try block that
    catches it, the calls made by the catch blocks included.  So the loop
    is never left by an exception of these kinds, for any number of
    turns and any answers of keyboards, kernel and macro daemon. *)
Theorem loop_never_throws (envs : list LoopEnv) (d : KBDDaemon) (e : Exn) :
  (run_loop envs d).1 ≠ Throw e.
Proof.
  intros H. destruct (run_loop envs d) as [r d'] eqn:Hrun. cbn in H. subst r.
  refine (throws_only_for_each never envs run_iteration _ d e d' Hrun).
  apply run_iteration_throws.
Qed.

Lemma loop_never_throws_witness :
  (run_loop [swallow_turn; turn None true true []] typing_daemon).1
  ≠ Throw KeyboardError.
Proof.
  apply (loop_never_throws [swallow_turn; turn None true true []] typing_daemon
           KeyboardError).
Defined.

Lemma unloadPassthrough_throws p : throws_only never (unloadPassthrough p).
Proof. unfold unloadPassthrough. throws_auto ltac:(fail). Qed.

Lemma load_cells_throws cells : ∀ cells_i, throws_only never (load_cells cells cells_i).
Proof.
  induction cells as [|code_s cells IH]; intros cells_i; cbn [load_cells];
    throws_auto ltac:(fail); apply IH.
Qed.

Lemma loadPassthrough_throws fs rel_path :
  throws_only (λ e, ¬ caught_by_load e) (loadPassthrough fs rel_path).
Proof.
  unfold loadPassthrough.
  apply (throws_only_try_catch _ (λ _, True)).
  - by intros d e d'.
  - intros [] _; cbn; try (by intros []); throws_auto ltac:(fail).
Qed.

Lemma throws_only_mono {A} (P Q : Exn → Prop) (m : M A) :
  (∀ x, P x → Q x) → throws_only P m → throws_only Q m.
Proof. intros HPQ Hm d x d' H. apply HPQ. by apply (Hm d x d'). Qed.

Lemma loadPassthroughEv_throws fs uid e :
  throws_only (escapes_load fs uid e) (loadPassthroughEv fs uid e).
Proof.
  intros d x d' H. destruct (decide (permitted uid e)) as [Hperm|Hperm].
  - rewrite (loadPassthroughEv_permitted _ _ _ _ Hperm) in H. left.
    by apply (loadPassthrough_throws fs (path e) d x d').
  - right. split; [done|].
    rewrite (loadPassthroughEv_turned_down _ _ _ _ (not_permitted_test _ _ Hperm))
      in H.
    unfold helper_throws.
    destruct (getgroup fs _) as [x1|grp]; [left; congruence|].
    destruct (fmtPermissions fs _) as [x2|perm_str]; [|done].
    right. split; [by exists grp | congruence].
Qed.

Lemma keys_fsw_callback_throws fs uid e :
  throws_only (escapes_load fs uid e) (keys_fsw_callback fs uid e).
Proof.
  unfold keys_fsw_callback. throws_auto ltac:(fail).
  - intros d0 e0 d1 H. by destruct (unloadPassthrough_throws _ _ _ _ H).
  - apply loadPassthroughEv_throws.
Qed.

Lemma initPassthrough_throws fs uid files :
  throws_only (λ x, ∃ f, f ∈ files ∧ escapes_load fs uid f x)
    (for_each files (loadPassthroughEv fs uid)).
Proof.
  induction files as [|f files IH]; cbn [for_each].
  - by intros d x d'.
  - apply throws_only_bind.
    + apply (throws_only_mono (escapes_load fs uid f));
        [|apply loadPassthroughEv_throws].
      intros x Hx. exists f. split; [set_solver | done].
    + intros _. refine (throws_only_mono _ _ _ _ IH).
      intros x (f' & Hf' & Hx). exists f'. split; [set_solver | done].
Qed.

(** X19. Where a [CSVError] or a [SystemError] can leave the registry.
    The load by path and the unload never end with one, whatever
    [realpath] and the CSV reader do.  The load by filesystem event and
    the watcher callback end with one only when the file fails the
    permission test and one of the two helpers that format its log
    record throws it.  [initPassthrough] ends with one only when the
    listing of the directory throws it, or when a helper throws it on a
    file of the listing that fails the permission test. *)
Theorem registry_errors_escape_from_helpers_only (fs : FileSystem) (uid : Z)
    (e : FSEvent) (rel_path : string) (addFrom : Exn + list FSEvent)
    (d : KBDDaemon) (x : Exn) :
  caught_by_load x →
  (loadPassthrough fs rel_path d).1 ≠ Throw x
  ∧ (unloadPassthrough rel_path d).1 ≠ Throw x
  ∧ ((loadPassthroughEv fs uid e d).1 = Throw x
     → ¬ permitted uid e ∧ helper_throws fs e x)
  ∧ ((keys_fsw_callback fs uid e d).1 = Throw x
     → ¬ permitted uid e ∧ helper_throws fs e x)
  ∧ ((initPassthrough fs uid addFrom d).1 = Throw x
     → addFrom = inl x
       ∨ ∃ files f, addFrom = inr files ∧ f ∈ files
                    ∧ ¬ permitted uid f ∧ helper_throws fs f x).
Proof.
  intros Hx.
  assert (Hgen : ∀ {A} (P : Exn → Prop) (m : M A),
             throws_only P m → (m d).1 = Throw x → P x).
  { intros A P m Hm H. destruct (m d) as [r d'] eqn:Hrun. cbn in H. subst r.
    by apply (Hm d x d' Hrun). }
  split.
  { intros H. by apply (Hgen _ _ _ (loadPassthrough_throws fs rel_path) H). }
  split.
  { intros H. by apply (Hgen _ _ _ (unloadPassthrough_throws rel_path) H). }
  split.
  { intros H. by destruct (Hgen _ _ _ (loadPassthroughEv_throws fs uid e) H). }
  split.
  { intros H. by destruct (Hgen _ _ _ (keys_fsw_callback_throws fs uid e) H). }
  destruct addFrom as [x0|files].
  - cbn. intros [= ->]. by left.
  - rewrite initPassthrough_files. intros H. right.
    destruct (Hgen _ _ _ (initPassthrough_throws fs uid files) H)
      as (f & Hf & [?|[? ?]]); [done|].
    by exists files, f.
Qed.

Lemma registry_errors_escape_from_helpers_only_witness :
  let x := SystemError "no such group" in
  (loadPassthrough no_group_fs "/keys/a.csv" new_daemon).1 ≠ Throw x
  ∧ (unloadPassthrough "/keys/a.csv" new_daemon).1 ≠ Throw x
  ∧ ((loadPassthroughEv no_group_fs 973 a_csv_0666 new_daemon).1 = Throw x
     → ¬ permitted 973 a_csv_0666 ∧ helper_throws no_group_fs a_csv_0666 x)
  ∧ ((keys_fsw_callback no_group_fs 973 a_csv_0666 new_daemon).1 = Throw x
     → ¬ permitted 973 a_csv_0666 ∧ helper_throws no_group_fs a_csv_0666 x)
  ∧ ((initPassthrough no_group_fs 973 (inr startup_files) new_daemon).1 = Throw x
     → (inr startup_files : Exn + list FSEvent) = inl x
       ∨ ∃ files f, (inr startup_files : Exn + list FSEvent) = inr files
                    ∧ f ∈ files
                    ∧ ¬ permitted 973 f ∧ helper_throws no_group_fs f x).
Proof.
  intros x.
  apply (registry_errors_escape_from_helpers_only no_group_fs 973 a_csv_0666
           "/keys/a.csv" (inr startup_files) new_daemon x).
  exact I.
Defined.

(** * The buffer of the synthetic device *)

Lemma bind_Ok_inv {A B} (m : M A) (k : A → M B) d b d' :
  bind m k d = (Ok b, d') →
  ∃ a d1, m d = (Ok a, d1) ∧ k a d1 = (Ok b, d').
Proof.
  unfold bind. destruct (m d) as [[a|e| |] d1]; intros H; try done.
  by exists a, d1.
Qed.

Lemma try_catch_Ok_inv {A} (m : M A) h d a d' :
  try_catch m h d = (Ok a, d') →
  m d = (Ok a, d')
  ∨ ∃ e d1 handler, m d = (Throw e, d1) ∧ h e = Some handler
                    ∧ handler d1 = (Ok a, d').
Proof.
  unfold try_catch. destruct (m d) as [[x|e| |] d1]; intros H; try done.
  - by left.
  - destruct (h e) as [handler|] eqn:He; [|done]. right. by exists e, d1, handler.
Qed.

#[local] Instance no_buffering_preorder : PreOrder no_buffering.
Proof.
  split.
  - intros d. exists []. by rewrite app_nil_r.
  - intros d1 d2 d3 (c1 & H1 & F1) (c2 & H2 & F2). exists (c1 ++ c2).
    split; [by rewrite H2, H1, app_assoc | by apply Forall_app].
Qed.

#[local] Instance grows_preorder : PreOrder grows.
Proof.
  split.
  - intros d. exists []. by rewrite app_nil_r.
  - intros d1 d2 d3 (c1 & H1) (c2 & H2). exists (c1 ++ c2).
    by rewrite H2, H1, app_assoc.
Qed.

Ltac no_buffering_close :=
  first [ by (exists []; rewrite app_nil_r)
        | (eexists [_]; split; [reflexivity | by repeat constructor]) ].

Ltac grows_close :=
  first [ by (exists []; rewrite app_nil_r) | by eexists [_] ].

Lemma read_no_buffering env :
  keeps no_buffering
    (try_catch (read_key env)
       (λ x, match x with
             | KeyboardError => Some on_keyboard_error
             | _ => None
             end)).
Proof.
  unfold read_key, on_keyboard_error. keeps_auto ltac:(no_buffering_close).
Qed.

Lemma recovery_loops_no_buffering env : keeps no_buffering (recovery_loops env).
Proof.
  unfold recovery_loops, unlock_one, lock_one.
  keeps_auto ltac:(no_buffering_close).
Qed.

Lemma recv_loop_grows rets : ∀ count, keeps grows (recv_loop rets count).
Proof.
  induction rets as [|r rets IH]; intros count; cbn [recv_loop];
    keeps_auto ltac:(grows_close). apply IH.
Qed.

Lemma peer_exchange_grows env action : keeps grows (peer_exchange env action).
Proof.
  unfold peer_exchange. keeps_auto ltac:(grows_close). apply recv_loop_grows.
Qed.

Lemma peer_exchange_Ok_flushed env action d u d' :
  peer_exchange env action d = (Ok u, d') →
  ∃ pre post, out d' = out d ++ pre ++ UdevFlush :: post
              ∧ Forall (λ c, buffers c = false) post.
Proof.
  unfold peer_exchange. intros H.
  apply bind_Ok_inv in H as (u1 & d1 & Hsend & H).
  apply bind_Ok_inv in H as (count & d2 & Hrecv & H).
  assert (Hg : grows d d2).
  { transitivity d1.
    - assert (Hk : keeps grows (com_send (send_ok env) action))
        by keeps_auto ltac:(grows_close).
      by eapply Hk.
    - by eapply recv_loop_grows. }
  destruct Hg as (pre & Hpre). revert H. run_monad.
  destruct (count =? 0)%nat; run_monad; intros Heq; apply (f_equal snd) in Heq;
    cbn in Heq; subst d'; cbn; rewrite Hpre.
  - exists pre, [Cout "MacroD swallowed event"].
    split; [by rewrite <- !app_assoc | by repeat constructor].
  - exists pre, []. split; [by rewrite <- !app_assoc | constructor].
Qed.

Lemma on_socket_error_flushed env e d r d' :
  on_socket_error env e d = (r, d') →
  ∃ post, out d' = out d
            ++ [Cout "Resetting connection ..."; UdevEmit e;
                UdevUpAll; UdevFlush; UdevUpAll]
            ++ UdevFlush :: post
          ∧ Forall (λ c, buffers c = false) post.
Proof.
  change (on_socket_error env e)
    with (call (Cout "Resetting connection ...") ;; call (UdevEmit e) ;;
          call UdevUpAll ;; call UdevFlush ;; call UdevUpAll ;; call UdevFlush ;;
          recovery_loops env).
  run_monad. intros H.
  destruct (recovery_loops_no_buffering env _ _ _ H) as (post & Hout & Hpost).
  exists post. split; [|done]. rewrite Hout. cbn. by rewrite <- !app_assoc.
Qed.

(** X20. A turn that returns leaves nothing in the buffer of the
    synthetic device: either it emitted nothing and released nothing,
    or its last call that put events in the buffer is followed by a
    flush.  This holds on every path: direct emission, replies of the
    macro daemon, and recovery from a socket error. *)
Theorem turn_ends_flushed (env : LoopEnv) (d d' : KBDDaemon) :
  run_iteration env d = (Ok tt, d') →
  ∃ calls, out d' = out d ++ calls ∧ flushed calls.
Proof.
  unfold run_iteration. intros H.
  apply bind_Ok_inv in H as (key & d1 & Hread & H).
  destruct (read_no_buffering env d _ d1 Hread) as (calls1 & Hout1 & Hcalls1).
  destruct key as [e|].
  2: { injection H as <-. exists calls1. split; [done|]. by left. }
  unfold bind at 1, get at 1 in H. cbv zeta in H.
  destruct (bool_decide (code e ∈ passthrough_keys d1)).
  - apply try_catch_Ok_inv in H
      as [H|(x & d2 & handler & Hthrow & Hh & H)].
    + apply peer_exchange_Ok_flushed in H as (pre & post & Hout & Hpost).
      exists (calls1 ++ pre ++ UdevFlush :: post). split.
      * by rewrite Hout, Hout1, <- !app_assoc.
      * right. exists (calls1 ++ pre), post. by rewrite <- !app_assoc.
    + destruct (peer_exchange_grows env _ _ _ _ Hthrow) as (pre & Hpre).
      destruct x; try done. injection Hh as <-.
      apply on_socket_error_flushed in H as (post & Hout & Hpost).
      eexists. split.
      * rewrite Hout, Hpre, Hout1, <- !app_assoc. reflexivity.
      * right.
        exists (calls1 ++ pre ++ [Cout "Resetting connection ..."; UdevEmit e;
                                  UdevUpAll; UdevFlush; UdevUpAll]), post.
        split; [|done]. by rewrite <- !app_assoc.
  - revert H. run_monad. intros [= <-]. cbn.
    exists (calls1 ++ [UdevEmit e; UdevFlush]). split.
    + by rewrite Hout1, <- !app_assoc.
    + right. exists (calls1 ++ [UdevEmit e]), []. split; [|constructor].
      by rewrite <- !app_assoc.
Qed.

Lemma turn_ends_flushed_witness :
  ∃ calls,
    out (run_iteration swallow_turn typing_daemon).2 = out typing_daemon ++ calls
    ∧ flushed calls.
Proof.
  apply (turn_ends_flushed swallow_turn typing_daemon). reflexivity.
Defined.
